(** * api_auto_test: the test execution engine (pkg/executor)

    A shallow embedding of [pkg/executor/executor.go] together with the
    parts of [pkg/config], [pkg/client] and the Go standard library it
    relies on, followed by the properties of the engine: dependency
    resolution, retry execution, templating, schema coercion, root-cause
    tracing and the sequential and concurrent orchestrators.

    Conventions.
    - Go [string] is a byte sequence: Rocq [string] (a list of 8-bit
      characters).  Go [int] and [int64] are 64-bit: [Z], with the
      wrap-around written where the code does arithmetic.
    - [map[K]V] is a [gmap]; a nil map reads like the empty map and the
      code never distinguishes the two otherwise.
    - [interface{}] values are the tagged union [Value].
    - A computation that does not return normally (a Go panic, or the
      recursion budget of the model running out) is [None]; every such
      function comes with a lemma that it does return.
    - Clock readings ([ExecutedAt], [Duration], [time.Sleep]) are left
      out: no branch of the engine reads them. *)

From Stdlib Require Import ZArith Ascii String DecimalString.
From Stdlib Require Import Floats.SpecFloat.
From stdpp Require Import gmap strings list fin_maps relations sorting.

Set Warnings "-register-all".

(** ** Dynamic values *)

(** The dynamic types the engine inspects with type switches: what
    [encoding/json] and [yaml.v3] decode into [interface{}], plus the
    integer types [convertToSchemaType] produces. *)
Inductive Value : Type :=
| VNil
| VBool (b : bool)
| VInt (n : Z)
| VInt64 (n : Z)
| VFloat32 (f : spec_float)
| VFloat64 (f : spec_float)
| VString (s : string)
| VSlice (l : list Value)
| VMap (m : gmap string Value).

(** ** The Go standard library, as far as the engine calls it *)

Definition minInt64 : Z := (- 2 ^ 63)%Z.
Definition maxInt64 : Z := (2 ^ 63 - 1)%Z.

(** Two's-complement wrap-around of 64-bit signed arithmetic. *)
Definition wrap64 (z : Z) : Z := ((z + 2 ^ 63) mod 2 ^ 64 - 2 ^ 63)%Z.

Definition byteCode (c : ascii) : nat := nat_of_ascii c.

Module strings.

  (** [strings.HasPrefix(s, prefix)] *)
Definition HasPrefix (s prefix : string) : bool := String.prefix prefix s.

Fixpoint drop (n : nat) (s : string) : string :=
    match n, s with
    | S n', String _ r => drop n' r
    | _, _ => s
    end.

  (** [strings.TrimPrefix(s, prefix)] *)
Definition TrimPrefix (s prefix : string) : string :=
    if HasPrefix s prefix then drop (String.length prefix) s else s.

  (** [strings.Split(s, sep)] for a one-byte separator: never empty. *)
Fixpoint Split (s : string) (sep : ascii) : list string :=
    match s with
    | EmptyString => [EmptyString]
    | String c r =>
      if Ascii.eqb c sep then EmptyString :: Split r sep
      else match Split r sep with
           | p :: ps => String c p :: ps
           | [] => [String c EmptyString]
           end
    end.

  (** The first occurrence of [sep] cuts [s] in two. *)
Fixpoint cut (s : string) (sep : ascii) : option (string * string) :=
    match s with
    | EmptyString => None
    | String c r =>
      if Ascii.eqb c sep then Some (EmptyString, r)
      else match cut r sep with
           | Some (a, b) => Some (String c a, b)
           | None => None
           end
    end.

  (** [strings.SplitN(s, sep, 2)] for a one-byte separator. *)
Definition SplitN2 (s : string) (sep : ascii) : list string :=
    match cut s sep with
    | Some (a, b) => [a; b]
    | None => [s]
    end.

Definition inCutset (cutset : string) (c : ascii) : bool :=
    existsb (Ascii.eqb c) (list_ascii_of_string cutset).

Fixpoint TrimLeft (s cutset : string) : string :=
    match s with
    | String c r => if inCutset cutset c then TrimLeft r cutset else s
    | EmptyString => EmptyString
    end.

Definition TrimRight (s cutset : string) : string :=
    String.rev (TrimLeft (String.rev s) cutset).

  (** [strings.Trim(s, cutset)] for an ASCII cutset. *)
Definition Trim (s cutset : string) : string :=
    TrimRight (TrimLeft s cutset) cutset.

  (** [unicode.IsSpace], on the UTF-8 encoding: the six ASCII spaces,
      U+0085 and U+00A0 (two bytes), and U+1680, U+2000..U+200A, U+2028,
      U+2029, U+202F, U+205F, U+3000 (three bytes). *)
Definition isSpace1 (b : nat) : bool :=
    (Nat.leb 9 b && Nat.leb b 13) || Nat.eqb b 32.

Definition isSpace2 (b1 b2 : nat) : bool :=
    Nat.eqb b1 194 && (Nat.eqb b2 133 || Nat.eqb b2 160).

Definition isSpace3 (b1 b2 b3 : nat) : bool :=
    (Nat.eqb b1 225 && Nat.eqb b2 154 && Nat.eqb b3 128)
    || (Nat.eqb b1 226 && Nat.eqb b2 128
        && ((Nat.leb 128 b3 && Nat.leb b3 138)
            || Nat.eqb b3 168 || Nat.eqb b3 169 || Nat.eqb b3 175))
    || (Nat.eqb b1 226 && Nat.eqb b2 129 && Nat.eqb b3 159)
    || (Nat.eqb b1 227 && Nat.eqb b2 128 && Nat.eqb b3 128).

  (** Leading space runes are dropped; [backwards] reads the encodings
      from their last byte, for use on the reversed string. *)
Fixpoint trimSpaceLeft (backwards : bool) (s : string) : string :=
    match s with
    | String c1 r1 =>
      if isSpace1 (byteCode c1) then trimSpaceLeft backwards r1
      else match r1 with
      | String c2 r2 =>
        if (if backwards then isSpace2 (byteCode c2) (byteCode c1)
            else isSpace2 (byteCode c1) (byteCode c2))
        then trimSpaceLeft backwards r2
        else match r2 with
        | String c3 r3 =>
          if (if backwards
              then isSpace3 (byteCode c3) (byteCode c2) (byteCode c1)
              else isSpace3 (byteCode c1) (byteCode c2) (byteCode c3))
          then trimSpaceLeft backwards r3
          else s
        | EmptyString => s
        end
      | EmptyString => s
      end
    | EmptyString => s
    end.

  (** [strings.TrimSpace(s)] *)
Definition TrimSpace (s : string) : string :=
    String.rev (trimSpaceLeft true (String.rev (trimSpaceLeft false s))).

  (** [strings.Join(parts, sep)] *)
Fixpoint Join (parts : list string) (sep : string) : string :=
    match parts with
    | [] => EmptyString
    | [p] => p
    | p :: ps => p +:+ sep +:+ Join ps sep
    end.

End strings.

Module strconv.

Definition digitVal (c : ascii) : option Z :=
    let n := byteCode c in
    if Nat.leb 48 n && Nat.leb n 57 then Some (Z.of_nat n - 48)%Z else None.

Fixpoint parseDigits (s : string) (acc : Z) : option Z :=
    match s with
    | EmptyString => Some acc
    | String c r =>
      match digitVal c with
      | Some d => parseDigits r (10 * acc + d)%Z
      | None => None
      end
    end.

  (** [strconv.Atoi(s)]: an optional sign and decimal digits, at least
      one; anything else, or a value outside [int], is an error. *)
Definition Atoi (s : string) : option Z :=
    let (neg, digits) :=
      match s with
      | String "+" r => (false, r)
      | String "-" r => (true, r)
      | _ => (false, s)
      end in
    match digits with
    | EmptyString => None
    | _ =>
      match parseDigits digits 0 with
      | Some n =>
        let v := if neg : bool then (- n)%Z else n in
        if Z.leb minInt64 v && Z.leb v maxInt64 then Some v else None
      | None => None
      end
    end.

  (** [strconv.ParseBool(s)] *)
Definition ParseBool (s : string) : option bool :=
    if existsb (String.eqb s) ["1"; "t"; "T"; "TRUE"; "true"; "True"]
    then Some true
    else if existsb (String.eqb s) ["0"; "f"; "F"; "FALSE"; "false"; "False"]
    then Some false
    else None.

  (** [strconv.Itoa], [fmt.Sprintf("%d", n)] *)
Definition Itoa (n : Z) : string := NilZero.string_of_int (Z.to_int n).

End strconv.

Module utf8.

Definition isCont (lo hi : nat) (s : string) : bool :=
    match s with
    | String c _ => Nat.leb lo (byteCode c) && Nat.leb (byteCode c) hi
    | EmptyString => false
    end.

Definition tail (s : string) : string :=
    match s with String _ r => r | EmptyString => EmptyString end.

  (** [utf8.DecodeRuneInString]: the width of the rune that starts [s],
      or [None] where the bytes are not a valid encoding (the rune is
      then U+FFFD, of width 1). *)
Definition decodeWidth (s : string) : option nat :=
    match s with
    | EmptyString => None
    | String c r =>
      let b := byteCode c in
      let r2 := tail r in
      let r3 := tail r2 in
      if Nat.ltb b 128 then Some 1%nat
      else if Nat.leb 194 b && Nat.leb b 223 then
        if isCont 128 191 r then Some 2%nat else None
      else if Nat.leb 224 b && Nat.leb b 239 then
        let lo := if Nat.eqb b 224 then 160%nat else 128%nat in
        let hi := if Nat.eqb b 237 then 159%nat else 191%nat in
        if isCont lo hi r && isCont 128 191 r2 then Some 3%nat else None
      else if Nat.leb 240 b && Nat.leb b 244 then
        let lo := if Nat.eqb b 240 then 144%nat else 128%nat in
        let hi := if Nat.eqb b 244 then 143%nat else 191%nat in
        if isCont lo hi r && isCont 128 191 r2 && isCont 128 191 r3
        then Some 4%nat else None
      else None
    end.

Fixpoint take (n : nat) (s : string) : string :=
    match n, s with
    | S n', String c r => String c (take n' r)
    | _, _ => EmptyString
    end.

  (** The encoding of U+FFFD, which [WriteRune] writes for a rune that
      did not decode. *)
Definition runeError : string :=
    String (ascii_of_nat 239) (String (ascii_of_nat 191)
      (String (ascii_of_nat 189) EmptyString)).

  (** One iteration of [for i, ch := range s]. *)
Record Rune := mkRune {
    ascii_ch : option ascii;
    encoded : string;
    atLastByte : bool }.

  (** [for i, ch := range s]: the runes of [s] in order. [ascii_ch] is
      the rune when it is ASCII, [encoded] what [WriteRune(ch)] appends,
      [atLastByte] whether [i == len(s) - 1]. *)
Fixpoint range (s : string) (skip : nat) : list Rune :=
    match s with
    | EmptyString => []
    | String c r =>
      match skip with
      | S k => range r k
      | O =>
        let last := match r with EmptyString => true | _ => false end in
        match decodeWidth s with
        | Some w =>
          mkRune (if Nat.eqb w 1 then Some c else None) (take w s) last
            :: range r (Nat.pred w)
        | None => mkRune None runeError last :: range r 0
        end
      end
    end.

End utf8.

Module hex.

Definition digit (n : nat) : ascii :=
    nth n (list_ascii_of_string "0123456789abcdef") "0"%char.

  (** [hex.EncodeToString] *)
Fixpoint EncodeToString (bytes : list ascii) : string :=
    match bytes with
    | [] => EmptyString
    | b :: r =>
      String (digit (Nat.div (byteCode b) 16))
        (String (digit (Nat.modulo (byteCode b) 16)) (EncodeToString r))
    end.

End hex.

(** ** float64 *)

(** IEEE 754 binary64 values are [spec_float]s of precision 53; a finite
    one, [S754_finite s m e], is the number [(-1)^s * m * 2^e]. *)
Module float64.

  (** A value of the type: a canonical 53-bit representation. *)
Definition valid (f : spec_float) : bool := valid_binary 53 1024 f.

  (** [float64(n)] of an integer: round to nearest, ties to even. *)
Definition ofInt (n : Z) : spec_float := binary_normalize 53 1024 n 0 false.

  (** The number [float64(n)] denotes, which is an integer again: [n]
      itself when it has at most 53 significant bits, and otherwise [n]
      rounded at its 53rd bit, ties to even. *)
Definition roundInt (n : Z) : Z :=
    let a := Z.abs n in
    let d := (Z.log2 a + 1)%Z in
    if Z.leb d 53 then n
    else
      let k := (d - 53)%Z in
      let q := Z.shiftr a k in
      let r := Z.land a (Z.ones k) in
      let half := Z.shiftl 1 (k - 1) in
      let q' := if Z.ltb r half then q
                else if Z.ltb half r then (q + 1)%Z
                else if Z.even q then q else (q + 1)%Z in
      (Z.sgn n * Z.shiftl q' k)%Z.

  (** The integer part of a finite value, rounding towards zero. *)
Definition trunc (f : spec_float) : option Z :=
    match f with
    | S754_zero _ => Some 0%Z
    | S754_finite s m e =>
      let mag := Z.shiftl (Zpos m) e in
      Some (if s then (- mag)%Z else mag)
    | _ => None
    end.

  (** [int64(f)] and [int(f)].  Where the integer part does not fit, or
      there is none (NaN, infinities), Go leaves the result to the
      implementation: [indefinite] stands for it, wrapped to 64 bits. *)
Definition toInt64 (indefinite : spec_float → Z) (f : spec_float) : Z :=
    match trunc f with
    | Some z =>
      if Z.leb minInt64 z && Z.leb z maxInt64 then z
      else wrap64 (indefinite f)
    | None => wrap64 (indefinite f)
    end.

  (** [f == float64(n)], through the number [v] that [float64(n)]
      denotes: [f] is finite and denotes [v]. *)
Definition eqInt (f : spec_float) (v : Z) : bool :=
    match f with
    | S754_zero _ => Z.eqb v 0
    | S754_finite s m e =>
      let sm := if s then Zneg m else Zpos m in
      if Z.leb 0 e then Z.eqb (sm * 2 ^ e) v
      else Z.eqb sm (v * 2 ^ (- e))
    | _ => false
    end.

  (** [f == float64(int64(f))] *)
Definition isWhole (indefinite : spec_float → Z) (f : spec_float) : bool :=
    eqInt f (roundInt (toInt64 indefinite f)).

End float64.

(** ** The regular expression of [replaceVariables] *)

(** [varPattern] is [\{\{([^}]+)\}\}].  A match at the head of [s] is
    two opening braces, the longest run of bytes other than a closing
    brace, which must not be empty, and two closing braces.  The run
    cannot be shortened to make the match succeed, since the byte after a
    shorter run is not a closing brace. *)
Module varPattern.

Fixpoint spanNotClose (s : string) : string * string :=
    match s with
    | EmptyString => (EmptyString, EmptyString)
    | String c r =>
      if Ascii.eqb c "}" then (EmptyString, s)
      else let (a, b) := spanNotClose r in (String c a, b)
    end.

  (** The submatch of a match at the head of [s]. *)
Definition matchAt (s : string) : option string :=
    match s with
    | String c1 (String c2 r) =>
      if Ascii.eqb c1 "{" && Ascii.eqb c2 "{" then
        match spanNotClose r with
        | (String c g, String d1 (String d2 _)) =>
          if Ascii.eqb d1 "}" && Ascii.eqb d2 "}" then Some (String c g)
          else None
        | _ => None
        end
      else None
    | _ => None
    end.

  (** A subject string cut into the matches and the bytes between them. *)
Inductive Segment :=
  | Lit (c : ascii)
  | Match (group : string).

  (** The whole text of a match: [match[0]]. *)
Definition whole (group : string) : string := "{{" +:+ group +:+ "}}".

  (** Leftmost matches, none overlapping: the scan moves over [s] byte
      by byte and [skip] counts the bytes left of the match in hand. *)
Fixpoint scan (s : string) (skip : nat) : list Segment :=
    match s with
    | EmptyString => []
    | String c r =>
      match skip with
      | S k => scan r k
      | O =>
        match matchAt s with
        | Some g => Match g :: scan r (String.length g + 3)
        | None => Lit c :: scan r 0
        end
      end
    end.

  (** [varPattern.FindAllStringSubmatch(s, -1)]: the pairs
      [(match[0], match[1])]. *)
Definition FindAllStringSubmatch (s : string) : list (string * string) :=
    omap (λ seg, match seg with
                 | Match g => Some (whole g, g)
                 | Lit _ => None
                 end) (scan s 0).

End varPattern.

(** ** pkg/config/types.go *)

Module RetryPolicy.
Record t := mk { MaxRetries : Z; Interval : Z }.
End RetryPolicy.

Module Validator.
Record t := mk { Type_ : string; Field : string; Value_ : Value; Expect : Value }.
End Validator.

Module ResponseExpectation.
Record t := mk {
    StatusCode : Z;
    Headers : gmap string string;
    Body : gmap string Value;
    BodyContains : list string;
    BodyExcludes : list string;
    JSONSchema : string;
    Validators : list Validator.t }.
End ResponseExpectation.

Module RequestConfig.
Record t := mk {
    Method : string;
    Path : string;
    Headers : gmap string string;
    Query : gmap string Value;
    Body : Value;
    BodySchema : gmap string string }.
End RequestConfig.

Module APITest.
Record t := mk {
    Name : string;
    Description : string;
    Version : string;
    Versions : list string;
    Weight : Z;
    DependsOn : string;
    Request : RequestConfig.t;
    Response : ResponseExpectation.t;
    RetryPolicy : RetryPolicy.t }.
End APITest.

(** ** sort.SliceStable *)

(** Go's [sort.SliceStable] is insertion sort on short slices and a
    stable merge of insertion-sorted blocks on long ones; its contract is
    the stable sort.  The model is the insertion sort of [sort.go]: each
    element in turn sinks to the left past the elements it is [less]
    than.  The sorted prefix is kept reversed, so that sinking is a walk
    from the head. *)
Section SliceStable.
Context {A : Type} (less : A → A → bool).

Fixpoint sink (x : A) (racc : list A) : list A :=
    match racc with
    | [] => [x]
    | y :: r => if less x y then y :: sink x r else x :: y :: r
    end.

Definition SliceStable (l : list A) : list A :=
    rev (fold_left (λ racc x, sink x racc) l []).
End SliceStable.

(** ** Dependency resolution *)

(** [sortAPIsByWeight]: a copy of the configured tests, stably sorted by
    weight, heavier first. *)
Definition weightLess (a b : APITest.t) : bool :=
  if decide (APITest.Weight a ≠ APITest.Weight b)
  then bool_decide (APITest.Weight a > APITest.Weight b)%Z
  else false.

Definition sortAPIsByWeight (apis : list APITest.t) : list APITest.t :=
  SliceStable weightLess apis.

(** [nameToIndex[api.Name] = i] for [i, api := range apis]: a later test
    of the same name overwrites an earlier one. *)
Fixpoint buildNameToIndex (i : nat) (apis : list APITest.t)
    (m : gmap string nat) : gmap string nat :=
  match apis with
  | [] => m
  | api :: rest => buildNameToIndex (S i) rest (<[APITest.Name api := i]> m)
  end.

(** The variables the closure [visit] captures.  [visited] and
    [visiting] are [map[int]bool]: the set of keys mapped to [true]. *)
Record VisitState := mkVisit {
  visited : gset nat;
  visiting : gset nat;
  result : list APITest.t }.

(** [visit(idx)], with the recursion budget [fuel]. The boolean is the
    closure's return value: [false] reports a cycle. *)
Fixpoint visit (apis : list APITest.t) (nameToIndex : gmap string nat)
    (fuel : nat) (idx : nat) (st : VisitState) : option (bool * VisitState) :=
  match fuel with
  | O => None
  | S fuel' =>
    if decide (idx ∈ visited st) then Some (true, st)
    else if decide (idx ∈ visiting st) then Some (false, st)
    else
      let st1 := mkVisit (visited st) ({[idx]} ∪ visiting st) (result st) in
      match apis !! idx with
      | None => None
      | Some api =>
        let deps :=
          if decide (APITest.DependsOn api ≠ "")
          then match nameToIndex !! APITest.DependsOn api with
               | Some depIdx => visit apis nameToIndex fuel' depIdx st1
               | None => Some (true, st1)
               end
          else Some (true, st1) in
        match deps with
        | None => None
        | Some (false, st2) => Some (false, st2)
        | Some (true, st2) =>
          Some (true, mkVisit ({[idx]} ∪ visited st2)
                              (visiting st2 ∖ {[idx]})
                              (result st2 ++ [api]))
        end
      end
  end.

(** The loop [for i := range apis] of [resolveExecutionOrder]; a cycle
    makes it return the input order at once. *)
Fixpoint resolveLoop (apis : list APITest.t) (nameToIndex : gmap string nat)
    (indices : list nat) (st : VisitState) : option (list APITest.t) :=
  match indices with
  | [] => Some (result st)
  | i :: rest =>
    if decide (i ∈ visited st) then resolveLoop apis nameToIndex rest st
    else match visit apis nameToIndex (S (length apis)) i st with
         | None => None
         | Some (false, _) => Some apis
         | Some (true, st') => resolveLoop apis nameToIndex rest st'
         end
  end.

Definition resolveExecutionOrder (apis : list APITest.t) : option (list APITest.t) :=
  resolveLoop apis (buildNameToIndex 0 apis ∅) (seq 0 (length apis))
              (mkVisit ∅ ∅ []).

(** ** pkg/client, pkg/validator: the types the engine sees *)

Module Response.
  (** [client.Response]; [BodyJSON] is left nil (empty here) when the
      body is not JSON. *)
Record t := mk {
    StatusCode : Z;
    Headers : gmap string (list string);
    Body : string;
    BodyJSON : gmap string Value }.
End Response.

Module ValidationError.
Record t := mk {
    Field : string; Expected : Value; Actual : Value; Message : string }.
End ValidationError.

Module ValidationResult.
Record t := mk {
    Passed : bool;
    Errors : list ValidationError.t;
    Warnings : list string }.
End ValidationResult.

Module CertConfig.
Record t := mk { CertFile : string; KeyFile : string; CAFile : string }.
End CertConfig.

Module TestConfig.
Record t := mk {
    BaseURL : string;
    Version : string;
    Certificate : CertConfig.t;
    Timeout : Z;
    Headers : gmap string string;
    APIs : list APITest.t }.
End TestConfig.

(** ** What lies outside the engine *)

(** The collaborators the engine calls and does not implement: the HTTP
    client with the network behind it, the response validator, the
    entropy source and the clock, and the number formatting and parsing
    of [fmt] and [strconv].  [World] is the state of all that; an
    operation that depends on it, or changes it, passes it along. *)
Class Runtime := {
  World : Type;
  (** [HTTPClient.Do]: a response, or a transport error. *)
  httpDo : RequestConfig.t → World → (Response.t + string) * World;
  (** [validator.NewValidator(expectation).Validate(resp)] *)
  Validate : ResponseExpectation.t → Response.t → ValidationResult.t;
  (** [crypto/rand.Reader]: the next number drawn, any integer. *)
  randReader : World → Z * World;
  (** [time.Now().UnixNano()] *)
  timeNow : World → Z * World;
  (** [t.Format(layout)] in the local time zone *)
  timeFormat : string → Z → string;
  (** [%v] of a [float64] and of a [float32] *)
  formatFloat64 : spec_float → string;
  formatFloat32 : spec_float → string;
  (** [strconv.ParseFloat(s, 64)] *)
  ParseFloat : string → option spec_float;
  (** the implementation's result of an integer conversion that does
      not fit (see [float64.toInt64]) *)
  indefinite : spec_float → Z }.

(** ** pkg/executor: results, report, executor *)

Module TestResult.
Record t := mk {
    Name : string;
    Description : string;
    Version : string;
    Passed : bool;
    Skipped : bool;
    SkipReason : string;
    StatusCode : Z;
    Request : RequestConfig.t;
    Response : option Response.t;
    Validation : option ValidationResult.t;
    Error : option string;
    RetryCount : Z }.

  (** Assignments to single fields. *)
Definition setPassed (b : bool) (r : t) : t :=
    mk (Name r) (Description r) (Version r) b (Skipped r) (SkipReason r)
       (StatusCode r) (Request r) (Response r) (Validation r) (Error r)
       (RetryCount r).
Definition setRetryCount (n : Z) (r : t) : t :=
    mk (Name r) (Description r) (Version r) (Passed r) (Skipped r)
       (SkipReason r) (StatusCode r) (Request r) (Response r) (Validation r)
       (Error r) n.
Definition setResponse (resp : Response.t) (r : t) : t :=
    mk (Name r) (Description r) (Version r) (Passed r) (Skipped r)
       (SkipReason r) (Response.StatusCode resp) (Request r) (Some resp)
       (Validation r) (Error r) (RetryCount r).
Definition setValidation (v : ValidationResult.t) (r : t) : t :=
    mk (Name r) (Description r) (Version r) (Passed r) (Skipped r)
       (SkipReason r) (StatusCode r) (Request r) (Response r) (Some v)
       (Error r) (RetryCount r).
Definition setError (err : string) (r : t) : t :=
    mk (Name r) (Description r) (Version r) (Passed r) (Skipped r)
       (SkipReason r) (StatusCode r) (Request r) (Response r) (Validation r)
       (Some err) (RetryCount r).
End TestResult.

Module TestReport.
Record t := mk {
    TotalTests : Z;
    PassedTests : Z;
    FailedTests : Z;
    SkippedTests : Z;
    Results : list TestResult.t;
    Version : string;
    BaseURL : string;
    ConfigFileName : string }.

  (** [report.Results = append(report.Results, result)] and the
      counters that go with it: [dp], [df], [ds] are added to
      [PassedTests], [FailedTests], [SkippedTests], one to [TotalTests]. *)
Definition record (result : TestResult.t) (dp df ds : Z) (r : t) : t :=
    mk (TotalTests r + 1) (PassedTests r + dp) (FailedTests r + df)
       (SkippedTests r + ds) (Results r ++ [result]) (Version r) (BaseURL r)
       (ConfigFileName r).
End TestReport.

Module Executor.
  (** [results] is the Result Store.  The mutex only serialises access
      and has no state of its own. *)
Record t := mk {
    config : TestConfig.t;
    results : gmap string TestResult.t }.
End Executor.

(** [NewExecutor(cfg)] *)
Definition NewExecutor (cfg : TestConfig.t) : Executor.t := Executor.mk cfg ∅.

(** [storeResult] *)
Definition storeResult (e : Executor.t) (r : TestResult.t) : Executor.t :=
  Executor.mk (Executor.config e) (<[TestResult.Name r := r]> (Executor.results e)).

(** [getResult]: [None] is the nil pointer. *)
Definition getResult (e : Executor.t) (name : string) : option TestResult.t :=
  Executor.results e !! name.

(** [findDependsOn] *)
Fixpoint findDependsOnIn (apis : list APITest.t) (testName : string) : string :=
  match apis with
  | [] => ""
  | api :: rest =>
    if String.eqb (APITest.Name api) testName then APITest.DependsOn api
    else findDependsOnIn rest testName
  end.

Definition findDependsOn (e : Executor.t) (testName : string) : string :=
  findDependsOnIn (TestConfig.APIs (Executor.config e)) testName.

(** The loop of [findRootCause], [fuel] iterations at most. *)
Fixpoint findRootCauseLoop (e : Executor.t) (fuel : nat)
    (visited : gset string) (current : string) : option string :=
  match fuel with
  | O => None
  | S fuel' =>
    if decide (current ∈ visited) then Some current
    else
      let visited' := {[current]} ∪ visited in
      match getResult e current with
      | None => Some current
      | Some result =>
        if negb (TestResult.Passed result) && negb (TestResult.Skipped result)
        then Some current
        else if TestResult.Skipped result then
          let dependsOn := findDependsOn e current in
          if String.eqb dependsOn "" then Some current
          else findRootCauseLoop e fuel' visited' dependsOn
        else Some current
      end
  end.

(** [findRootCause]: every iteration but the last marks a new name that
    has a stored result, so two more iterations than there are stored
    results are enough. *)
Definition findRootCause (e : Executor.t) (testName : string) : option string :=
  findRootCauseLoop e (S (S (size (Executor.results e)))) ∅ testName.

(** [getDependencyFailureReason] *)
Definition getDependencyFailureReason (result : TestResult.t) : string :=
  if TestResult.Skipped result then "被跳过" else "执行失败".

(** ** Threading the world *)

(** A computation that reads and changes a state [S]. *)
Definition State (S A : Type) : Type := S → A * S.

Definition ret {S A} (a : A) : State S A := λ s, (a, s).

Definition bind {S A B} (m : State S A) (k : A → State S B) : State S B :=
  λ s, let (a, s') := m s in k a s'.

(** The world, and a record of the calls made to the HTTP client: the
    name of the calling test and the request handed over. *)
Record Env `{Runtime} := mkEnv {
  world : World;
  sent : list (string * RequestConfig.t) }.

Notation "'do' x <- m ; k" := (bind m (λ x, k))
  (at level 10, x name, m at level 100, k at level 200, only parsing).

Notation "'do' ' pat <- m ; k" := (bind m (λ x, match x with pat => k end))
  (at level 10, pat pattern, m at level 100, k at level 200, only parsing).

Section Engine.
Context `{Runtime}.

  (** Templating draws random values and reads the clock: it threads
      the world.  Running a test calls the HTTP client as well: it
      threads the world and the record of the calls. *)
Definition IO (A : Type) : Type := State World A.
Definition Exec (A : Type) : Type := State Env A.

Definition liftWorld {A} (m : IO A) : Exec A :=
    λ env, let (a, w) := m (world env) in (a, mkEnv _ w (sent env)).

  (** [e.client.Do(apiTest.Request)], on behalf of the test [name] *)
Definition clientDo (name : string) (req : RequestConfig.t)
      : Exec (Response.t + string) :=
    λ env, let (o, w) := httpDo req (world env) in
           (o, mkEnv _ w (sent env ++ [(name, req)])).

Fixpoint mapIO {A B} (f : A → IO B) (l : list A) : IO (list B) :=
    match l with
    | [] => ret []
    | x :: r => do y <- f x; do ys <- mapIO f r; ret (y :: ys)
    end.

Fixpoint repeatIO {A} (n : nat) (m : IO A) : IO (list A) :=
    match n with
    | O => ret []
    | S n' => do x <- m; do xs <- repeatIO n' m; ret (x :: xs)
    end.

  (** *** Random values *)

  (** [rand.Int(rand.Reader, big.NewInt(max))]: uniform in [0, max). *)
Definition randInt (max : Z) : IO Z :=
    do r <- (randReader : IO Z); ret (r mod max)%Z.

Definition pick (charset : string) (n : Z) : ascii :=
    nth (Z.to_nat n) (list_ascii_of_string charset) "000"%char.

Definition pickString (choices : list string) (n : Z) : string :=
    nth (Z.to_nat n) choices "".

  (** [randomString] *)
Definition randomString (length : Z) : IO string :=
    let charset :=
      "abcdefghijklmnopqrstuvwxyzABCDEFGHIJKLMNOPQRSTUVWXYZ0123456789" in
    do ns <- repeatIO (Z.to_nat length) (randInt 62);
    ret (string_of_list_ascii (map (pick charset) ns)).

  (** [randomNumber]: a leading zero is redrawn among the digits 1-9.
      The engine calls it with a length above 0.  For a length that is
      not, the Go code does not return, [result[0]] and [make] being out
      of range; the empty string stands for that here. *)
Definition randomNumber (length : Z) : IO string :=
    let charset := "0123456789" in
    do ns <- repeatIO (Z.to_nat length) (randInt 10);
    match map (pick charset) ns with
    | c :: rest =>
      if Ascii.eqb c "0" then
        do n <- randInt 9;
        ret (string_of_list_ascii (pick charset (n + 1) :: rest))
      else ret (string_of_list_ascii (c :: rest))
    | [] => ret ""
    end.

Definition setBits (b : ascii) (mask bits : nat) : ascii :=
    ascii_of_nat (Nat.lor (Nat.land (byteCode b) mask) bits).

  (** [randomUUID]: sixteen random bytes, the version and variant bits
      set, in the 8-4-4-4-12 layout. *)
Definition randomUUID : IO string :=
    do rs <- repeatIO 16 (randInt 256);
    let uuid := map (λ r, ascii_of_nat (Z.to_nat r)) rs in
    let uuid := alter (λ b, setBits b 15 64) 6%nat uuid in
    let uuid := alter (λ b, setBits b 63 128) 8%nat uuid in
    let part i j := hex.EncodeToString (take (j - i) (drop i uuid)) in
    ret (part 0 4 +:+ "-" +:+ part 4 6 +:+ "-" +:+ part 6 8 +:+ "-"
         +:+ part 8 10 +:+ "-" +:+ part 10 16)%nat.

  (** [randomEmail] *)
Definition randomEmail : IO string :=
    let domains := ["test.com"; "example.com"; "demo.org"; "mail.com"] in
    do n <- randInt 4;
    do local <- randomString 8;
    ret (local +:+ "@" +:+ pickString domains n).

  (** [randomPhone] *)
Definition randomPhone : IO string :=
    let prefixes :=
      ["130"; "131"; "132"; "133"; "134"; "135"; "136"; "137"; "138"; "139";
       "150"; "151"; "152"; "153"; "155"; "156"; "157"; "158"; "159";
       "180"; "181"; "182"; "183"; "184"; "185"; "186"; "187"; "188"; "189"] in
    do n <- randInt 29;
    do digits <- randomNumber 8;
    ret (pickString prefixes n +:+ digits).

  (** [randomChineseName] *)
Definition randomChineseName : IO string :=
    let surnames :=
      ["张"; "王"; "李"; "赵"; "刘"; "陈"; "杨"; "黄"; "周"; "吴";
       "徐"; "孙"; "马"; "朱"; "胡"; "郭"; "何"; "林"; "罗"; "高"] in
    let names :=
      ["伟"; "芳"; "娜"; "秀英"; "敏"; "静"; "强"; "磊"; "军"; "洋";
       "勇"; "艳"; "杰"; "娟"; "涛"; "明"; "超"; "秀兰"; "霞"; "平";
       "刚"; "桂英"; "文"; "华"; "建"; "国"; "志"; "海"; "云"; "峰"] in
    do sn <- randInt 20;
    do nn <- randInt 30;
    ret (pickString surnames sn +:+ pickString names nn).

  (** [randomUsername] *)
Definition randomUsername : IO string :=
    let prefixes := ["user"; "test"; "dev"; "admin"; "guest"; "demo"] in
    do n <- randInt 6;
    do suffix <- randomString 6;
    ret (pickString prefixes n +:+ "_" +:+ suffix).

  (** The length parameter of [string] and [number]: [param] when it
      parses as a positive integer. *)
Definition lengthParam (default : Z) (param : string) : Z :=
    if String.eqb param "" then default
    else match strconv.Atoi param with
         | Some l => if Z.ltb 0 l then l else default
         | None => default
         end.

  (** [generateRandomValue] *)
Definition generateRandomValue (randomType : string) : IO string :=
    match strings.Split randomType "." with
    | _ :: baseType :: rest =>
      let param := match rest with p :: _ => p | [] => "" end in
      if String.eqb baseType "string" then randomString (lengthParam 8 param)
      else if String.eqb baseType "number" then randomNumber (lengthParam 6 param)
      else if String.eqb baseType "uuid" then randomUUID
      else if String.eqb baseType "timestamp" then
        do t <- (timeNow : IO Z); ret (strconv.Itoa (Z.quot t 1000000))
      else if String.eqb baseType "datetime" then
        do t <- (timeNow : IO Z); ret (timeFormat "2006-01-02 15:04:05" t)
      else if String.eqb baseType "date" then
        do t <- (timeNow : IO Z); ret (timeFormat "2006-01-02" t)
      else if String.eqb baseType "email" then randomEmail
      else if String.eqb baseType "phone" then randomPhone
      else if String.eqb baseType "name" then randomChineseName
      else if String.eqb baseType "username" then randomUsername
      else ret ""
    | _ => ret ""
    end.

  (** *** fmt *)

Definition sortByKey {A} (l : list (string * A)) : list (string * A) :=
    SliceStable (λ a b, String.ltb (fst a) (fst b)) l.

  (** [fmt.Sprintf("%v", v)]: maps print with their keys in order. *)
Fixpoint Sprint (v : Value) : string :=
    match v with
    | VNil => "<nil>"
    | VBool b => if b then "true" else "false"
    | VInt n | VInt64 n => strconv.Itoa n
    | VFloat32 f => formatFloat32 f
    | VFloat64 f => formatFloat64 f
    | VString s => s
    | VSlice l => "[" +:+ strings.Join (map Sprint l) " " +:+ "]"
    | VMap m =>
      let entries := map_fold (λ k x acc, (k, Sprint x) :: acc) [] m in
      "map[" +:+ strings.Join (map (λ kv, fst kv +:+ ":" +:+ snd kv)
                                    (sortByKey entries)) " " +:+ "]"
    end.

  (** *** Field paths *)

  (** [fieldPathPart] *)
Record fieldPathPart := mkPart {
    name : string;
    isArray : bool;
    index : Z }.

  (** The local variables of [parseFieldPath]. *)
Record parseState := mkParse {
    parts : list fieldPathPart;
    currentPart : string;
    inBracket : bool;
    bracketContent : string }.

  (** The [switch ch] of the loop of [parseFieldPath]. *)
Definition parseSwitch (st : parseState) (r : utf8.Rune) : parseState :=
    let '(mkParse parts currentPart inBracket bracketContent) := st in
    match utf8.ascii_ch r with
    | Some "."%char =>
      if inBracket
      then mkParse parts currentPart inBracket (bracketContent +:+ utf8.encoded r)
      else if negb (String.eqb currentPart "")
      then mkParse (parts ++ [mkPart currentPart false 0]) "" inBracket bracketContent
      else st
    | Some "["%char => mkParse parts currentPart true bracketContent
    | Some "]"%char =>
      if inBracket then
        match strconv.Atoi bracketContent with
        | Some index =>
          if Z.leb 0 index
          then mkParse (parts ++ [mkPart currentPart true index]) "" false ""
          else mkParse parts currentPart false ""
        | None => mkParse parts currentPart false ""
        end
      else st
    | _ =>
      if inBracket
      then mkParse parts currentPart inBracket (bracketContent +:+ utf8.encoded r)
      else mkParse parts (currentPart +:+ utf8.encoded r) inBracket bracketContent
    end.

  (** One iteration: the switch, then the part still being built is
      closed when the rune starts at the last byte of the path. *)
Definition parseStep (st : parseState) (r : utf8.Rune) : parseState :=
    let st' := parseSwitch st r in
    if utf8.atLastByte r && negb (String.eqb (currentPart st') "")
    then mkParse (parts st' ++ [mkPart (currentPart st') false 0])
                 (currentPart st') (inBracket st') (bracketContent st')
    else st'.

  (** [parseFieldPath] *)
Definition parseFieldPath (path : string) : list fieldPathPart :=
    if String.eqb path "" then []
    else parts (fold_left parseStep (utf8.range path 0) (mkParse [] "" false "")).

  (** [json.Marshal] then [json.Unmarshal] into a
      [map[string]interface{}]: of the values of [Value] only nil, which
      is encoded as [null] and leaves the map nil, decodes without
      error; [None] is the error. *)
Definition jsonToMap (v : Value) : option (gmap string Value) :=
    match v with
    | VNil => Some ∅
    | _ => None
    end.

  (** The same into a [[]interface{}]. *)
Definition jsonToSlice (v : Value) : option (list Value) :=
    match v with
    | VNil => Some []
    | _ => None
    end.

  (** Access to the field [name] of [current]; [None] is [return nil]. *)
Definition fieldOf (current : Value) (name : string) : option Value :=
    match current with
    | VMap v => v !! name
    | _ => match jsonToMap current with
           | Some m => m !! name
           | None => None
           end
    end.

  (** Access to the element [index] of [current]. *)
Definition elementOf (current : Value) (index : Z) : option Value :=
    let at_ (arr : list Value) :=
      if Z.leb 0 index && Z.ltb index (Z.of_nat (length arr))
      then arr !! Z.to_nat index else None in
    match current with
    | VSlice arr => at_ arr
    | _ => match jsonToSlice current with
           | Some slice => at_ slice
           | None => None
           end
    end.

  (** The body of the loop of [extractFieldValue]. *)
Definition extractStep (current : Value) (part : fieldPathPart) : option Value :=
    if isArray part then
      match (if negb (String.eqb (name part) "")
             then fieldOf current (name part) else Some current) with
      | Some current' => elementOf current' (index part)
      | None => None
      end
    else fieldOf current (name part).

Fixpoint extractParts (current : Value) (ps : list fieldPathPart) : Value :=
    match ps with
    | [] => current
    | part :: rest =>
      match extractStep current part with
      | Some current' => extractParts current' rest
      | None => VNil
      end
    end.

  (** [extractFieldValue] *)
Definition extractFieldValue (body : Value) (fieldPath : string) : Value :=
    extractParts body (parseFieldPath fieldPath).

  (** *** Templating: the closures of [replaceVariables] *)

Definition isNil (v : Value) : bool :=
    match v with VNil => true | _ => false end.

  (** The part of [extractValue] that picks the data a reference draws
      from: the field path without its prefix and [sourceData], or
      [None] where the function returns for want of a response. *)
Definition sourceOf (depResult : TestResult.t) (fieldPath : string)
      : option (string * Value) :=
    if strings.HasPrefix fieldPath "request." then
      Some (strings.TrimPrefix fieldPath "request.",
            RequestConfig.Body (TestResult.Request depResult))
    else if strings.HasPrefix fieldPath "response." then
      match TestResult.Response depResult with
      | None => None
      | Some resp =>
        Some (strings.TrimPrefix fieldPath "response.",
              VMap (Response.BodyJSON resp))
      end
    else
      match TestResult.Response depResult with
      | None => None
      | Some resp => Some (fieldPath, VMap (Response.BodyJSON resp))
      end.

  (** The test name and the field path of a reference. *)
Definition referenceOf (varPath : string) : string * string :=
    let parts := strings.SplitN2 varPath "." in
    (match parts with p :: _ => p | [] => "" end,
     match parts with [_; p] => p | _ => "" end).

  (** [extractValue]: the value and [ok]. *)
Definition extractValue (e : Executor.t) (varPath : string) : IO (Value * bool) :=
    let varPath := strings.TrimSpace varPath in
    if strings.HasPrefix varPath "$random" then
      do randomValue <- generateRandomValue varPath;
      if negb (String.eqb randomValue "") then ret (VString randomValue, true)
      else ret (VNil, false)
    else
      let '(testName, fieldPath) := referenceOf varPath in
      match getResult e testName with
      | None => ret (VNil, false)
      | Some depResult =>
        match sourceOf depResult fieldPath with
        | None => ret (VNil, false)
        | Some (fieldPath, sourceData) =>
          let value := if String.eqb fieldPath "" then sourceData
                       else extractFieldValue sourceData fieldPath in
          ret (value, negb (isNil value))
        end
      end.

  (** The callback of [replaceInString], applied to the text of a
      match. *)
Definition replaceMatch (e : Executor.t) (match_ : string) : IO string :=
    let varPath := strings.Trim match_ "{}" in
    do '(value, ok) <- extractValue e varPath;
    if ok && negb (isNil value) then ret (Sprint value)
    else ret match_.

  (** [varPattern.ReplaceAllStringFunc]: the matches are replaced from
      left to right. *)
Fixpoint replaceSegments (e : Executor.t) (segs : list varPattern.Segment)
      : IO string :=
    match segs with
    | [] => ret ""
    | varPattern.Lit c :: rest =>
      do out <- replaceSegments e rest; ret (String c out)
    | varPattern.Match g :: rest =>
      do r <- replaceMatch e (varPattern.whole g);
      do out <- replaceSegments e rest;
      ret (r +:+ out)
    end.

  (** [replaceInString] *)
Definition replaceInString (e : Executor.t) (s : string) : IO string :=
    replaceSegments e (varPattern.scan s 0).

  (** The JSON number that is whole becomes an [int64]. *)
Definition normalizeNumber (value : Value) : Value :=
    match value with
    | VFloat64 f =>
      if float64.isWhole indefinite f then VInt64 (float64.toInt64 indefinite f)
      else value
    | _ => value
    end.

  (** [replaceInInterface].  Go ranges over a map in no fixed order; the
      fold visits the entries in the order of the map's representation. *)
Fixpoint replaceInInterface (e : Executor.t) (v : Value) : IO Value :=
    match v with
    | VString val =>
      let trimmed := strings.TrimSpace val in
      let asString := do s <- replaceInString e val; ret (VString s) in
      match varPattern.FindAllStringSubmatch trimmed with
      | [(m0, m1)] =>
        if String.eqb trimmed m0 then
          do '(value, ok) <- extractValue e m1;
          if ok : bool then ret (normalizeNumber value) else asString
        else asString
      | _ => asString
      end
    | VMap val =>
      do result <- map_fold (λ k x acc,
                      do result <- acc;
                      do x' <- replaceInInterface e x;
                      ret (<[k := x']> result)) (ret ∅) val;
      ret (VMap result)
    | VSlice val =>
      do result <- mapIO (replaceInInterface e) val; ret (VSlice result)
    | _ => ret v
    end.

  (** *** Schema coercion *)

  (** [convertToSchemaType] *)
Definition convertToSchemaType (value : Value) (expectedType : string) : Value :=
    if isNil value then value
    else if String.eqb expectedType "int" then
      match value with
      | VInt v => VInt v
      | VInt64 v => VInt v
      | VFloat64 v => VInt (float64.toInt64 indefinite v)
      | VString v =>
        match strconv.Atoi v with
        | Some i => VInt i
        | None => value
        end
      | _ => value
      end
    else if String.eqb expectedType "float" || String.eqb expectedType "float64" then
      match value with
      | VFloat64 v => VFloat64 v
      | VFloat32 v => VFloat64 v
      | VInt v => VFloat64 (float64.ofInt v)
      | VInt64 v => VFloat64 (float64.ofInt v)
      | VString v =>
        match ParseFloat v with
        | Some f => VFloat64 f
        | None => value
        end
      | _ => value
      end
    else if String.eqb expectedType "string" then VString (Sprint value)
    else if String.eqb expectedType "bool" || String.eqb expectedType "boolean" then
      match value with
      | VBool v => VBool v
      | VString v =>
        match strconv.ParseBool v with
        | Some b => VBool b
        | None => value
        end
      | _ => value
      end
    else value.

  (** [setNestedValue], from the split path on.  The Go code writes
      into the map it reaches; a value has no address, and here the
      write is rebuilt along the path.  The two agree for a map that is
      held once; a map that two fields hold, or a body and a stored
      result, is written for all of them in Go and for the one path
      here: [InPlace], further down, has the maps in a heap for that. *)
Fixpoint setNestedParts (data : gmap string Value) (parts : list string)
      (expectedType : string) : gmap string Value :=
    match parts with
    | [] => data
    | [field] =>
      match data !! field with
      | Some value => <[field := convertToSchemaType value expectedType]> data
      | None => data
      end
    | part :: rest =>
      match data !! part with
      | Some (VMap nextMap) =>
        <[part := VMap (setNestedParts nextMap rest expectedType)]> data
      | _ => data
      end
    end.

Definition setNestedValue (data : gmap string Value) (fieldPath : string)
      (expectedType : string) : gmap string Value :=
    setNestedParts data (strings.Split fieldPath ".") expectedType.

  (** [convertBodyToSchemaTypes]; the schema is ranged over in the order
      of the map's representation.  The copy of the top level is the
      value itself; the maps below it are values too, with the limits
      said at [setNestedParts]. *)
Definition convertBodyToSchemaTypes (body : Value) (schema : gmap string string)
      : Value :=
    match body with
    | VMap bodyMap =>
      VMap (map_fold (λ fieldPath expectedType result,
                        setNestedValue result fieldPath expectedType)
                     bodyMap schema)
    | _ => body
    end.

  (** *** [replaceVariables] *)

Definition replaceVariables (e : Executor.t) (apiTest : APITest.t) : IO APITest.t :=
    let req := APITest.Request apiTest in
    do path <- replaceInString e (RequestConfig.Path req);
    do query <- replaceInInterface e (VMap (RequestConfig.Query req));
    let query := match query with VMap q => q | _ => ∅ end in
    do body <-
      (if isNil (RequestConfig.Body req) then ret (RequestConfig.Body req)
       else
         do body <- replaceInInterface e (RequestConfig.Body req);
         if Nat.ltb 0 (size (RequestConfig.BodySchema req))
         then ret (convertBodyToSchemaTypes body (RequestConfig.BodySchema req))
         else ret body);
    do headers <- map_fold (λ k v acc,
                     do processedHeaders <- acc;
                     do v' <- replaceInString e v;
                     ret (<[k := v']> processedHeaders))
                   (ret ∅) (RequestConfig.Headers req);
    ret (APITest.mk (APITest.Name apiTest) (APITest.Description apiTest)
           (APITest.Version apiTest) (APITest.Versions apiTest)
           (APITest.Weight apiTest) (APITest.DependsOn apiTest)
           (RequestConfig.mk (RequestConfig.Method req) path headers query body
              (RequestConfig.BodySchema req))
           (APITest.Response apiTest) (APITest.RetryPolicy apiTest)).

  (** *** [executeAPITest] *)

  (** The number of iterations of the attempt loop: the bound
      [maxRetries] after its adjustment. *)
Definition attemptLimit (apiTest : APITest.t) : Z :=
    let maxRetries := RetryPolicy.MaxRetries (APITest.RetryPolicy apiTest) in
    if Z.eqb maxRetries 0 then 1%Z else wrap64 (maxRetries + 1).

  (** The result as it is before the first attempt. *)
Definition newResult (apiTest : APITest.t) : TestResult.t :=
    TestResult.mk (APITest.Name apiTest) (APITest.Description apiTest)
      (APITest.Version apiTest) false false "" 0 (APITest.Request apiTest)
      None None None 0.

  (** The body of the attempt loop, for the iteration [attempt]: the
      boolean tells that the function returned from inside the loop. *)
Definition attemptBody (apiTest : APITest.t) (attempt : Z)
      (result : TestResult.t) (lastErr : option string)
      : Exec (bool * TestResult.t * option string) :=
    let result :=
      if Z.ltb 0 attempt
      then TestResult.setRetryCount (TestResult.RetryCount result + 1) result
      else result in
    do o <- clientDo (APITest.Name apiTest) (APITest.Request apiTest);
    match o with
    | inr err => ret (false, result, Some err)
    | inl resp =>
      let result := TestResult.setResponse resp result in
      let validationResult := Validate (APITest.Response apiTest) resp in
      let result := TestResult.setValidation validationResult result in
      if ValidationResult.Passed validationResult
      then ret (true, TestResult.setPassed true result, lastErr)
      else ret (false, result, lastErr)
    end.

  (** After the loop: all the attempts failed. *)
Definition exhausted (result : TestResult.t) (lastErr : option string)
      : TestResult.t :=
    let result := match lastErr with
                  | Some err => TestResult.setError err result
                  | None => result
                  end in
    TestResult.setPassed false result.

  (** The attempt loop, with [remaining] iterations to go. *)
Fixpoint attempts (apiTest : APITest.t) (remaining : nat) (attempt : Z)
      (result : TestResult.t) (lastErr : option string) : Exec TestResult.t :=
    match remaining with
    | O => ret (exhausted result lastErr)
    | S remaining' =>
      do '(returned, result, lastErr) <- attemptBody apiTest attempt result lastErr;
      if returned : bool then ret result
      else attempts apiTest remaining' (attempt + 1) result lastErr
    end.

Definition executeAPITest (apiTest : APITest.t) : Exec TestResult.t :=
    attempts apiTest (Z.to_nat (attemptLimit apiTest)) 0 (newResult apiTest) None.

  (** *** [Execute] *)

  (** The result of a test that is not run. *)
Definition skippedResult (apiTest : APITest.t) (skipReason : string)
      : TestResult.t :=
    TestResult.mk (APITest.Name apiTest) (APITest.Description apiTest)
      (APITest.Version apiTest) false true skipReason 0
      (APITest.Request apiTest) None None None 0.

  (** The reason given for a dependency that failed or was skipped. *)
Definition skipReasonFor (dependsOn : string) (depResult : TestResult.t)
      (rootCause : string) : string :=
    if negb (String.eqb rootCause "") && negb (String.eqb rootCause dependsOn)
    then "依赖接口 '" +:+ dependsOn +:+ "' "
         +:+ getDependencyFailureReason depResult
         +:+ "（根本原因：接口 '" +:+ rootCause +:+ "' 执行失败）"
    else "依赖接口 '" +:+ dependsOn +:+ "' "
         +:+ getDependencyFailureReason depResult.

  (** The dependency check at the head of the loop of [Execute]:
      [Some (Some r)] is the skipped result to record, [Some None] lets
      the test run. *)
Definition dependencyGate (e : Executor.t) (apiTest : APITest.t)
      : option (option TestResult.t) :=
    let dependsOn := APITest.DependsOn apiTest in
    if String.eqb dependsOn "" then Some None
    else match getResult e dependsOn with
         | None =>
           Some (Some (skippedResult apiTest
                   ("依赖接口 '" +:+ dependsOn +:+ "' 未找到或未执行")))
         | Some depResult =>
           if negb (TestResult.Passed depResult) || TestResult.Skipped depResult
           then match findRootCause e dependsOn with
                | Some rootCause =>
                  Some (Some (skippedResult apiTest
                                (skipReasonFor dependsOn depResult rootCause)))
                | None => None
                end
           else Some None
         end.

  (** The body of the loop of [Execute] after the dependency check, and
      the body as a whole: the report and the executor after the test
      [apiTest]. *)
Definition runTest (e : Executor.t) (report : TestReport.t)
      (apiTest : APITest.t) : Exec (TestReport.t * Executor.t) :=
    do processedTest <- liftWorld (replaceVariables e apiTest);
    do result <- executeAPITest processedTest;
    ret (if TestResult.Passed result
         then TestReport.record result 1 0 0 report
         else TestReport.record result 0 1 0 report,
         storeResult e result).

Definition executeOne (e : Executor.t) (report : TestReport.t)
      (apiTest : APITest.t) : Exec (option (TestReport.t * Executor.t)) :=
    match dependencyGate e apiTest with
    | None => ret None
    | Some (Some result) =>
      ret (Some (TestReport.record result 0 0 1 report, storeResult e result))
    | Some None => do r <- runTest e report apiTest; ret (Some r)
    end.

  (** The loop [for _, apiTest := range executionOrder]. *)
Fixpoint executeLoop (order : list APITest.t) (e : Executor.t)
      (report : TestReport.t) : Exec (option (TestReport.t * Executor.t)) :=
    match order with
    | [] => ret (Some (report, e))
    | apiTest :: rest =>
      do r <- executeOne e report apiTest;
      match r with
      | None => ret None
      | Some (report', e') => executeLoop rest e' report'
      end
    end.

Definition newReport (e : Executor.t) : TestReport.t :=
    TestReport.mk 0 0 0 0 []
      (TestConfig.Version (Executor.config e))
      (TestConfig.BaseURL (Executor.config e)) "".

  (** The order [Execute] runs the tests in. *)
Definition executionOrder (e : Executor.t) : option (list APITest.t) :=
    resolveExecutionOrder (sortAPIsByWeight (TestConfig.APIs (Executor.config e))).

  (** [Execute]: the report and the executor as it is left. *)
Definition Execute (e : Executor.t) : Exec (option (TestReport.t * Executor.t)) :=
    match executionOrder e with
    | None => ret None
    | Some order => executeLoop order e (newReport e)
    end.

  (** [ExecuteByName] *)
Fixpoint executeByNameIn (apis : list APITest.t) (name : string)
      : Exec (option TestResult.t) :=
    match apis with
    | [] => ret None
    | apiTest :: rest =>
      if String.eqb (APITest.Name apiTest) name
      then do result <- executeAPITest apiTest; ret (Some result)
      else executeByNameIn rest name
    end.

Definition ExecuteByName (e : Executor.t) (name : string)
      : Exec (option TestResult.t) :=
    executeByNameIn (TestConfig.APIs (Executor.config e)) name.

  (** *** [ExecuteConcurrent] *)

  (** A goroutine of [ExecuteConcurrent]: created and waiting for the
      semaphore; inside [executeAPITest], about to start an iteration of
      the attempt loop; back from it and waiting for the mutex; done. *)
Inductive Goroutine :=
  | Waiting
  | Attempting (remaining : nat) (attempt : Z) (result : TestResult.t)
               (lastErr : option string)
  | Returned (result : TestResult.t)
  | Done.

  (** The state of a concurrent run: one goroutine per configured test,
      in the order of the configuration, the report they share, the
      executor, and the world. *)
Record Concurrent := mkConcurrent {
    goroutines : list (APITest.t * Goroutine);
    creport : TestReport.t;
    cexecutor : Executor.t;
    cenv : Env }.

Definition holdsSemaphore (g : APITest.t * Goroutine) : bool :=
    match snd g with
    | Attempting _ _ _ _ | Returned _ => true
    | _ => false
    end.

  (** The state [ExecuteConcurrent(maxConcurrency)] starts the
      goroutines in; making a channel of negative capacity panics. *)
Definition concurrentStart (e : Executor.t) (maxConcurrency : Z) (env : Env)
      : option Concurrent :=
    if Z.ltb maxConcurrency 0 then None
    else Some (mkConcurrent
                 (map (λ apiTest, (apiTest, Waiting))
                      (TestConfig.APIs (Executor.config e)))
                 (newReport e) e env).

Definition setGoroutine (i : nat) (apiTest : APITest.t) (g : Goroutine)
      (c : Concurrent) : Concurrent :=
    mkConcurrent (<[i := (apiTest, g)]> (goroutines c))
                 (creport c) (cexecutor c) (cenv c).

  (** The next step of the goroutine [i], when it can take one: it
      acquires the semaphore if fewer than [maxConcurrency] goroutines
      hold it and enters [executeAPITest]; it goes through an iteration
      of the attempt loop, or leaves the loop when none is left; or it
      locks the mutex, appends its result to the report and counts it. *)
Definition concurrentStepOf (maxConcurrency : Z) (i : nat) (c : Concurrent)
      : option Concurrent :=
    match goroutines c !! i with
    | Some (apiTest, Waiting) =>
      if Z.ltb (Z.of_nat (length (filter (λ g, holdsSemaphore g = true)
                                         (goroutines c))))
               maxConcurrency
      then Some (setGoroutine i apiTest
                   (Attempting (Z.to_nat (attemptLimit apiTest)) 0
                               (newResult apiTest) None) c)
      else None
    | Some (apiTest, Attempting O attempt result lastErr) =>
      Some (setGoroutine i apiTest (Returned (exhausted result lastErr)) c)
    | Some (apiTest, Attempting (S remaining) attempt result lastErr) =>
      let '(returned, result', lastErr', env') :=
        attemptBody apiTest attempt result lastErr (cenv c) in
      Some (mkConcurrent
              (<[i := (apiTest,
                       if returned : bool then Returned result'
                       else Attempting remaining (attempt + 1) result' lastErr')]>
                 (goroutines c))
              (creport c) (cexecutor c) env')
    | Some (apiTest, Returned result) =>
      Some (mkConcurrent
              (<[i := (apiTest, Done)]> (goroutines c))
              (if TestResult.Passed result
               then TestReport.record result 1 0 0 (creport c)
               else TestReport.record result 0 1 0 (creport c))
              (cexecutor c) (cenv c))
    | Some (_, Done) | None => None
    end.

  (** One step of one goroutine; the scheduler picks which. *)
Definition concurrentStep (maxConcurrency : Z) (c c' : Concurrent) : Prop :=
    ∃ i, concurrentStepOf maxConcurrency i c = Some c'.

  (** The run in which the scheduler picks the goroutines of
      [schedule], one step each in turn. *)
Fixpoint concurrentRun (maxConcurrency : Z) (schedule : list nat)
      (c : Concurrent) : option Concurrent :=
    match schedule with
    | [] => Some c
    | i :: rest =>
      match concurrentStepOf maxConcurrency i c with
      | Some c' => concurrentRun maxConcurrency rest c'
      | None => None
      end
    end.

  (** [wg.Wait()] returns when every goroutine is done. *)
Definition allDone (c : Concurrent) : Prop :=
    Forall (λ g, snd g = Done) (goroutines c).

  (** [ExecuteConcurrent(maxConcurrency)] can return the report of [c],
      leaving the executor and the world as they are in [c]. *)
Definition ExecuteConcurrent (e : Executor.t) (maxConcurrency : Z) (env : Env)
      (c : Concurrent) : Prop :=
    ∃ c0, concurrentStart e maxConcurrency env = Some c0
          ∧ rtc (concurrentStep maxConcurrency) c0 c ∧ allDone c.

End Engine.

(** ** A scripted world *)

(** A world to run the engine in: the HTTP client answers from a script,
    one entry per call, and reports a transport error once the script is
    used up; the validator checks the status code, as
    [Validator.Validate] does when the expectation has nothing else; the
    entropy source counts up. *)
Module Scripted.

Record world := mkWorld {
    script : list (Response.t + string);
    entropy : Z }.

Definition do_ (req : RequestConfig.t) (w : world)
      : (Response.t + string) * world :=
    match script w with
    | o :: rest => (o, mkWorld rest (entropy w))
    | [] => (inr "failed to send request: EOF", w)
    end.

Definition validate (expectation : ResponseExpectation.t) (resp : Response.t)
      : ValidationResult.t :=
    if Z.eqb (ResponseExpectation.StatusCode expectation) 0
       || Z.eqb (Response.StatusCode resp)
                (ResponseExpectation.StatusCode expectation)
    then ValidationResult.mk true [] []
    else ValidationResult.mk false
           [ValidationError.mk "StatusCode"
              (VInt (ResponseExpectation.StatusCode expectation))
              (VInt (Response.StatusCode resp)) "unexpected status code"] [].

#[global] Instance runtime : Runtime := {|
    World := world;
    httpDo := do_;
    Validate := validate;
    randReader := λ w, (entropy w, mkWorld (script w) (entropy w + 1));
    timeNow := λ w, (0%Z, w);
    timeFormat := λ layout t, layout;
    formatFloat64 := λ f, "float64";
    formatFloat32 := λ f, "float32";
    ParseFloat := λ s, None;
    indefinite := λ f, minInt64 |}.

Definition start (script : list (Response.t + string)) : Env :=
    mkEnv runtime (mkWorld script 0) [].

  (** A JSON response with the status code [code]. *)
Definition json (code : Z) (body : gmap string Value) : Response.t + string :=
    inl (Response.mk code ∅ "" body).

End Scripted.

(** ** Configurations for the examples *)

(** A test with nothing but a name, a dependency, a weight, and the
    path and the body of its request; it expects the status 200. *)
Definition simpleTest (name dependsOn : string) (weight : Z) (path : string)
    (body : Value) : APITest.t :=
  APITest.mk name "" "" [] weight dependsOn
    (RequestConfig.mk "GET" path ∅ ∅ body ∅)
    (ResponseExpectation.mk 200 ∅ ∅ [] [] "" [])
    (RetryPolicy.mk 0 0).

(** The test [t] with [max_retries] set. *)
Definition withRetries (maxRetries : Z) (t : APITest.t) : APITest.t :=
  APITest.mk (APITest.Name t) (APITest.Description t) (APITest.Version t)
    (APITest.Versions t) (APITest.Weight t) (APITest.DependsOn t)
    (APITest.Request t) (APITest.Response t) (RetryPolicy.mk maxRetries 0).

(** A new executor for the tests [apis]. *)
Definition executorOf (apis : list APITest.t) : Executor.t :=
  NewExecutor (TestConfig.mk "http://localhost" "v1"
                 (CertConfig.mk "" "" "") 0 ∅ apis).

(** ** The vocabulary of the properties *)

(** [a] declares a dependency, and [b] is a configured test of the name
    it gives. *)
Definition dependsOn (apis : list APITest.t) (a b : APITest.t) : Prop :=
  a ∈ apis ∧ b ∈ apis
  ∧ APITest.DependsOn a ≠ "" ∧ APITest.DependsOn a = APITest.Name b.

(** The [depends_on] edges form no cycle. *)
Definition acyclic (apis : list APITest.t) : Prop :=
  ∀ a, ¬ tc (dependsOn apis) a a.

(** The name of a test is a key: no two tests share it. *)
Definition distinctNames (apis : list APITest.t) : Prop :=
  NoDup (map APITest.Name apis).

(** The edge [visit] follows from the index [i]: to the index that
    [nameToIndex] gives for the dependency declared there. *)
Definition depIndex (apis : list APITest.t) (nameToIndex : gmap string nat)
    (i : nat) : option nat :=
  match apis !! i with
  | Some api =>
    if decide (APITest.DependsOn api ≠ "")
    then nameToIndex !! APITest.DependsOn api
    else None
  | None => None
  end.

(** What holds of the state of the walk between two calls of [visit]
    from the loop, and between the calls inside: [order] lists the
    indices visited, in the order they were appended. *)
Record walkInv (apis : list APITest.t) (nameToIndex : gmap string nat)
    (st : VisitState) (order : list nat) : Prop := mkWalkInv {
  walk_nodup : NoDup order;
  walk_visited : ∀ i, i ∈ visited st ↔ i ∈ order;
  walk_range : ∀ i, i ∈ order → i < length apis;
  walk_result : result st = omap (λ i, apis !! i) order;
  walk_deps : ∀ i d q, order !! q = Some i → depIndex apis nameToIndex i = Some d →
                ∃ p, order !! p = Some d ∧ p < q }.

(** [order] is [apis] sorted by weight, heavier first, and stably: tests
    of one weight are in the order they have in [apis]. *)
Definition stableSortByWeight (apis order : list APITest.t) : Prop :=
  order ≡ₚ apis
  ∧ (∀ i j a b, order !! i = Some a → order !! j = Some b → i < j →
       (APITest.Weight b ≤ APITest.Weight a)%Z)
  ∧ (∀ w, filter (λ a, APITest.Weight a = w) order
          = filter (λ a, APITest.Weight a = w) apis).

(** Two tests for the examples: [use] depends on [create]. *)
Definition exampleCreate : APITest.t :=
  simpleTest "create" "" 0 "/items" VNil.
Definition exampleUse : APITest.t :=
  simpleTest "use" "create" 0 "/items/{{create.response.data.id}}" VNil.

(** Three tests without dependencies, the heaviest declared last. *)
Definition exampleWeights : list APITest.t :=
  [simpleTest "a" "" 1 "/a" VNil; simpleTest "b" "" 1 "/b" VNil;
   simpleTest "c" "" 5 "/c" VNil].

(** The trace of a root cause in the words of the specification: from
    [name], with the names in [seen] passed already, the trace ends at
    [cause].  The first four rules are the four the specification
    gives; the last two are the cases it leaves out, a skipped test for
    which the configuration declares no dependency and a test that
    passed, where the trace ends as well. *)
Inductive rootCauseTrace (e : Executor.t) : gset string → string → string → Prop :=
| trace_no_result seen name :
    name ∉ seen → getResult e name = None →
    rootCauseTrace e seen name name
| trace_failed seen name r :
    name ∉ seen → getResult e name = Some r →
    TestResult.Passed r = false → TestResult.Skipped r = false →
    rootCauseTrace e seen name name
| trace_skipped seen name r cause :
    name ∉ seen → getResult e name = Some r →
    TestResult.Skipped r = true → findDependsOn e name ≠ "" →
    rootCauseTrace e ({[name]} ∪ seen) (findDependsOn e name) cause →
    rootCauseTrace e seen name cause
| trace_revisited seen name :
    name ∈ seen → rootCauseTrace e seen name name
| trace_no_dependency seen name r :
    name ∉ seen → getResult e name = Some r →
    TestResult.Skipped r = true → findDependsOn e name = "" →
    rootCauseTrace e seen name name
| trace_passed seen name r :
    name ∉ seen → getResult e name = Some r →
    TestResult.Passed r = true → TestResult.Skipped r = false →
    rootCauseTrace e seen name name.

(** The chain of the specification: [A] failed, [B] was skipped for it,
    [C] was skipped for [B]. *)
Definition exampleChain : Executor.t :=
  let A := simpleTest "A" "" 0 "/a" VNil in
  let B := simpleTest "B" "A" 0 "/b" VNil in
  let C := simpleTest "C" "B" 0 "/c" VNil in
  let e := executorOf [A; B; C] in
  let failed := TestResult.mk "A" "" "" false false "" 500
                  (APITest.Request A) None None None 0 in
  let skipped t reason := TestResult.mk (APITest.Name t) "" "" false true reason 0
                            (APITest.Request t) None None None 0 in
  storeResult (storeResult (storeResult e failed)
                 (skipped B "依赖接口 'A' 执行失败"))
              (skipped C "依赖接口 'B' 被跳过").

(** A cycle of three tests. *)
Definition exampleCycle : list APITest.t :=
  [simpleTest "A" "B" 0 "/a" VNil; simpleTest "B" "C" 0 "/b" VNil;
   simpleTest "C" "A" 0 "/c" VNil].

(** What no iteration of the attempt loop changes in a result. *)
Definition sameTest (r r' : TestResult.t) : Prop :=
  TestResult.Name r' = TestResult.Name r
  ∧ TestResult.Description r' = TestResult.Description r
  ∧ TestResult.Version r' = TestResult.Version r
  ∧ TestResult.Skipped r' = TestResult.Skipped r
  ∧ TestResult.SkipReason r' = TestResult.SkipReason r
  ∧ TestResult.Request r' = TestResult.Request r.

(** The number 1.5 as a [float64]: [3 * 2^51 * 2^-52]. *)
Definition oneAndHalf : spec_float := S754_finite false 6755399441055744 (-52).

(** The byte [c] occurs in [s]. *)
Fixpoint occurs (c : ascii) (s : string) : bool :=
  match s with
  | EmptyString => false
  | String c' r => Ascii.eqb c' c || occurs c r
  end.

(** [s] is one whole placeholder, with the content [g]: two opening
    braces, the content, which is not empty and has no closing brace,
    and two closing braces. *)
Definition isPlaceholder (s g : string) : Prop :=
  s = varPattern.whole g ∧ g ≠ "" ∧ occurs "}" g = false.

(** The text the segments of a scan stand for. *)
Fixpoint segmentsText (segs : list varPattern.Segment) : string :=
  match segs with
  | [] => ""
  | varPattern.Lit c :: rest => String c (segmentsText rest)
  | varPattern.Match g :: rest => varPattern.whole g +:+ segmentsText rest
  end.

(** The expression [varPath] of a placeholder refers to a test and
    [extractValue] finds no value for it: the test it names has no
    stored result; the payload it chooses is absent, the result being
    without a response or the request without a body; or its field path,
    which is not empty, leads to nothing in the payload. *)
Inductive unresolvedReference (e : Executor.t) (varPath : string) : Prop :=
| unresolved_no_result testName fieldPath :
    strings.HasPrefix (strings.TrimSpace varPath) "$random" = false →
    referenceOf (strings.TrimSpace varPath) = (testName, fieldPath) →
    getResult e testName = None →
    unresolvedReference e varPath
| unresolved_no_payload testName fieldPath depResult :
    strings.HasPrefix (strings.TrimSpace varPath) "$random" = false →
    referenceOf (strings.TrimSpace varPath) = (testName, fieldPath) →
    getResult e testName = Some depResult →
    (sourceOf depResult fieldPath = None
     ∨ ∃ path, sourceOf depResult fieldPath = Some (path, VNil)) →
    unresolvedReference e varPath
| unresolved_no_field testName fieldPath depResult path sourceData :
    strings.HasPrefix (strings.TrimSpace varPath) "$random" = false →
    referenceOf (strings.TrimSpace varPath) = (testName, fieldPath) →
    getResult e testName = Some depResult →
    sourceOf depResult fieldPath = Some (path, sourceData) →
    path ≠ "" → extractFieldValue sourceData path = VNil →
    unresolvedReference e varPath.

(** The expression [varPath] names the whole response body of a test
    whose stored response has no JSON body: the payload is absent, and
    [BodyJSON] is the nil map, which is the empty map here. *)
Definition wholeBodyWithoutJSON (e : Executor.t) (varPath : string) : Prop :=
  ∃ testName fieldPath depResult resp,
    strings.HasPrefix (strings.TrimSpace varPath) "$random" = false
    ∧ referenceOf (strings.TrimSpace varPath) = (testName, fieldPath)
    ∧ getResult e testName = Some depResult
    ∧ TestResult.Response depResult = Some resp
    ∧ Response.BodyJSON resp = ∅
    ∧ (fieldPath = "" ∨ fieldPath = "response.").

(** A test whose body refers to a test that does not exist. *)
Definition exampleMissing : APITest.t :=
  simpleTest "t" "" 0 "/x" (VMap {["id" := VString "{{missing.response.x}}"]}).

(** The number 42 and the number [2^64] as [float64]s. *)
Definition fortyTwo : spec_float := S754_finite false 5910974510923776 (-47).
Definition twoTo64 : spec_float := S754_finite false 4503599627370496 12.

(** The number [2^63], the least whole number above the [int64]s. *)
Definition twoTo63 : spec_float := S754_finite false 4503599627370496 11.

(** The scripted world on a platform whose conversion of a [float64]
    that no [int64] holds saturates, as the instruction of arm64 does:
    the greatest and the least [int64], and 0 for a NaN. *)
Module Saturating.

Definition saturate (f : spec_float) : Z :=
    match f with
    | S754_nan => 0%Z
    | S754_infinity true | S754_finite true _ _ => minInt64
    | _ => maxInt64
    end.

Definition runtime : Runtime := {|
    World := Scripted.world;
    httpDo := Scripted.do_;
    Validate := Scripted.validate;
    randReader := @randReader Scripted.runtime;
    timeNow := @timeNow Scripted.runtime;
    timeFormat := @timeFormat Scripted.runtime;
    formatFloat64 := @formatFloat64 Scripted.runtime;
    formatFloat32 := @formatFloat32 Scripted.runtime;
    ParseFloat := @ParseFloat Scripted.runtime;
    indefinite := saturate |}.

End Saturating.

(** An executor in which the test [create] has passed, with the
    response [{"data": {"id": 42, "big": 18446744073709551616,
    "name": "x", "ok": true}}] as [encoding/json] decodes it. *)
Definition exampleStored : Executor.t :=
  storeResult (executorOf [exampleCreate; exampleUse])
    (TestResult.mk "create" "" "" true false "" 200
       (APITest.Request exampleCreate)
       (Some (Response.mk 200 ∅ ""
                {["data" := VMap (<["id" := VFloat64 fortyTwo]>
                                  (<["big" := VFloat64 twoTo64]>
                                   (<["ok" := VBool true]>
                                    {["name" := VString "x"]})))]}))
       None None 0).

(** An executor in which the test [create] has passed with a response
    that is not JSON: the text [created], and no [BodyJSON]. *)
Definition examplePlain : Executor.t :=
  storeResult (executorOf [exampleCreate; exampleUse])
    (TestResult.mk "create" "" "" true false "" 200
       (APITest.Request exampleCreate)
       (Some (Response.mk 200 ∅ "created" ∅))
       None None 0).

(** A test that refers to the boolean [ok] of that response in a header
    and in a query parameter, each time as one whole placeholder. *)
Definition exampleHeader : APITest.t :=
  APITest.mk "flag" "" "" [] 0 "create"
    (RequestConfig.mk "GET" "/flag"
       {["X-Ok" := "{{create.response.data.ok}}"]}
       {["ok" := VString "{{create.response.data.ok}}"]} VNil ∅)
    (ResponseExpectation.mk 200 ∅ ∅ [] [] "" [])
    (RetryPolicy.mk 0 0).

(** ** The vocabulary of the concurrent run *)

(** [r] is a result for the test [t] as it is declared: of its name,
    with its request as written in the configuration, and not skipped. *)
Definition rawResultOf (t : APITest.t) (r : TestResult.t) : Prop :=
  TestResult.Name r = APITest.Name t
  ∧ TestResult.Request r = APITest.Request t
  ∧ TestResult.Skipped r = false.

(** The name of the test of a goroutine that is done. *)
Definition doneName (g : APITest.t * Goroutine) : option string :=
  match snd g with
  | Done => Some (APITest.Name (fst g))
  | _ => None
  end.

(** What holds all through a concurrent run started from the executor
    [e] in [env]. *)
Record concurrentInv `{Runtime} (e : Executor.t) (env : Env) (c : Concurrent)
    : Prop := mkConcurrentInv {
  conc_executor : cexecutor c = e;
  conc_tests : map fst (goroutines c) = TestConfig.APIs (Executor.config e);
  conc_goroutines : ∀ j t g, goroutines c !! j = Some (t, g) →
    match g with
    | Attempting _ _ r _ | Returned r => rawResultOf t r
    | _ => True
    end;
  conc_results : ∀ r, r ∈ TestReport.Results (creport c) →
    ∃ t, t ∈ TestConfig.APIs (Executor.config e) ∧ rawResultOf t r;
  conc_done : map TestResult.Name (TestReport.Results (creport c))
              ≡ₚ omap doneName (goroutines c);
  conc_sent : ∃ calls, sent (cenv c) = sent env ++ calls
    ∧ ∀ call, call ∈ calls →
        ∃ t, t ∈ TestConfig.APIs (Executor.config e)
             ∧ call = (APITest.Name t, APITest.Request t);
  conc_counts :
    TestReport.TotalTests (creport c)
    = Z.of_nat (length (TestReport.Results (creport c)))
    ∧ (TestReport.PassedTests (creport c) + TestReport.FailedTests (creport c)
       = TestReport.TotalTests (creport c))%Z
    ∧ TestReport.SkippedTests (creport c) = 0%Z }.

(** A response that gives the created item the id 123. *)
Definition exampleCreated : Response.t + string :=
  Scripted.json 200 {["data" := VMap {["id" := VString "123"]}]}.

(** A concurrent run of [create] and [use] with two workers in the
    scripted world: both goroutines acquire the semaphore, [use] calls
    the client first, then [create], and they record their results in
    that order. *)
Definition exampleConcurrentRun : option Concurrent :=
  match concurrentStart (executorOf [exampleCreate; exampleUse]) 2
          (Scripted.start [exampleCreated; exampleCreated]) with
  | Some c0 => concurrentRun 2 [0; 1; 1; 0; 1; 0] c0
  | None => None
  end.

(** * The rest of the engine, and the code around it

    The functions of [pkg/executor] that the orchestrators do not reach,
    and the parts of [pkg/client], [pkg/config] and the report generator
    that produce or consume what the engine handles. *)

(** ** pkg/executor: test names and the dependency check *)

(** [GetTestNames] *)
Definition GetTestNames (e : Executor.t) : list string :=
  map APITest.Name (TestConfig.APIs (Executor.config e)).

(** The condition under which the loop of [Execute] lets a test with a
    dependency run: the dependency has a stored result, and it is
    neither [!depResult.Passed] nor [depResult.Skipped]. *)
Definition dependencyPassed (depResult : option TestResult.t) : bool :=
  match depResult with
  | Some r => TestResult.Passed r && negb (TestResult.Skipped r)
  | None => false
  end.

(** The reason recorded for a test whose dependency has no result. *)
Definition notExecutedReason (dependsOn : string) : string :=
  "依赖接口 '" +:+ dependsOn +:+ "' 未找到或未执行".

(** ** pkg/executor: what a result of [executeAPITest] looks like *)

(** The response, the status code, the validation and the verdict of a
    result agree: the status code is that of the response, or 0 without
    one; the validation is that of the response against the expectation
    of the test; the test is passed when that validation is. *)
Definition resultCoherent `{Runtime} (apiTest : APITest.t) (r : TestResult.t)
    : Prop :=
  TestResult.Validation r
  = Validate (APITest.Response apiTest) <$> TestResult.Response r
  ∧ TestResult.StatusCode r
    = default 0%Z (Response.StatusCode <$> TestResult.Response r)
  ∧ TestResult.Passed r
    = default false (ValidationResult.Passed <$> TestResult.Validation r).

(** ** pkg/client: the check of the request body against [body_schema] *)

(** A Go [error]: a message, or a message that wraps the text of an
    error of the standard library, which is left out. *)
Inductive error :=
| Errorf (message : string)
| Wrapped (message : string).

(** [json.Marshal] fails on a value that holds a NaN or an infinity. *)
Fixpoint jsonUnsupported (v : Value) : bool :=
  match v with
  | VFloat32 f | VFloat64 f =>
    match f with
    | S754_nan | S754_infinity _ => true
    | _ => false
    end
  | VSlice l => existsb jsonUnsupported l
  | VMap m => map_fold (λ _ x acc, jsonUnsupported x || acc) false m
  | _ => false
  end.

Module client.

  (** [getValueType]: the kind of the dynamic type. *)
Definition getValueType (value : Value) : string :=
    match value with
    | VNil => "nil"
    | VInt _ | VInt64 _ => "int"
    | VFloat32 _ | VFloat64 _ => "float64"
    | VString _ => "string"
    | VBool _ => "bool"
    | VSlice _ => "slice"
    | VMap _ => "map"
    end.

  (** [getNestedValue], from the split path on: [None] is
      [(nil, false)]. *)
Fixpoint getNestedParts (current : Value) (parts : list string) : option Value :=
    match parts with
    | [] => Some current
    | part :: rest =>
      match current with
      | VMap currentMap =>
        match currentMap !! part with
        | Some value => getNestedParts value rest
        | None => None
        end
      | _ => None
      end
    end.

Definition getNestedValue (data : gmap string Value) (path : string)
      : option Value :=
    getNestedParts (VMap data) (strings.Split path ".").

Section WithRuntime.
Context `{Runtime}.

    (** [validateFieldType]: [None] is the nil error. *)
Definition validateFieldType (field : string) (value : Value)
        (expectedType : string) : option error :=
      if isNil value then
        Some (Errorf ("field '" +:+ field +:+ "' is nil, expected type '"
                      +:+ expectedType +:+ "'"))
      else
        let actualType := getValueType value in
        let mismatch (expected : string) :=
          Some (Errorf ("field '" +:+ field +:+ "' has type '" +:+ actualType
                        +:+ "', expected '" +:+ expected +:+ "'")) in
        if String.eqb expectedType "int" then
          if String.eqb actualType "float64"
             && match value with
                | VFloat64 floatVal => float64.isWhole indefinite floatVal
                | _ => false
                end
          then None
          else if negb (String.eqb actualType "int")
                  && negb (String.eqb actualType "int64")
                  && negb (String.eqb actualType "int32")
          then mismatch "int" else None
        else if String.eqb expectedType "float" || String.eqb expectedType "float64" then
          if negb (String.eqb actualType "float64")
             && negb (String.eqb actualType "float32")
          then mismatch "float" else None
        else if String.eqb expectedType "string" then
          if negb (String.eqb actualType "string") then mismatch "string" else None
        else if String.eqb expectedType "bool" || String.eqb expectedType "boolean" then
          if negb (String.eqb actualType "bool") then mismatch "bool" else None
        else if String.eqb expectedType "array" || String.eqb expectedType "slice" then
          if negb (String.eqb actualType "slice") then mismatch "array/slice" else None
        else if String.eqb expectedType "object" || String.eqb expectedType "map" then
          if negb (String.eqb actualType "map") then mismatch "object/map" else None
        else
          Some (Errorf ("unsupported type '" +:+ expectedType +:+ "' for field '"
                        +:+ field +:+ "'")).

    (** The check of one entry of the schema in [validateBodySchema]. *)
Definition validateField (bodyMap : gmap string Value) (field : string)
        (expectedType : string) : option error :=
      match getNestedValue bodyMap field with
      | None => Some (Errorf ("field '" +:+ field +:+ "' not found in request body"))
      | Some value => validateFieldType field value expectedType
      end.

    (** The loop of [validateBodySchema] over the schema.  Go ranges
        over a map in no fixed order and returns at the first error; the
        fold goes through the entries in the order of the map's
        representation and keeps the first error it meets. *)
Definition validateFields (bodyMap : gmap string Value)
        (schema : gmap string string) : option error :=
      map_fold (λ field expectedType acc,
                  match acc with
                  | Some err => Some err
                  | None => validateField bodyMap field expectedType
                  end) None schema.

    (** [validateBodySchema].  A body that is not a map goes through
        [json.Marshal] and [json.Unmarshal] into a map: nil is encoded
        as [null] and gives the nil map; of the other values those with
        a number JSON has no text for fail in the first, the rest in the
        second. *)
Definition validateBodySchema (body : Value) (schema : gmap string string)
        : option error :=
      match body with
      | VMap bodyMap => validateFields bodyMap schema
      | VNil => validateFields ∅ schema
      | _ =>
        if jsonUnsupported body
        then Some (Wrapped "failed to marshal body for validation")
        else Some (Wrapped "failed to unmarshal body for validation")
      end.

End WithRuntime.
End client.

(** ** pkg/executor: the semaphore of [ExecuteConcurrent] *)

(** The number of goroutines that hold a slot of the semaphore: those
    that have sent to the channel and not yet run their deferred
    receive. *)
Definition inFlight `{Runtime} (c : Concurrent) : nat :=
  length (filter (λ g, holdsSemaphore g = true) (goroutines c)).

(** ** pkg/executor: the shape of the random values *)

Definition isDigit (c : ascii) : bool :=
  Nat.leb 48 (byteCode c) && Nat.leb (byteCode c) 57.

Definition isAlnum (c : ascii) : bool :=
  isDigit c
  || (Nat.leb 65 (byteCode c) && Nat.leb (byteCode c) 90)
  || (Nat.leb 97 (byteCode c) && Nat.leb (byteCode c) 122).

(** A digit of lower-case hexadecimal. *)
Definition isHex (c : ascii) : bool :=
  isDigit c || (Nat.leb 97 (byteCode c) && Nat.leb (byteCode c) 102).

(** The textual form of a UUID of version 4 and of the variant of RFC
    4122: 36 characters, hyphens at the positions 8, 13, 18 and 23, the
    digit 4 at position 14, one of 8, 9, a, b at position 19, and
    lower-case hexadecimal digits elsewhere. *)
Definition isUUIDv4 (s : string) : bool :=
  Nat.eqb (String.length s) 36
  && forallb (λ '(i, c),
       if Nat.eqb i 8 || Nat.eqb i 13 || Nat.eqb i 18 || Nat.eqb i 23
       then Ascii.eqb c "-"
       else if Nat.eqb i 14 then Ascii.eqb c "4"
       else if Nat.eqb i 19
       then Ascii.eqb c "8" || Ascii.eqb c "9" || Ascii.eqb c "a" || Ascii.eqb c "b"
       else isHex c)
     (combine (seq 0 36) (list_ascii_of_string s)).

(** ** Values without placeholders *)

(** The number of constructors of a value. *)
Fixpoint Value_size (v : Value) : nat :=
  match v with
  | VSlice l => S (foldr (λ x acc, Value_size x + acc) 0 l)
  | VMap m => S (map_fold (λ _ x acc, Value_size x + acc) 0 m)
  | _ => 1
  end.

(** No string inside the value has an opening brace, so that none has a
    placeholder.  The keys of maps do not count: templating leaves them
    alone. *)
Fixpoint braceFree (v : Value) : bool :=
  match v with
  | VString s => negb (occurs "{" s)
  | VSlice l => forallb braceFree l
  | VMap m => map_fold (λ _ x acc, braceFree x && acc) true m
  | _ => true
  end.

(** ** Field paths of plain names *)

(** An ASCII character that [parseFieldPath] gives no meaning to. *)
Definition plainChar (c : ascii) : bool :=
  Nat.ltb (byteCode c) 128
  && negb (Ascii.eqb c ".") && negb (Ascii.eqb c "[") && negb (Ascii.eqb c "]").

(** A field name made of such characters, at least one. *)
Definition plainName (n : string) : bool :=
  negb (String.eqb n "") && forallb plainChar (list_ascii_of_string n).

(** ** pkg/validator: the field of a response that an expectation names *)

Module validator.

  (** The loop of [getJSONField]: a key that is missing reads as nil,
      and nothing is read in what is no map. *)
Fixpoint getJSONParts (current : Value) (path : list string) : Value :=
    match path with
    | [] => current
    | part :: rest =>
      match current with
      | VMap v => getJSONParts (default VNil (v !! part)) rest
      | _ => VNil
      end
    end.

  (** [getJSONField].  The nil map is the empty one. *)
Definition getJSONField (data : gmap string Value) (path : string) : Value :=
    getJSONParts (VMap data) (strings.Split path ".").

End validator.

(** ** pkg/config: the loader *)

Module Loader.

  (** [isVersionMatch] *)
Definition isVersionMatch (api : APITest.t) (targetVersion : string) : bool :=
    if String.eqb (APITest.Version api) ""
       && Nat.eqb (length (APITest.Versions api)) 0
    then true
    else if negb (String.eqb (APITest.Version api) "")
            && String.eqb (APITest.Version api) targetVersion
    then true
    else existsb (λ v, String.eqb v targetVersion) (APITest.Versions api).

  (** [LoadWithVersion], from what [Load] returns: the configuration read
      from the file, or the error of reading or parsing it. *)
Definition LoadWithVersion (loaded : TestConfig.t + error) (version : string)
      : TestConfig.t + error :=
    match loaded with
    | inr err => inr err
    | inl config =>
      let targetVersion :=
        if negb (String.eqb version "") then version
        else TestConfig.Version config in
      let filteredAPIs :=
        List.filter (λ api, isVersionMatch api targetVersion)
                    (TestConfig.APIs config) in
      inl (TestConfig.mk (TestConfig.BaseURL config) targetVersion
             (TestConfig.Certificate config) (TestConfig.Timeout config)
             (TestConfig.Headers config) filteredAPIs)
    end.

End Loader.

(** [MergeConfig]: an argument that is not empty replaces the setting. *)
Definition MergeConfig (base : TestConfig.t)
    (baseURL certFile keyFile caFile version : string) : TestConfig.t :=
  let override (arg setting : string) :=
    if negb (String.eqb arg "") then arg else setting in
  let certificate := TestConfig.Certificate base in
  TestConfig.mk (override baseURL (TestConfig.BaseURL base))
    (override version (TestConfig.Version base))
    (CertConfig.mk (override certFile (CertConfig.CertFile certificate))
                   (override keyFile (CertConfig.KeyFile certificate))
                   (override caFile (CertConfig.CAFile certificate)))
    (TestConfig.Timeout base) (TestConfig.Headers base) (TestConfig.APIs base).

(** What [run] of [main.go] hands to [NewExecutor]: the configuration
    loaded for the version of the command line, merged with the
    settings of the command line.  The error of the loader ends [run],
    which returns it with a prefix. *)
Definition runConfig (loaded : TestConfig.t + error)
    (baseURL certFile keyFile caFile version : string) : TestConfig.t + error :=
  match Loader.LoadWithVersion loaded version with
  | inl cfg => inl (MergeConfig cfg baseURL certFile keyFile caFile version)
  | inr err => inr err
  end.

(** A test that names no version: it applies to all. *)
Definition unversioned (api : APITest.t) : Prop :=
  APITest.Version api = "" ∧ APITest.Versions api = [].

(** ** pkg/client: the URL of a request *)

Module HTTPClient.
Section BuildURL.
    (** The query string is added by [net/url]: [url.Parse], [Query],
        [Add], [Encode] and [String], on the URL and the query. *)
Variable withQuery : string → gmap string Value → string + error.

    (** [buildURL] *)
Definition buildURL (baseURL path : string) (query : gmap string Value)
        : string + error :=
      let baseURL := strings.TrimRight baseURL "/" in
      let path := strings.TrimLeft path "/" in
      let fullURL := baseURL +:+ "/" +:+ path in
      if Nat.eqb (size query) 0 then inl fullURL
      else withQuery fullURL query.
End BuildURL.
End HTTPClient.

(** ** The report generator *)

Module Reporter.

  (** [strings.ReplaceAll(s, old, new)] for a pattern of one ASCII byte:
      no two occurrences overlap, and none lies inside the encoding of
      another character. *)
Fixpoint ReplaceAll (s : string) (old : ascii) (new : string) : string :=
    match s with
    | String c r =>
      if Ascii.eqb c old then new +:+ ReplaceAll r old new
      else String c (ReplaceAll r old new)
    | EmptyString => EmptyString
    end.

  (** The character of code 34. *)
Definition doubleQuote : ascii := "034".

  (** [escapeHTML] *)
Definition escapeHTML (s : string) : string :=
    let s := ReplaceAll s "&" "&amp;" in
    let s := ReplaceAll s "<" "&lt;" in
    let s := ReplaceAll s ">" "&gt;" in
    let s := ReplaceAll s doubleQuote "&quot;" in
    let s := ReplaceAll s "'" "&#39;" in
    s.

  (** The text that stands for one byte in an HTML document. *)
Definition escapeByte (c : ascii) : string :=
    if Ascii.eqb c "&" then "&amp;"
    else if Ascii.eqb c "<" then "&lt;"
    else if Ascii.eqb c ">" then "&gt;"
    else if Ascii.eqb c doubleQuote then "&quot;"
    else if Ascii.eqb c "'" then "&#39;"
    else String c EmptyString.

End Reporter.

(** ** A configuration of two versions *)

(** The test [t] for the version [version] alone. *)
Definition forVersion (version : string) (t : APITest.t) : APITest.t :=
  APITest.mk (APITest.Name t) (APITest.Description t) version
    (APITest.Versions t) (APITest.Weight t) (APITest.DependsOn t)
    (APITest.Request t) (APITest.Response t) (APITest.RetryPolicy t).

(** The file sets the version v1; [create] is a test of v2, and [use],
    which depends on it, of every version. *)
Definition exampleVersions : TestConfig.t :=
  TestConfig.mk "http://localhost" "v1" (CertConfig.mk "" "" "") 0 ∅
    [forVersion "v2" exampleCreate; exampleUse].

(** ** Slashes at the joint of a URL *)

(** The string of [n] slashes. *)
Definition slashes (n : nat) : string :=
  string_of_list_ascii (repeat "/"%char n).

(** ** Schema coercion and the body check, with the maps in place

    A Go map is a reference.  [replaceInInterface] puts the map that a
    whole placeholder resolves to into the body as it is stored, so two
    fields of a body can hold one map, and a body can hold a map of a
    stored result; [setNestedValue] writes into the map it reaches.
    Here the maps live in a heap and a field holds the address of a
    map, so that a write is seen wherever the map is held. *)

Module InPlace.

Notation loc := nat (only parsing).

  (** What a map holds under a key: a map, by its address, or a value
      that is no map.  The maps inside a list are part of the value of
      the list: nothing here reaches into a list. *)
Inductive cell :=
  | Ref (l : loc)
  | Val (v : Value).

Notation object := (gmap string cell) (only parsing).
Notation heap := (gmap nat (gmap string cell)) (only parsing).

  (** What the map at [l] holds under [k]. *)
Definition cellAt (h : heap) (l : loc) (k : string) : option cell :=
    match h !! l with
    | Some o => o !! k
    | None => None
    end.

  (** Every map that a map holds exists. *)
Definition closed (h : heap) : Prop :=
    map_Forall (λ _ o,
      map_Forall (λ _ c,
        match c with
        | Ref l' => is_Some (h !! l')
        | Val _ => True
        end) o) h.

  (** The value of a cell, with the maps read out of the heap, down to
      the depth [fuel]. *)
Fixpoint read (fuel : nat) (h : heap) (c : cell) : Value :=
    match c with
    | Val v => v
    | Ref l =>
      match fuel with
      | O => VMap ∅
      | S fuel' =>
        VMap (match h !! l with
              | Some o => read fuel' h <$> o
              | None => ∅
              end)
      end
    end.

  (** The value of a cell: no chain of maps is longer than the heap has
      maps, unless a map holds itself. *)
Definition value (h : heap) (c : cell) : Value := read (S (size h)) h c.

  (** The map and the key that the names [parts] lead to from the map
      [current]: every name but the last is the key of a map. *)
Fixpoint slot (h : heap) (current : loc) (parts : list string)
      : option (loc * string) :=
    match parts with
    | [] => None
    | [lastField] => Some (current, lastField)
    | part :: rest =>
      match cellAt h current part with
      | Some (Ref nextMap) => slot h nextMap rest
      | _ => None
      end
    end.

  (** No two paths of the schema lead to the same key of the same map. *)
Definition unshared (h : heap) (data : loc) (schema : gmap string string) : Prop :=
    ∀ field field' s,
      is_Some (schema !! field) → is_Some (schema !! field') →
      slot h data (strings.Split field ".") = Some s →
      slot h data (strings.Split field' ".") = Some s →
      field = field'.

Section WithRuntime.
Context `{Runtime}.

    (** [convertToSchemaType] of what a cell holds: a map that comes
        back as it is is the same map. *)
Definition convertToSchemaType (h : heap) (c : cell) (expectedType : string)
        : cell :=
      match c with
      | Val v => Val (convertToSchemaType v expectedType)
      | Ref l =>
        match convertToSchemaType (value h c) expectedType with
        | VMap _ => c
        | v => Val v
        end
      end.

    (** [setNestedValue], from the split path on: [current] is the map
        in hand, and the write goes into it. *)
Fixpoint setNestedParts (h : heap) (current : loc) (parts : list string)
        (expectedType : string) : heap :=
      match parts with
      | [] => h
      | [lastField] =>
        match h !! current with
        | Some o =>
          match o !! lastField with
          | Some c =>
            <[current := <[lastField := convertToSchemaType h c expectedType]> o]> h
          | None => h
          end
        | None => h
        end
      | part :: rest =>
        match h !! current with
        | Some o =>
          match o !! part with
          | Some (Ref nextMap) => setNestedParts h nextMap rest expectedType
          | _ => h
          end
        | None => h
        end
      end.

Definition setNestedValue (h : heap) (data : loc) (fieldPath : string)
        (expectedType : string) : heap :=
      setNestedParts h data (strings.Split fieldPath ".") expectedType.

    (** [convertBodyToSchemaTypes]: [result] is a new map with the
        entries of the body, and the maps these hold are the maps the
        body holds.  The schema is ranged over in the order of the
        map's representation. *)
Definition convertBodyToSchemaTypes (h : heap) (body : cell)
        (schema : gmap string string) : cell * heap :=
      match body with
      | Ref l =>
        match h !! l with
        | Some bodyMap =>
          let result := fresh (dom h) in
          (Ref result,
           map_fold (λ fieldPath expectedType h',
                       setNestedValue h' result fieldPath expectedType)
                    (<[result := bodyMap]> h) schema)
        | None => (body, h)
        end
      | Val _ => (body, h)
      end.

    (** [getNestedValue] of the client, from the split path on. *)
Fixpoint getNestedParts (h : heap) (current : cell) (parts : list string)
        : option cell :=
      match parts with
      | [] => Some current
      | part :: rest =>
        match current with
        | Ref currentMap =>
          match cellAt h currentMap part with
          | Some c => getNestedParts h c rest
          | None => None
          end
        | Val _ => None
        end
      end.

Definition getNestedValue (h : heap) (data : loc) (path : string)
        : option cell :=
      getNestedParts h (Ref data) (strings.Split path ".").

    (** The check of one entry of the schema in [validateBodySchema]. *)
Definition validateField (h : heap) (bodyMap : loc) (field : string)
        (expectedType : string) : option error :=
      match getNestedValue h bodyMap field with
      | None => Some (Errorf ("field '" +:+ field +:+ "' not found in request body"))
      | Some c => client.validateFieldType field (value h c) expectedType
      end.

    (** The loop of [validateBodySchema], which keeps the first error. *)
Definition validateFields (h : heap) (bodyMap : loc)
        (schema : gmap string string) : option error :=
      map_fold (λ field expectedType acc,
                  match acc with
                  | Some err => Some err
                  | None => validateField h bodyMap field expectedType
                  end) None schema.

    (** [validateBodySchema] of the client, on the body as it is in the
        heap. *)
Definition validateBodySchema (h : heap) (body : cell)
        (schema : gmap string string) : option error :=
      match body with
      | Ref l => validateFields h l schema
      | Val v => client.validateBodySchema v schema
      end.

End WithRuntime.

  (** A body of two fields that hold two maps, each with the number 42
      under [x] as JSON decodes it. *)
Definition exampleSeparate : heap :=
    {[ 0 := {[ "a" := Ref 1; "b" := Ref 2 ]};
       1 := {[ "x" := Val (VFloat64 fortyTwo) ]};
       2 := {[ "x" := Val (VFloat64 fortyTwo) ]} ]}.

  (** A body of two fields that hold one map: the body that
      [{"a": "{{create.response.data}}", "b": "{{create.response.data}}"}]
      becomes, the map at 1 being the one of the stored response. *)
Definition exampleShared : heap :=
    {[ 0 := {[ "a" := Ref 1; "b" := Ref 1 ]};
       1 := {[ "x" := Val (VFloat64 fortyTwo) ]} ]}.

  (** A schema for these bodies. *)
Definition exampleSchema : gmap string string :=
    {[ "a.x" := "int"; "b.x" := "float" ]}.

End InPlace.

(** * Properties *)

(** ** The stable sort *)

Section SliceStableFacts.
Context {A : Type} (less : A → A → bool).

Lemma sink_Permutation (x : A) (racc : list A) : sink less x racc ≡ₚ x :: racc.
Proof.
    induction racc as [|y r IH]; simpl; [done|].
    destruct (less x y); [|done].
    rewrite IH. apply Permutation_swap.
Qed.

Lemma fold_sink_Permutation (l racc : list A) :
    fold_left (λ racc x, sink less x racc) l racc ≡ₚ l ++ racc.
Proof.
    revert racc. induction l as [|x l IH]; intros racc; simpl; [done|].
    rewrite IH, sink_Permutation. by rewrite Permutation_middle.
Qed.

Lemma SliceStable_Permutation (l : list A) : SliceStable less l ≡ₚ l.
Proof.
    unfold SliceStable. rewrite <- Permutation_rev, fold_sink_Permutation.
    by rewrite app_nil_r.
Qed.

  (** An element only moves past elements it is [less] than: what is
      not [less] than anything in a class of elements keeps its place
      among them. *)
Lemma sink_filter (P : A → Prop) `{!∀ a, Decision (P a)} (x : A) (racc : list A) :
    (∀ y, P y → P x → less x y = false) →
    filter P (sink less x racc) = filter P (x :: racc).
Proof.
    intros Hstay. induction racc as [|y r IH]; simpl; [done|].
    destruct (less x y) eqn:Hxy; [|done].
    rewrite !filter_cons, IH, !filter_cons.
    destruct (decide (P y)) as [Hy|]; [|done].
    destruct (decide (P x)) as [Hx|]; [|done].
    rewrite (Hstay y Hy Hx) in Hxy. done.
Qed.

Lemma fold_sink_filter (P : A → Prop) `{!∀ a, Decision (P a)} (l racc : list A) :
    (∀ x y, P y → P x → less x y = false) →
    filter P (fold_left (λ racc x, sink less x racc) l racc)
    = rev (filter P l) ++ filter P racc.
Proof.
    intros Hstay. revert racc.
    induction l as [|x l IH]; intros racc; simpl; [done|].
    rewrite IH, sink_filter by eauto.
    rewrite !filter_cons. destruct (decide (P x)); simpl; [|done].
    by rewrite <- app_assoc.
Qed.

Lemma filter_rev (P : A → Prop) `{!∀ a, Decision (P a)} (l : list A) :
    filter P (rev l) = rev (filter P l).
Proof.
    induction l as [|x l IH]; simpl; [done|].
    rewrite filter_app, IH, !filter_cons, filter_nil.
    destruct (decide (P x)); simpl; [done|]. by rewrite app_nil_r.
Qed.

Lemma SliceStable_filter (P : A → Prop) `{!∀ a, Decision (P a)} (l : list A) :
    (∀ x y, P y → P x → less x y = false) →
    filter P (SliceStable less l) = filter P l.
Proof.
    intros Hstay. unfold SliceStable.
    rewrite filter_rev, fold_sink_filter by done.
    rewrite filter_nil, app_nil_r. apply rev_involutive.
Qed.

  (** The reversed prefix stays sorted, for any order [le] that [less]
      is the strict converse of. *)
Context (le : A → A → Prop).
Hypothesis le_trans : ∀ a b c, le a b → le b c → le a c.
Hypothesis less_le : ∀ x y, less x y = true → le y x.
Hypothesis not_less_le : ∀ x y, less x y = false → le x y.

Lemma sink_sorted (x : A) (racc : list A) :
    StronglySorted le racc → StronglySorted le (sink less x racc).
Proof using le_trans less_le not_less_le.
    induction 1 as [|y r Hr IH Hy]; simpl.
    - repeat constructor.
    - destruct (less x y) eqn:Hxy.
      + constructor; [done|].
        rewrite sink_Permutation. constructor; [by apply less_le|done].
      + constructor; [by constructor|].
        constructor; [by apply not_less_le|].
        eapply Forall_impl; [exact Hy|]. intros z Hz.
        eapply le_trans; [by apply not_less_le|done].
Qed.

Lemma fold_sink_sorted (l racc : list A) :
    StronglySorted le racc →
    StronglySorted le (fold_left (λ racc x, sink less x racc) l racc).
Proof using le_trans less_le not_less_le.
    revert racc. induction l as [|x l IH]; intros racc Hs; simpl; [done|].
    apply IH. by apply sink_sorted.
Qed.

Lemma StronglySorted_rev (l : list A) :
    StronglySorted le l → StronglySorted (flip le) (rev l).
Proof.
    induction 1 as [|y r Hr IH Hy]; simpl; [constructor|].
    apply StronglySorted_app. split_and!; [|done|repeat constructor].
    intros a b Ha Hb. apply list_elem_of_In, in_rev, list_elem_of_In in Ha.
    apply list_elem_of_singleton in Hb as ->.
    rewrite Forall_forall in Hy. by apply Hy.
Qed.

Lemma SliceStable_sorted (l : list A) :
    StronglySorted (flip le) (SliceStable less l).
Proof using le_trans less_le not_less_le.
    apply StronglySorted_rev, fold_sink_sorted. constructor.
Qed.
End SliceStableFacts.

(** ** [nameToIndex] *)

Lemma buildNameToIndex_lookup apis k m name j :
  buildNameToIndex k apis m !! name = Some j →
  m !! name = Some j
  ∨ ∃ a, k ≤ j ∧ apis !! (j - k) = Some a ∧ APITest.Name a = name.
Proof.
  revert k m. induction apis as [|a0 rest IH]; intros k m Hl; simpl in *; [by left|].
  apply IH in Hl as [Hl|(a & Hk & Ha & Hn)].
  - destruct (decide (APITest.Name a0 = name)) as [<-|Hne].
    + rewrite lookup_insert_eq in Hl. inversion Hl; subst j.
      right. exists a0. by rewrite Nat.sub_diag.
    + rewrite lookup_insert_ne in Hl by done. by left.
  - right. exists a. split; [lia|]. split; [|done].
    replace (j - k) with (S (j - S k)) by lia. done.
Qed.

Lemma buildNameToIndex_range apis name j :
  buildNameToIndex 0 apis ∅ !! name = Some j →
  ∃ a, apis !! j = Some a ∧ APITest.Name a = name.
Proof.
  intros [Hl|(a & _ & Ha & Hn)]%buildNameToIndex_lookup; [done|].
  rewrite Nat.sub_0_r in Ha. eauto.
Qed.

Lemma buildNameToIndex_other apis k m name :
  name ∉ map APITest.Name apis →
  buildNameToIndex k apis m !! name = m !! name.
Proof.
  revert k m. induction apis as [|a0 rest IH]; intros k m Hn; simpl in *; [done|].
  apply not_elem_of_cons in Hn as [Hne Hn].
  rewrite IH by done. by rewrite lookup_insert_ne.
Qed.

Lemma buildNameToIndex_distinct apis k m i a :
  distinctNames apis → apis !! i = Some a →
  buildNameToIndex k apis m !! APITest.Name a = Some (k + i).
Proof.
  unfold distinctNames. revert k m i.
  induction apis as [|a0 rest IH]; intros k m i Hnd Ha; simpl in *; [done|].
  apply NoDup_cons in Hnd as [Hfresh Hnd].
  destruct i as [|i]; simpl in *.
  - inversion Ha; subst a0.
    rewrite buildNameToIndex_other by done.
    rewrite lookup_insert_eq. f_equal. lia.
  - rewrite (IH (S k) _ i) by done. f_equal. lia.
Qed.

(** ** The walk of [resolveExecutionOrder] *)

Section Walk.
Context (apis : list APITest.t).
Let nameToIndex := buildNameToIndex 0 apis ∅.
Let istep (i j : nat) : Prop := depIndex apis nameToIndex i = Some j.
Let Inv := walkInv apis nameToIndex.

Lemma depIndex_range i d : depIndex apis nameToIndex i = Some d → d < length apis.
Proof.
    unfold depIndex. destruct (apis !! i) as [a|]; [|done].
    case_decide; [|done]. intros (b & Hb & _)%buildNameToIndex_range.
    by eapply lookup_lt_Some.
Qed.

Lemma size_below (s : gset nat) n : (∀ v, v ∈ s → v < n) → size s ≤ n.
Proof.
    intros Hs. rewrite <- (size_set_seq (C:=gset nat) 0 n).
    apply subseteq_size. intros v Hv. apply elem_of_set_seq. split; [lia|].
    simpl. by apply Hs.
Qed.

Lemma omap_lookup_snoc (order : list nat) idx api :
    apis !! idx = Some api →
    omap (λ i, apis !! i) (order ++ [idx]) = omap (λ i, apis !! i) order ++ [api].
Proof. intros Ha. rewrite omap_app. simpl. by rewrite Ha. Qed.

  (** Appending [idx] once its dependency is in place. *)
Lemma walkInv_append st order idx api vis :
    Inv st order → idx ∉ order → apis !! idx = Some api →
    (∀ d, depIndex apis nameToIndex idx = Some d → d ∈ order) →
    Inv (mkVisit ({[idx]} ∪ visited st) vis (result st ++ [api])) (order ++ [idx]).
Proof.
    intros [Hnd Hvis Hrange Hres Hdeps] Hfresh Ha Hd. constructor; simpl.
    - apply NoDup_app. split_and!; [done| |apply NoDup_singleton].
      intros x Hx ->%list_elem_of_singleton. done.
    - intros i. rewrite elem_of_union, elem_of_singleton, elem_of_app,
        list_elem_of_singleton, Hvis. tauto.
    - intros i [Hi| ->%list_elem_of_singleton]%elem_of_app; [by apply Hrange|].
      by eapply lookup_lt_Some.
    - by rewrite (omap_lookup_snoc _ _ api), Hres.
    - intros i d q Hq Hi. destruct (decide (q < length order)) as [Hlt|Hge].
      + rewrite lookup_app_l in Hq by done.
        destruct (Hdeps i d q Hq Hi) as (p & Hp & Hpq).
        exists p. split; [|done]. rewrite lookup_app_l; [done|lia].
      + rewrite lookup_app_r in Hq by lia.
        apply list_lookup_singleton_Some in Hq as [Hq0 <-].
        apply Hd, list_elem_of_lookup in Hi as [p Hp].
        exists p. split; [by apply lookup_app_l_Some|].
        apply lookup_lt_Some in Hp. lia.
Qed.

  (** [visit] returns.  When it returns [true] the walk has gone on
      from [order] and reached [idx]; when it returns [false] the edges
      from [idx] lead to an index under visit or round a cycle. *)
Lemma visit_spec fuel : ∀ idx st order,
    Inv st order → idx < length apis →
    (∀ v, v ∈ visiting st → v < length apis) →
    visited st ## visiting st →
    length apis < fuel + size (visiting st) →
    ∃ b st', visit apis nameToIndex fuel idx st = Some (b, st') ∧
      if b : bool then
        ∃ ext, Inv st' (order ++ ext) ∧ idx ∈ order ++ ext
               ∧ visiting st' = visiting st ∧ visited st' ## visiting st'
      else (∃ v, v ∈ visiting st ∧ rtc istep idx v) ∨ (∃ c, tc istep c c).
Proof.
    induction fuel as [|fuel IH]; intros idx st order HI Hidx Hrange Hdisj Hfuel.
    { pose proof (size_below _ _ Hrange). lia. }
    simpl. destruct (decide (idx ∈ visited st)) as [Hv|Hnv].
    { exists true, st. split; [done|]. exists []. rewrite app_nil_r.
      split_and!; try done. by apply (walk_visited _ _ _ _ HI). }
    destruct (decide (idx ∈ visiting st)) as [Hw|Hnw].
    { exists false, st. split; [done|]. left. exists idx. split; [done|]. constructor. }
    destruct (lookup_lt_is_Some_2 apis idx Hidx) as [api Hapi]. rewrite Hapi.
    set (st1 := mkVisit (visited st) ({[idx]} ∪ visiting st) (result st)).
    assert (Hfresh : idx ∉ order) by (by rewrite <- (walk_visited _ _ _ _ HI)).
    assert (Hclean : ({[idx]} ∪ visiting st) ∖ {[idx]} = visiting st) by set_solver.
    assert (Hnone : depIndex apis nameToIndex idx = None →
      ∃ b st', Some (true, mkVisit ({[idx]} ∪ visited st1) (visiting st1 ∖ {[idx]})
                             (result st1 ++ [api])) = Some (b, st') ∧
        if b : bool then
          ∃ ext, Inv st' (order ++ ext) ∧ idx ∈ order ++ ext
                 ∧ visiting st' = visiting st ∧ visited st' ## visiting st'
        else (∃ v, v ∈ visiting st ∧ rtc istep idx v) ∨ (∃ c, tc istep c c)).
    { intros Hdep. eexists true, _. split; [done|]. exists [idx]. simpl.
      split_and!.
      - apply walkInv_append; try done. intros d. by rewrite Hdep.
      - set_solver.
      - done.
      - rewrite Hclean. set_solver. }
    unfold depIndex in Hnone. rewrite Hapi in Hnone.
    destruct (decide (APITest.DependsOn api ≠ "")) as [Hdep|Hdep]; [|by apply Hnone].
    destruct (nameToIndex !! APITest.DependsOn api) as [depIdx|] eqn:Hn2i;
      [|by apply Hnone].
    clear Hnone.
    assert (Hstep : istep idx depIdx).
    { unfold istep, depIndex. rewrite Hapi. by rewrite decide_True. }
    destruct (IH depIdx st1 order) as (b & st2 & Hvisit & Hpost).
    - destruct HI. by constructor.
    - by eapply depIndex_range.
    - simpl. intros v [->%elem_of_singleton|Hv]%elem_of_union; [done|by apply Hrange].
    - simpl. set_solver.
    - simpl. rewrite size_union by set_solver. rewrite size_singleton. lia.
    - rewrite Hvisit. destruct b.
      + destruct Hpost as (ext & HI2 & Hd & Hving & Hdisj2).
        eexists true, _. split; [done|]. exists (ext ++ [idx]).
        rewrite app_assoc. simpl in Hving.
        assert (idx ∉ order ++ ext).
        { rewrite <- (walk_visited _ _ _ _ HI2). set_solver. }
        split_and!.
        * apply walkInv_append; try done.
          intros d. unfold istep in Hstep. rewrite Hstep. by intros [= <-].
        * set_solver.
        * simpl. by rewrite Hving.
        * simpl. rewrite Hving, Hclean. set_solver.
      + eexists false, _. split; [done|].
        destruct Hpost as [(v & Hv & Hreach)|Hcyc]; [|by right].
        simpl in Hv. apply elem_of_union in Hv as [->%elem_of_singleton|Hv].
        * right. exists idx. eapply tc_rtc_r; [by apply tc_once|done].
        * left. exists v. split; [done|]. by eapply rtc_l.
Qed.

  (** The loop returns: the input when a cycle was met, and otherwise
      the tests of a walk that has reached every index. *)
Lemma resolveLoop_spec : ∀ indices st order,
    Inv st order → visiting st = ∅ → (∀ i, i ∈ indices → i < length apis) →
    ∃ out, resolveLoop apis nameToIndex indices st = Some out ∧
      ((out = apis ∧ ∃ c, tc istep c c)
       ∨ ∃ ext st', Inv st' (order ++ ext) ∧ out = result st'
                    ∧ ∀ i, i ∈ indices → i ∈ order ++ ext).
Proof.
    induction indices as [|i rest IH]; intros st order HI Hving Hrange;
      cbn [resolveLoop].
    { eexists. split; [done|]. right. exists [], st. rewrite app_nil_r.
      split_and!; [done|done|]. intros i Hi. by apply elem_of_nil in Hi. }
    assert (Hrest : ∀ j, j ∈ rest → j < length apis).
    { intros j Hj. apply Hrange. by right. }
    destruct (decide (i ∈ visited st)) as [Hv|Hnv].
    { destruct (IH st order HI Hving Hrest) as (out & Hout & [Hc|(ext & st' & HI' & Hres & Hall)]).
      - exists out. split; [done|]. by left.
      - exists out. split; [done|]. right. exists ext, st'. split_and!; [done|done|].
        intros j [->|Hj]%elem_of_cons; [|by apply Hall].
        apply elem_of_app. left. by apply (walk_visited _ _ _ _ HI). }
    destruct (visit_spec (S (length apis)) i st order) as (b & st1 & Hvisit & Hpost).
    - done.
    - apply Hrange. by left.
    - rewrite Hving. set_solver.
    - rewrite Hving. set_solver.
    - lia.
    - rewrite Hvisit. destruct b.
      + destruct Hpost as (ext & HI1 & Hi & Hving1 & _).
        destruct (IH st1 (order ++ ext) HI1) as (out & Hout & [Hc|(ext' & st' & HI' & Hres & Hall)]).
        * by rewrite Hving1.
        * done.
        * exists out. split; [done|]. by left.
        * exists out. split; [done|]. right. exists (ext ++ ext'), st'.
          rewrite app_assoc. split_and!; [done|done|].
          intros j [->|Hj]%elem_of_cons; [|by apply Hall].
          apply elem_of_app. by left.
      + eexists. split; [done|]. left. split; [done|].
        destruct Hpost as [(v & Hv & _)|Hc]; [|done].
        rewrite Hving in Hv. set_solver.
Qed.

  (** Along an edge the position in a finished walk goes down. *)
Lemma walk_tc_position st order i j q :
    Inv st order → tc istep i j → order !! q = Some i →
    ∃ p, order !! p = Some j ∧ p < q.
Proof.
    intros HI Htc. revert q. induction Htc as [i j Hs|i k j Hs _ IH]; intros q Hq.
    - by eapply (walk_deps _ _ _ _ HI).
    - destruct (walk_deps _ _ _ _ HI i k q Hq Hs) as (p & Hp & Hpq).
      destruct (IH p Hp) as (p' & Hp' & Hlt). exists p'. split; [done|lia].
Qed.

Lemma walk_no_cycle st order c :
    Inv st order → c ∈ order → ¬ tc istep c c.
Proof.
    intros HI [q Hq]%list_elem_of_lookup Htc.
    destruct (walk_tc_position _ _ _ _ _ HI Htc Hq) as (p & Hp & Hlt).
    pose proof (NoDup_lookup _ _ _ _ (walk_nodup _ _ _ _ HI) Hp Hq). lia.
Qed.

Lemma istep_dependsOn i j :
    istep i j → ∃ a b, apis !! i = Some a ∧ apis !! j = Some b ∧ dependsOn apis a b.
Proof.
    unfold istep, depIndex. destruct (apis !! i) as [a|] eqn:Ha; [|done].
    case_decide; [|done]. intros (b & Hb & Hn)%buildNameToIndex_range.
    exists a, b. split_and!; try done.
    unfold dependsOn. split_and!; try done; by eapply list_elem_of_lookup_2.
Qed.

Lemma tc_istep_dependsOn i j :
    tc istep i j → ∃ a b, apis !! i = Some a ∧ apis !! j = Some b ∧ tc (dependsOn apis) a b.
Proof.
    induction 1 as [i j Hs|i k j Hs _ (b & c & Hb & Hc & Htc)].
    - destruct (istep_dependsOn _ _ Hs) as (a & b & Ha & Hb & Hd).
      exists a, b. split_and!; try done. by apply tc_once.
    - destruct (istep_dependsOn _ _ Hs) as (a & b' & Ha & Hb' & Hd).
      assert (b' = b) as -> by congruence.
      exists a, c. split_and!; try done. by eapply tc_l.
Qed.

Lemma dependsOn_istep a b i :
    distinctNames apis → dependsOn apis a b → apis !! i = Some a →
    ∃ j, apis !! j = Some b ∧ istep i j.
Proof.
    intros Hnd (_ & [j Hj]%list_elem_of_lookup & Hne & Heq) Hi.
    exists j. split; [done|]. unfold istep, depIndex. rewrite Hi.
    rewrite decide_True by done. rewrite Heq. subst nameToIndex.
    by rewrite (buildNameToIndex_distinct _ _ _ j b).
Qed.

Lemma tc_dependsOn_istep a b i :
    distinctNames apis → tc (dependsOn apis) a b → apis !! i = Some a →
    ∃ j, apis !! j = Some b ∧ tc istep i j.
Proof.
    intros Hnd Htc. revert i. induction Htc as [a b Hd|a x b Hd _ IH]; intros i Hi.
    - destruct (dependsOn_istep _ _ _ Hnd Hd Hi) as (j & Hj & Hs).
      exists j. split; [done|]. by apply tc_once.
    - destruct (dependsOn_istep _ _ _ Hnd Hd Hi) as (k & Hk & Hs).
      destruct (IH k Hk) as (j & Hj & Htc'). exists j. split; [done|]. by eapply tc_l.
Qed.

Lemma omap_lookup_seq (pre l : list APITest.t) :
    omap (λ i, (pre ++ l) !! i) (seq (length pre) (length l)) = l.
Proof.
    revert pre. induction l as [|x l IH]; intros pre; simpl; [done|].
    rewrite lookup_app_r, Nat.sub_diag by lia. simpl. f_equal.
    specialize (IH (pre ++ [x])). rewrite length_app in IH. simpl in IH.
    rewrite <- app_assoc in IH. simpl in IH.
    by rewrite Nat.add_1_r in IH.
Qed.

  (** [resolveExecutionOrder] returns, and what it returns is described
      by a finished walk unless it is the input itself. *)
Lemma resolveExecutionOrder_spec :
    ∃ out, resolveExecutionOrder apis = Some out ∧
      ((out = apis ∧ ∃ c, tc istep c c)
       ∨ ∃ order st', Inv st' order ∧ out = omap (λ i, apis !! i) order
                      ∧ order ≡ₚ seq 0 (length apis)).
Proof.
    unfold resolveExecutionOrder.
    destruct (resolveLoop_spec (seq 0 (length apis)) (mkVisit ∅ ∅ []) [])
      as (out & Hout & Hcases).
    - constructor; simpl; try done.
      + apply NoDup_nil_2.
      + intros i. set_solver.
      + intros i Hi. by apply elem_of_nil in Hi.
    - done.
    - intros i Hi%elem_of_seq. lia.
    - exists out. split; [done|]. destruct Hcases as [Hc|(ext & st' & HI & Hres & Hall)];
        [by left|right].
      simpl in *. exists ext, st'. split_and!; [done|by rewrite Hres, (walk_result _ _ _ _ HI)|].
      apply NoDup_Permutation; [by apply (walk_nodup _ _ _ _ HI)|apply NoDup_seq|].
      intros i. split.
      + intros Hi. apply elem_of_seq. pose proof (walk_range _ _ _ _ HI i Hi). lia.
      + apply Hall.
Qed.

Lemma resolveExecutionOrder_Permutation :
    ∃ out, resolveExecutionOrder apis = Some out ∧ out ≡ₚ apis.
Proof.
    destruct resolveExecutionOrder_spec as (out & Hout & [[-> _]|(order & st' & HI & -> & Hperm)]);
      eexists; (split; [done|]); [done|].
    rewrite Hperm. pose proof (omap_lookup_seq [] apis) as Hseq.
    simpl in Hseq. by rewrite Hseq.
Qed.
End Walk.

(** ** The order of execution *)

Lemma omap_lookup_total {A B} (f : A → option B) (l : list A) (i : nat) (b : B) :
  (∀ x, x ∈ l → is_Some (f x)) →
  omap f l !! i = Some b → ∃ x, l !! i = Some x ∧ f x = Some b.
Proof.
  revert i. induction l as [|x l IH]; intros i Hall Hl; simpl in *; [done|].
  destruct (Hall x) as [y Hy]; [by left|]. rewrite Hy in Hl.
  destruct i as [|i]; simpl in *.
  - inversion Hl; subst. eauto.
  - apply IH; [|done]. intros z Hz. apply Hall. by right.
Qed.

Lemma acyclic_rank (apis : list APITest.t) (rank : APITest.t → nat) :
  (∀ a b, dependsOn apis a b → rank b < rank a) → acyclic apis.
Proof.
  intros Hrank a Htc.
  assert (∀ x y, tc (dependsOn apis) x y → rank y < rank x) as Hlt.
  { induction 1 as [x y Hd|x y z Hd _ IH]; [by apply Hrank|].
    apply Hrank in Hd. lia. }
  apply Hlt in Htc. lia.
Qed.

(** C1. For test definitions with distinct names whose [depends_on]
    edges form no cycle, [resolveExecutionOrder] returns an order of the
    same tests in which every test that declares a dependency stands at
    a position strictly after that of the test it depends on. *)
Theorem resolveExecutionOrder_dependency_first (apis : list APITest.t) :
  distinctNames apis → acyclic apis →
  ∃ order, resolveExecutionOrder apis = Some order ∧ order ≡ₚ apis ∧
    ∀ t d i j, dependsOn apis t d →
      order !! i = Some t → order !! j = Some d → j < i.
Proof.
  intros Hnd Hacyc.
  destruct (resolveExecutionOrder_Permutation apis) as (out' & Hout' & Hperm).
  destruct (resolveExecutionOrder_spec apis)
    as (out & Hout & [[_ [c Hc]]|(order & st' & HI & -> & Hseq)]).
  { apply tc_istep_dependsOn in Hc as (a & b & Ha & Hb & Htc).
    assert (a = b) as <- by congruence. by destruct (Hacyc a). }
  exists (omap (λ i, apis !! i) order). split; [done|].
  split; [congruence|].
  intros t d i j Hd Hi Hj.
  assert (Htotal : ∀ x, x ∈ order → is_Some (apis !! x)).
  { intros x Hx. apply lookup_lt_is_Some. by apply (walk_range _ _ _ _ HI). }
  apply omap_lookup_total in Hi as (it & Hit & Ht); [|done].
  apply omap_lookup_total in Hj as (jd & Hjd & Hdd); [|done].
  destruct (dependsOn_istep apis t d it Hnd Hd Ht) as (jd' & Hjd' & Hstep).
  destruct (walk_deps _ _ _ _ HI it jd' i Hit Hstep) as (p & Hp & Hlt).
  assert (jd' = jd) as ->.
  { destruct Hd as (_ & _ & _ & Hname).
    pose proof (buildNameToIndex_distinct apis 0 ∅ jd d Hnd Hdd) as H1.
    pose proof (buildNameToIndex_distinct apis 0 ∅ jd' d Hnd Hjd') as H2.
    simpl in *. congruence. }
  pose proof (NoDup_lookup _ _ _ _ (walk_nodup _ _ _ _ HI) Hp Hjd). lia.
Qed.

Lemma resolveExecutionOrder_dependency_first_witness :
  ∃ order, resolveExecutionOrder [exampleUse; exampleCreate] = Some order
    ∧ order ≡ₚ [exampleUse; exampleCreate]
    ∧ ∀ t d i j, dependsOn [exampleUse; exampleCreate] t d →
        order !! i = Some t → order !! j = Some d → j < i.
Proof.
  apply (resolveExecutionOrder_dependency_first [exampleUse; exampleCreate]).
  - unfold distinctNames. vm_compute. repeat constructor; set_solver.
  - apply (acyclic_rank _ (λ a, String.length (APITest.DependsOn a))).
    intros a b (Ha & Hb & Hne & Heq).
    apply elem_of_cons in Ha as [->|Ha]; [|apply list_elem_of_singleton in Ha as ->];
      [|done].
    apply elem_of_cons in Hb as [->|Hb]; [|apply list_elem_of_singleton in Hb as ->];
      [done|]. vm_compute. lia.
Defined.

(** Without dependencies the walk appends the tests one by one. *)
Lemma visit_no_dependency apis nameToIndex fuel i st api :
  apis !! i = Some api → APITest.DependsOn api = "" →
  i ∉ visited st → visiting st = ∅ →
  visit apis nameToIndex (S fuel) i st
  = Some (true, mkVisit ({[i]} ∪ visited st) ∅ (result st ++ [api])).
Proof.
  intros Ha Hdep Hv Hving. simpl.
  rewrite decide_False by done. rewrite decide_False by (rewrite Hving; set_solver).
  rewrite Ha. rewrite decide_False by (by intros []).
  simpl. do 3 f_equal. rewrite Hving. set_solver.
Qed.

Lemma resolveLoop_no_dependency apis nameToIndex : ∀ post pre st,
  apis = pre ++ post →
  Forall (λ a, APITest.DependsOn a = "") post →
  (∀ i, i ∈ visited st ↔ i < length pre) → visiting st = ∅ → result st = pre →
  resolveLoop apis nameToIndex (seq (length pre) (length post)) st = Some apis.
Proof.
  induction post as [|a post IH]; intros pre st Hsplit Hno Hv Hving Hres;
    cbn [resolveLoop seq length].
  { rewrite Hres, Hsplit. by rewrite app_nil_r. }
  apply Forall_cons in Hno as [Ha Hno].
  rewrite decide_False by (rewrite Hv; lia).
  rewrite (visit_no_dependency _ _ _ _ _ a); try done.
  - specialize (IH (pre ++ [a])). rewrite length_app in IH. simpl in IH.
    rewrite Nat.add_1_r in IH. apply IH; simpl; try done.
    + by rewrite <- app_assoc.
    + intros i. rewrite elem_of_union, elem_of_singleton, Hv. lia.
    + by rewrite Hres.
  - rewrite Hsplit. rewrite lookup_app_r by lia. by rewrite Nat.sub_diag.
  - rewrite Hv. lia.
Qed.

Lemma resolveExecutionOrder_no_dependency apis :
  Forall (λ a, APITest.DependsOn a = "") apis →
  resolveExecutionOrder apis = Some apis.
Proof.
  intros Hno. unfold resolveExecutionOrder.
  apply (resolveLoop_no_dependency apis _ apis [] (mkVisit ∅ ∅ [])); simpl; try done.
  intros i. split; [set_solver|lia].
Qed.

Lemma StronglySorted_lookup_lt {A} (R : A → A → Prop) (l : list A) i j a b :
  StronglySorted R l → l !! i = Some a → l !! j = Some b → i < j → R a b.
Proof.
  intros Hs. revert i j. induction Hs as [|x l Hs IH Hx]; intros i j Hi Hj Hlt; [done|].
  destruct j as [|j]; [lia|]. simpl in Hj.
  destruct i as [|i]; simpl in Hi.
  - inversion Hi; subst. rewrite Forall_forall in Hx.
    apply Hx. by eapply list_elem_of_lookup_2.
  - eapply IH; [done|done|lia].
Qed.

Lemma weightLess_true a b :
  weightLess a b = true → (APITest.Weight b ≤ APITest.Weight a)%Z.
Proof.
  unfold weightLess. case_decide; [|done]. intros ?%bool_decide_eq_true. lia.
Qed.

Lemma weightLess_false a b :
  weightLess a b = false → (APITest.Weight a ≤ APITest.Weight b)%Z.
Proof.
  unfold weightLess. case_decide; [|lia]. intros ?%bool_decide_eq_false. lia.
Qed.

Lemma sortAPIsByWeight_stable apis : stableSortByWeight apis (sortAPIsByWeight apis).
Proof.
  unfold stableSortByWeight, sortAPIsByWeight. split_and!.
  - apply SliceStable_Permutation.
  - intros i j a b Hi Hj Hlt.
    pose proof (SliceStable_sorted weightLess
      (λ a b, (APITest.Weight a ≤ APITest.Weight b)%Z)) as Hs.
    assert (flip (λ a b, (APITest.Weight a ≤ APITest.Weight b)%Z) a b); [|simpl in *; lia].
    eapply StronglySorted_lookup_lt; [apply Hs| | |]; try done.
    + intros; lia.
    + apply weightLess_true.
    + apply weightLess_false.
  - intros w. apply SliceStable_filter.
    intros x y Hy Hx. unfold weightLess. rewrite decide_False; [done|]. congruence.
Qed.

(** C9. When no test declares a dependency, the order of sequential
    execution is the declaration order stably sorted by weight, heavier
    first: a test of higher weight comes earlier, and tests of equal
    weight keep the order they were declared in. *)
Theorem executionOrder_no_dependency (e : Executor.t) :
  Forall (λ a, APITest.DependsOn a = "") (TestConfig.APIs (Executor.config e)) →
  executionOrder e = Some (sortAPIsByWeight (TestConfig.APIs (Executor.config e)))
  ∧ stableSortByWeight (TestConfig.APIs (Executor.config e))
      (sortAPIsByWeight (TestConfig.APIs (Executor.config e))).
Proof.
  intros Hno. split; [|apply sortAPIsByWeight_stable].
  unfold executionOrder. apply resolveExecutionOrder_no_dependency.
  rewrite Forall_forall in *. intros a Ha. apply Hno.
  unfold sortAPIsByWeight in Ha. by rewrite SliceStable_Permutation in Ha.
Qed.

Lemma executionOrder_no_dependency_witness :
  executionOrder (executorOf exampleWeights)
  = Some (sortAPIsByWeight exampleWeights)
  ∧ stableSortByWeight exampleWeights (sortAPIsByWeight exampleWeights).
Proof.
  apply (executionOrder_no_dependency (executorOf exampleWeights)).
  simpl. repeat constructor.
Defined.

(** ** Root-cause tracing *)

Lemma findRootCauseLoop_spec (e : Executor.t) fuel : ∀ seen current,
  seen ⊆ dom (Executor.results e) →
  size (Executor.results e) + 1 < fuel + size seen →
  ∃ cause, findRootCauseLoop e fuel seen current = Some cause
           ∧ rootCauseTrace e seen current cause.
Proof.
  induction fuel as [|fuel IH]; intros seen current Hsub Hfuel.
  { apply subseteq_size in Hsub. rewrite size_dom in Hsub. lia. }
  cbn [findRootCauseLoop]. destruct (decide (current ∈ seen)) as [Hin|Hnin].
  { exists current. split; [done|]. by apply trace_revisited. }
  destruct (getResult e current) as [r|] eqn:Hr.
  2:{ exists current. split; [done|]. by apply trace_no_result. }
  destruct (TestResult.Passed r) eqn:Hp, (TestResult.Skipped r) eqn:Hs; simpl.
  4:{ exists current. split; [done|]. by eapply trace_failed. }
  2:{ exists current. split; [done|]. by eapply trace_passed. }
  all: destruct (String.eqb (findDependsOn e current) "") eqn:Hd.
  all: try (apply String.eqb_eq in Hd; exists current; split; [done|];
            by eapply trace_no_dependency).
  all: apply String.eqb_neq in Hd.
  all: destruct (IH ({[current]} ∪ seen) (findDependsOn e current))
         as (cause & Hc & Ht);
    [ apply union_subseteq; split; [|done];
      apply singleton_subseteq_l, elem_of_dom; by eexists
    | rewrite size_union by set_solver; rewrite size_singleton; lia
    | exists cause; split; [done|]; by eapply trace_skipped ].
Qed.

Lemma findRootCause_total (e : Executor.t) testName :
  ∃ cause, findRootCause e testName = Some cause
           ∧ rootCauseTrace e ∅ testName cause.
Proof.
  apply findRootCauseLoop_spec; [set_solver|]. rewrite size_empty. lia.
Qed.

(** C8. The trace of a root cause returns, and follows the rules of the
    specification: a name without a stored result is the cause, a name
    whose result failed without being skipped is the cause, a name whose
    result was skipped is followed through the dependency declared for
    it, and a name met a second time ends the trace.  On the chain of
    [A], which failed, [B], skipped and depending on [A], and [C],
    skipped and depending on [B], the trace from [B] and the trace from
    [C] both return [A]. *)
Theorem findRootCause_trace (e : Executor.t) :
  (∀ testName, ∃ cause, findRootCause e testName = Some cause
                        ∧ rootCauseTrace e ∅ testName cause)
  ∧ (∀ A B C rA rB rC,
       A ≠ "" → B ≠ "" →
       getResult e A = Some rA →
       TestResult.Passed rA = false → TestResult.Skipped rA = false →
       getResult e B = Some rB → TestResult.Skipped rB = true →
       findDependsOn e B = A →
       getResult e C = Some rC → TestResult.Skipped rC = true →
       findDependsOn e C = B →
       findRootCause e B = Some A ∧ findRootCause e C = Some A).
Proof.
  split; [apply findRootCause_total|].
  intros A B C rA rB rC HA HB HrA HpA HsA HrB HsB HdB HrC HsC HdC.
  assert (A ≠ B) by (intros ->; congruence).
  assert (A ≠ C) by (intros ->; congruence).
  assert (B ≠ C) by (intros ->; congruence).
  unfold findRootCause.
  destruct (size (Executor.results e)) as [|n] eqn:Hsize.
  { apply map_size_empty_inv in Hsize. unfold getResult in HrA.
    rewrite Hsize in HrA. by rewrite lookup_empty in HrA. }
  assert (HstepA : ∀ fuel seen, A ∉ seen →
    findRootCauseLoop e (S fuel) seen A = Some A).
  { intros fuel seen Hn. cbn [findRootCauseLoop]. rewrite decide_False by done.
    rewrite HrA, HpA, HsA. done. }
  assert (HstepB : ∀ fuel seen, B ∉ seen → A ∉ seen →
    findRootCauseLoop e (S (S fuel)) seen B = Some A).
  { intros fuel seen Hn Hn'. cbn [findRootCauseLoop]. rewrite decide_False by done.
    rewrite HrB, HsB, HdB. apply String.eqb_neq in HA. rewrite HA.
    rewrite andb_false_r. apply HstepA. set_solver. }
  split; [apply HstepB; set_solver|].
  cbn [findRootCauseLoop]. rewrite decide_False by set_solver.
  rewrite HrC, HsC, HdC. apply String.eqb_neq in HB. rewrite HB.
  rewrite andb_false_r. apply HstepB; set_solver.
Qed.

Lemma findRootCause_trace_witness :
  findRootCause exampleChain "B" = Some "A"
  ∧ findRootCause exampleChain "C" = Some "A".
Proof.
  destruct (findRootCause_trace exampleChain) as [_ Hchain].
  eapply (Hchain "A" "B" "C"); try done; vm_compute; reflexivity.
Defined.

(** ** Running one test *)

Section Running.
Context `{Runtime}.

Lemma liftWorld_sent {A} (m : IO A) (env : Env) :
    sent (snd (liftWorld m env)) = sent env.
Proof. unfold liftWorld. by destruct (m (world env)). Qed.

Lemma sameTest_refl r : sameTest r r.
Proof. by repeat split. Qed.

Lemma sameTest_trans r1 r2 r3 : sameTest r1 r2 → sameTest r2 r3 → sameTest r1 r3.
Proof. unfold sameTest. intros. destruct_and!. split_and!; congruence. Qed.

Lemma attemptBody_spec apiTest attempt result lastErr env :
    ∃ returned result' lastErr' w,
      attemptBody apiTest attempt result lastErr env
      = (returned, result', lastErr',
         mkEnv _ w (sent env ++ [(APITest.Name apiTest, APITest.Request apiTest)]))
      ∧ sameTest result result'
      ∧ (returned = true → TestResult.Passed result' = true)
      ∧ TestResult.RetryCount result'
        = (if Z.ltb 0 attempt then TestResult.RetryCount result + 1
           else TestResult.RetryCount result)%Z.
Proof.
    unfold attemptBody, bind, clientDo, ret.
    destruct (httpDo (APITest.Request apiTest) (world env)) as [[resp|err] w].
    - destruct (ValidationResult.Passed (Validate (APITest.Response apiTest) resp));
        eexists _, _, _, _; (split; [reflexivity|]);
        destruct (Z.ltb 0 attempt); by repeat split.
    - eexists _, _, _, _. split; [reflexivity|].
      destruct (Z.ltb 0 attempt); by repeat split.
Qed.

Lemma exhausted_sameTest result lastErr : sameTest result (exhausted result lastErr).
Proof. unfold exhausted. destruct lastErr; by repeat split. Qed.

  (** The attempt loop calls the client for no other test, and at most
      once for every iteration it may make. *)
Lemma attempts_spec apiTest : ∀ remaining attempt result lastErr env,
    ∃ result' w calls,
      attempts apiTest remaining attempt result lastErr env
      = (result', mkEnv _ w (sent env ++ calls))
      ∧ sameTest result result'
      ∧ Forall (λ c, c = (APITest.Name apiTest, APITest.Request apiTest)) calls
      ∧ length calls ≤ remaining.
Proof.
    induction remaining as [|remaining IH]; intros attempt result lastErr env;
      cbn [attempts].
    { unfold ret. exists (exhausted result lastErr), (world env), [].
      rewrite app_nil_r. destruct env. split_and!; try done.
      apply exhausted_sameTest. }
    unfold bind at 1.
    destruct (attemptBody_spec apiTest attempt result lastErr env)
      as (returned & result1 & lastErr1 & w1 & -> & Hsame & _ & _).
    destruct returned.
    - unfold ret. eexists result1, w1, [_]. split_and!; try done.
      + by repeat constructor.
      + simpl. lia.
    - destruct (IH (attempt + 1)%Z result1 lastErr1
                  (mkEnv _ w1 (sent env ++ [(APITest.Name apiTest, APITest.Request apiTest)])))
        as (result2 & w2 & calls & -> & Hsame2 & Hcalls & Hlen).
      simpl. eexists result2, w2, (_ :: calls). rewrite <- app_assoc.
      split_and!; try done.
      + by eapply sameTest_trans.
      + by constructor.
      + simpl. lia.
Qed.

Lemma executeAPITest_spec apiTest env :
    ∃ result w calls,
      executeAPITest apiTest env = (result, mkEnv _ w (sent env ++ calls))
      ∧ TestResult.Name result = APITest.Name apiTest
      ∧ TestResult.Skipped result = false
      ∧ TestResult.Request result = APITest.Request apiTest
      ∧ Forall (λ c, c = (APITest.Name apiTest, APITest.Request apiTest)) calls
      ∧ length calls ≤ Z.to_nat (attemptLimit apiTest).
Proof.
    unfold executeAPITest.
    destruct (attempts_spec apiTest (Z.to_nat (attemptLimit apiTest)) 0
                (newResult apiTest) None env)
      as (result & w & calls & -> & Hsame & Hcalls & Hlen).
    exists result, w, calls. unfold sameTest in Hsame. simpl in Hsame.
    destruct_and!. by split_and!.
Qed.

  (** Templating rewrites the request of a test and nothing else. *)
Lemma replaceVariables_spec e apiTest w :
    ∃ request w',
      replaceVariables e apiTest w
      = (APITest.mk (APITest.Name apiTest) (APITest.Description apiTest)
           (APITest.Version apiTest) (APITest.Versions apiTest)
           (APITest.Weight apiTest) (APITest.DependsOn apiTest) request
           (APITest.Response apiTest) (APITest.RetryPolicy apiTest), w').
Proof.
    unfold replaceVariables, bind, ret.
    repeat match goal with
           | |- context [let (_, _) := ?x in _] => destruct x
           end.
    by eexists _, _.
Qed.

  (** ** The loop of [Execute] *)

Lemma dependencyGate_spec e apiTest :
    (dependencyGate e apiTest = Some None
     ∧ (APITest.DependsOn apiTest = ""
        ∨ ∃ r, getResult e (APITest.DependsOn apiTest) = Some r
               ∧ TestResult.Passed r = true ∧ TestResult.Skipped r = false))
    ∨ (∃ reason, dependencyGate e apiTest = Some (Some (skippedResult apiTest reason))
       ∧ APITest.DependsOn apiTest ≠ ""
       ∧ (getResult e (APITest.DependsOn apiTest) = None
          ∨ ∃ r, getResult e (APITest.DependsOn apiTest) = Some r
                 ∧ (TestResult.Passed r = false ∨ TestResult.Skipped r = true))).
Proof.
    unfold dependencyGate.
    destruct (String.eqb (APITest.DependsOn apiTest) "") eqn:Hd.
    { left. apply String.eqb_eq in Hd. by split; [|left]. }
    apply String.eqb_neq in Hd.
    destruct (getResult e (APITest.DependsOn apiTest)) as [r|] eqn:Hr.
    2:{ right. eexists. split_and!; [done|done|by left]. }
    destruct (TestResult.Passed r) eqn:Hp, (TestResult.Skipped r) eqn:Hs; simpl.
    2:{ left. split; [done|]. right. by exists r. }
    all: destruct (findRootCause_total e (APITest.DependsOn apiTest)) as (c & -> & _).
    all: right; eexists; split_and!; [done|done|]; right; exists r; split; [done|].
    all: auto.
Qed.

  (** One round of the loop: the test is skipped, and the client is not
      called, or it is run; either way a result of its name is recorded
      and stored. *)
Lemma executeOne_spec e report apiTest env :
    ∃ result w calls dp df ds,
      executeOne e report apiTest env
      = (Some (TestReport.record result dp df ds report, storeResult e result),
         mkEnv _ w (sent env ++ calls))
      ∧ TestResult.Name result = APITest.Name apiTest
      ∧ (dp + df + ds = 1)%Z
      ∧ Forall (λ c, fst c = APITest.Name apiTest) calls
      ∧ ((TestResult.Skipped result = false
          ∧ (APITest.DependsOn apiTest = ""
             ∨ ∃ r, getResult e (APITest.DependsOn apiTest) = Some r
                    ∧ TestResult.Passed r = true ∧ TestResult.Skipped r = false))
         ∨ (∃ reason, result = skippedResult apiTest reason)
           ∧ calls = [] ∧ w = world env).
Proof.
    unfold executeOne.
    destruct (dependencyGate_spec e apiTest) as [[-> Hrun]|(reason & -> & _)].
    - unfold bind, runTest, bind, ret.
      pose proof (liftWorld_sent (replaceVariables e apiTest) env) as Hsent.
      unfold liftWorld in *.
      destruct (replaceVariables_spec e apiTest (world env)) as (request & w1 & Hrv).
      rewrite Hrv in *. simpl in Hsent.
      match goal with
      | |- context [executeAPITest ?t ?env1] =>
        destruct (executeAPITest_spec t env1)
          as (result & w2 & calls & -> & Hname & Hskip & _ & Hcalls & _)
      end.
      simpl in *.
      destruct (TestResult.Passed result);
        eexists result, w2, calls, _, _, _; (split; [reflexivity|]);
        (split_and!; [done|done| |by left]);
        (eapply Forall_impl; [exact Hcalls|]); by intros c ->.
    - unfold ret. eexists _, (world env), [], _, _, _. rewrite app_nil_r.
      destruct env. split; [reflexivity|]. simpl.
      split_and!; try done. right. split_and!; try done. by eexists.
Qed.
End Running.

Section Sequential.
Context `{Runtime}.

  (** The loop of [Execute] returns, records one result for every test
      of the order, and counts it once.  For a set [S] of names that the
      tests of these names depend on each other within, and that has no
      stored result but skipped ones, the tests of these names are
      skipped, and the client is not called for them. *)
Lemma executeLoop_spec (S : string → Prop) : ∀ order e report env,
    (∀ t, t ∈ order → S (APITest.Name t) →
          APITest.DependsOn t ≠ "" ∧ S (APITest.DependsOn t)) →
    (∀ n r, S n → getResult e n = Some r → TestResult.Skipped r = true) →
    ∃ report' e' w calls rs,
      executeLoop order e report env
      = (Some (report', e'), mkEnv _ w (sent env ++ calls))
      ∧ TestReport.Results report' = TestReport.Results report ++ rs
      ∧ Forall2 (λ t r, TestResult.Name r = APITest.Name t
                        ∧ (S (APITest.Name t) →
                           ∃ reason, r = skippedResult t reason)) order rs
      ∧ TestReport.TotalTests report'
        = (TestReport.TotalTests report + Z.of_nat (length order))%Z
      ∧ (TestReport.PassedTests report' + TestReport.FailedTests report'
         + TestReport.SkippedTests report'
         = TestReport.PassedTests report + TestReport.FailedTests report
           + TestReport.SkippedTests report + Z.of_nat (length order))%Z
      ∧ Forall (λ c, ¬ S (fst c)) calls.
Proof.
    induction order as [|t rest IH]; intros e report env Hclosed Hstore;
      cbn [executeLoop].
    { unfold ret. exists report, e, (world env), [], [].
      rewrite !app_nil_r. destruct env. simpl. split_and!; try done; lia. }
    unfold bind at 1.
    destruct (executeOne_spec e report t env)
      as (result & w & calls & dp & df & ds & -> & Hname & Hsum & Hcalls & Hcase).
    assert (HS : S (APITest.Name t) → ∃ reason, result = skippedResult t reason).
    { intros Hin. destruct Hcase as [[_ Hrun]|[Hskip _]]; [|done].
      destruct (Hclosed t) as [Hdep HSdep]; [by left|done|].
      destruct Hrun as [Hnone|(r & Hr & _ & Hrs)]; [done|].
      rewrite (Hstore _ r HSdep Hr) in Hrs. done. }
    destruct (IH (storeResult e result) (TestReport.record result dp df ds report)
                 (mkEnv _ w (sent env ++ calls)))
      as (report' & e' & w' & calls' & rs & -> & Hres & Hall & Htotal & Hsum' & Hcalls').
    { intros t' Ht'. apply Hclosed. by right. }
    { intros n r Hn. unfold getResult, storeResult. simpl.
      destruct (decide (TestResult.Name result = n)) as [<-|Hne].
      - rewrite lookup_insert_eq. intros [= <-].
        rewrite Hname in Hn. destruct (HS Hn) as [reason ->]. done.
      - rewrite lookup_insert_ne by done. by apply Hstore. }
    simpl in *. exists report', e', w', (calls ++ calls'), (result :: rs).
    rewrite <- !app_assoc in *. simpl in *.
    split_and!; try done; try lia.
    - by constructor.
    - apply Forall_app. split; [|done].
      destruct Hcase as [[Hrun _]|(_ & -> & _)]; [|done].
      eapply Forall_impl; [exact Hcalls|]. intros c Hc HSc. simpl in *.
      rewrite Hc in HSc. destruct (HS HSc) as [reason ->]. done.
Qed.

  (** C10. Sequential [Execute] returns a report.  The order it ran the
      tests in is a permutation of the configured tests, whether the
      dependencies have a cycle or not; the report holds one result for
      every test, in that order; and [TotalTests] is the sum of
      [PassedTests], [FailedTests] and [SkippedTests] and the number of
      results. *)
Theorem Execute_report (e : Executor.t) (env : Env) :
    ∃ order report e' env',
      executionOrder e = Some order
      ∧ order ≡ₚ TestConfig.APIs (Executor.config e)
      ∧ Execute e env = (Some (report, e'), env')
      ∧ map TestResult.Name (TestReport.Results report) = map APITest.Name order
      ∧ TestReport.TotalTests report
        = (TestReport.PassedTests report + TestReport.FailedTests report
           + TestReport.SkippedTests report)%Z
      ∧ TestReport.TotalTests report
        = Z.of_nat (length (TestReport.Results report)).
Proof.
    unfold Execute, executionOrder.
    destruct (resolveExecutionOrder_Permutation
                (sortAPIsByWeight (TestConfig.APIs (Executor.config e))))
      as (order & -> & Hperm).
    destruct (executeLoop_spec (λ _, False) order e (newReport e) env)
      as (report & e' & w & calls & rs & Hrun & Hres & Hall & Htotal & Hsum & _);
      [done|done|].
    exists order, report, e', (mkEnv _ w (sent env ++ calls)).
    simpl in Hres, Htotal, Hsum. split_and!; try done.
    - rewrite Hperm. apply SliceStable_Permutation.
    - rewrite Hres. clear -Hall. induction Hall as [|t r ts rs [Hn _] _ IH]; [done|].
      simpl. by rewrite Hn, IH.
    - lia.
    - rewrite Htotal, Hres. by rewrite (Forall2_length _ _ _ Hall).
Qed.
End Sequential.

(** ** Cycles *)

Lemma distinctNames_inj apis a b :
  distinctNames apis → a ∈ apis → b ∈ apis →
  APITest.Name a = APITest.Name b → a = b.
Proof.
  unfold distinctNames. intros Hnd [i Hi]%list_elem_of_lookup [j Hj]%list_elem_of_lookup Hn.
  assert (i = j) as ->; [|congruence].
  eapply NoDup_lookup; [exact Hnd| |]; rewrite list_lookup_fmap.
  - by rewrite Hi.
  - rewrite Hj. simpl. by rewrite Hn.
Qed.

Lemma dependsOn_Permutation apis apis' a b :
  apis ≡ₚ apis' → dependsOn apis a b → dependsOn apis' a b.
Proof.
  unfold dependsOn. intros Hp (Ha & Hb & Hrest). rewrite Hp in Ha, Hb. done.
Qed.

Lemma tc_dependsOn_Permutation apis apis' a b :
  apis ≡ₚ apis' → tc (dependsOn apis) a b → tc (dependsOn apis') a b.
Proof.
  intros Hp. induction 1 as [a b Hd|a x b Hd _ IH].
  - apply tc_once. by eapply dependsOn_Permutation.
  - eapply tc_l; [|done]. by eapply dependsOn_Permutation.
Qed.

Lemma tc_dependsOn_elem_of apis a b : tc (dependsOn apis) a b → a ∈ apis.
Proof. induction 1 as [a b Hd|a x b Hd _ _]; by destruct Hd. Qed.

(** When the dependencies of tests with distinct names have a cycle, the
    walk meets it, and [resolveExecutionOrder] returns its input. *)
Lemma resolveExecutionOrder_cycle apis a :
  distinctNames apis → tc (dependsOn apis) a a →
  resolveExecutionOrder apis = Some apis.
Proof.
  intros Hnd Hcyc.
  destruct (resolveExecutionOrder_spec apis)
    as (out & Hout & [[-> _]|(order & st' & HI & _ & Hseq)]); [done|].
  exfalso.
  pose proof (tc_dependsOn_elem_of _ _ _ Hcyc) as [i Hi]%list_elem_of_lookup.
  destruct (tc_dependsOn_istep apis a a i Hnd Hcyc Hi) as (j & Hj & Htc).
  assert (j = i) as ->.
  { unfold distinctNames in Hnd. apply NoDup_fmap_1 in Hnd.
    by eapply NoDup_lookup. }
  eapply (walk_no_cycle apis st' order i); [done| |done].
  rewrite Hseq. apply elem_of_seq. apply lookup_lt_Some in Hi. lia.
Qed.

(** C4. For tests with distinct names whose dependencies have a cycle,
    resolution gives up and the order of execution is the order sorted
    by weight.  With a cycle of three tests, [a] depending on [b], [b]
    on [c] and [c] on [a], and a new executor, [Execute] returns all
    the same, and each of the three is recorded as skipped: not passed,
    with the status code 0 and no response, and without a call of the
    HTTP client in its name. *)
Theorem cycle_falls_back_and_skips `{Runtime} (e : Executor.t) (env : Env)
    (a b c : APITest.t) :
  distinctNames (TestConfig.APIs (Executor.config e)) →
  ((∃ x, tc (dependsOn (TestConfig.APIs (Executor.config e))) x x) →
   executionOrder e = Some (sortAPIsByWeight (TestConfig.APIs (Executor.config e))))
  ∧ (Executor.results e = ∅ →
     a ∈ TestConfig.APIs (Executor.config e) →
     b ∈ TestConfig.APIs (Executor.config e) →
     c ∈ TestConfig.APIs (Executor.config e) →
     APITest.DependsOn a = APITest.Name b →
     APITest.DependsOn b = APITest.Name c →
     APITest.DependsOn c = APITest.Name a →
     APITest.Name a ≠ "" → APITest.Name b ≠ "" → APITest.Name c ≠ "" →
     executionOrder e = Some (sortAPIsByWeight (TestConfig.APIs (Executor.config e)))
     ∧ ∃ report e' env',
         Execute e env = (Some (report, e'), env')
         ∧ (∀ x, x ∈ [a; b; c] →
              ∃ r, r ∈ TestReport.Results report
                   ∧ TestResult.Name r = APITest.Name x
                   ∧ TestResult.Skipped r = true
                   ∧ TestResult.Passed r = false
                   ∧ TestResult.StatusCode r = 0%Z
                   ∧ TestResult.Response r = None
                   ∧ TestResult.Validation r = None)
         ∧ (∀ call, call ∈ sent env' →
              call ∈ sent env
              ∨ fst call ∉ [APITest.Name a; APITest.Name b; APITest.Name c])).
Proof.
  intros Hnd.
  set (apis := TestConfig.APIs (Executor.config e)) in *.
  assert (Hsorted : sortAPIsByWeight apis ≡ₚ apis) by apply SliceStable_Permutation.
  assert (Hfallback : (∃ x, tc (dependsOn apis) x x) →
                      executionOrder e = Some (sortAPIsByWeight apis)).
  { intros [x Hx]. unfold executionOrder. fold apis.
    apply (resolveExecutionOrder_cycle _ x).
    - unfold distinctNames in *. by rewrite Hsorted.
    - eapply tc_dependsOn_Permutation; [|done]. done. }
  split; [done|].
  intros Hempty Ha Hb Hc Hab Hbc Hca Hna Hnb Hnc.
  assert (Horder : executionOrder e = Some (sortAPIsByWeight apis)).
  { apply Hfallback. exists a.
    eapply tc_l; [|eapply tc_l; [|apply tc_once]].
    - unfold dependsOn. split_and!; [done|exact Hb| |done]. congruence.
    - unfold dependsOn. split_and!; [done|exact Hc| |done]. congruence.
    - unfold dependsOn. split_and!; [done|exact Ha| |done]. congruence. }
  split; [done|].
  unfold Execute. rewrite Horder.
  set (inCycle := λ n : string, n ∈ [APITest.Name a; APITest.Name b; APITest.Name c]).
  destruct (executeLoop_spec inCycle (sortAPIsByWeight apis) e (newReport e) env)
    as (report & e' & w & calls & rs & Hrun & Hres & Hall & _ & _ & Hcalls).
  { intros t Ht HS. rewrite Hsorted in Ht. unfold inCycle in HS.
    rewrite !elem_of_cons, elem_of_nil in HS.
    assert (t = a ∨ t = b ∨ t = c) as [->|[->| ->]].
    { destruct HS as [Hn|[Hn|[Hn|[]]]];
        [left|right;left|right;right]; by eapply distinctNames_inj. }
    all: unfold inCycle; split; [congruence|]; set_solver. }
  { intros n r _. unfold getResult. rewrite Hempty. by rewrite lookup_empty. }
  exists report, e', (mkEnv _ w (sent env ++ calls)). split; [done|]. split.
  - intros x Hx.
    assert (x ∈ sortAPIsByWeight apis) as [i Hi]%list_elem_of_lookup.
    { rewrite Hsorted. set_solver. }
    destruct (Forall2_lookup_l _ _ _ _ _ Hall Hi) as (r & Hr & Hname & Hskip).
    destruct Hskip as [reason ->]; [unfold inCycle; set_solver|].
    eexists. split; [|done]. rewrite Hres. simpl.
    by eapply list_elem_of_lookup_2.
  - simpl. intros call [Hin|Hin]%elem_of_app; [by left|right].
    rewrite Forall_forall in Hcalls. by apply Hcalls.
Qed.

Lemma cycle_falls_back_and_skips_witness :
  executionOrder (executorOf exampleCycle) = Some (sortAPIsByWeight exampleCycle)
  ∧ ∃ report e' env',
      Execute (executorOf exampleCycle) (Scripted.start []) = (Some (report, e'), env')
      ∧ (∀ x, x ∈ exampleCycle →
           ∃ r, r ∈ TestReport.Results report
                ∧ TestResult.Name r = APITest.Name x
                ∧ TestResult.Skipped r = true
                ∧ TestResult.Passed r = false
                ∧ TestResult.StatusCode r = 0%Z
                ∧ TestResult.Response r = None
                ∧ TestResult.Validation r = None)
      ∧ (∀ call, call ∈ sent env' →
           call ∈ sent (Scripted.start []) ∨ fst call ∉ ["A"; "B"; "C"]).
Proof.
  refine (proj2 (cycle_falls_back_and_skips (executorOf exampleCycle)
                   (Scripted.start [])
                   (simpleTest "A" "B" 0 "/a" VNil)
                   (simpleTest "B" "C" 0 "/b" VNil)
                   (simpleTest "C" "A" 0 "/c" VNil) _) _ _ _ _ _ _ _ _ _ _);
    try reflexivity; try discriminate.
  - unfold distinctNames. vm_compute. repeat constructor; set_solver.
  - simpl. unfold exampleCycle. set_solver.
  - simpl. unfold exampleCycle. set_solver.
  - simpl. unfold exampleCycle. set_solver.
Defined.

(** ** Retry execution *)

Lemma wrap64_small z : (minInt64 ≤ z ≤ maxInt64)%Z → wrap64 z = z.
Proof.
  unfold wrap64, minInt64, maxInt64. intros Hz.
  rewrite Z.mod_small by lia. lia.
Qed.

(** The number of attempts for a [max_retries] that is not negative. *)
Lemma attemptLimit_natural (t : APITest.t) :
  let m := RetryPolicy.MaxRetries (APITest.RetryPolicy t) in
  (0 ≤ m < maxInt64)%Z →
  attemptLimit t = (if Z.ltb 0 m then m + 1 else 1)%Z.
Proof.
  intros m Hm. unfold attemptLimit. fold m.
  destruct (Z.eqb_spec m 0) as [->|Hne]; [done|].
  rewrite wrap64_small by (unfold minInt64, maxInt64 in *; lia).
  destruct (Z.ltb_spec 0 m); [done|lia].
Qed.

(** The number of attempts for a negative [max_retries]: none. *)
Lemma attemptLimit_negative (t : APITest.t) :
  let m := RetryPolicy.MaxRetries (APITest.RetryPolicy t) in
  (minInt64 ≤ m < 0)%Z → (attemptLimit t ≤ 0)%Z.
Proof.
  intros m Hm. unfold attemptLimit. fold m.
  destruct (Z.eqb_spec m 0) as [->|Hne]; [lia|].
  rewrite wrap64_small by (unfold minInt64, maxInt64 in *; lia). lia.
Qed.

Section Retry.
Context `{Runtime}.

  (** The first attempt that passes validation ends the loop, with the
      test passed. *)
Lemma attempts_pass apiTest remaining attempt result lastErr env resp w :
    httpDo (APITest.Request apiTest) (world env) = (inl resp, w) →
    ValidationResult.Passed (Validate (APITest.Response apiTest) resp) = true →
    ∃ result',
      attempts apiTest (S remaining) attempt result lastErr env
      = (result', mkEnv _ w (sent env ++ [(APITest.Name apiTest, APITest.Request apiTest)]))
      ∧ TestResult.Passed result' = true
      ∧ TestResult.RetryCount result'
        = (if Z.ltb 0 attempt then TestResult.RetryCount result + 1
           else TestResult.RetryCount result)%Z.
Proof.
    intros Hdo Hval. cbn [attempts]. unfold bind, attemptBody, bind, clientDo, ret.
    rewrite Hdo, Hval. eexists. split; [done|].
    destruct (Z.ltb 0 attempt); done.
Qed.

  (** A transport error uses up an attempt and the loop goes on. *)
Lemma attempts_transport_error apiTest remaining attempt result lastErr env err w :
    httpDo (APITest.Request apiTest) (world env) = (inr err, w) →
    attempts apiTest (S remaining) attempt result lastErr env
    = attempts apiTest remaining (attempt + 1)
        (if Z.ltb 0 attempt
         then TestResult.setRetryCount (TestResult.RetryCount result + 1) result
         else result)
        (Some err)
        (mkEnv _ w (sent env ++ [(APITest.Name apiTest, APITest.Request apiTest)])).
Proof.
    intros Hdo. cbn [attempts]. unfold bind at 1.
    unfold attemptBody, bind, clientDo, ret. by rewrite Hdo.
Qed.

  (** The scenario of the specification: with [max_retries: 2], two
      transport errors and a third attempt that passes validation leave
      [RetryCount = 2] and [Passed = true], after three calls. *)
Lemma executeAPITest_third_attempt apiTest env err1 w1 err2 w2 resp w3 :
    RetryPolicy.MaxRetries (APITest.RetryPolicy apiTest) = 2%Z →
    httpDo (APITest.Request apiTest) (world env) = (inr err1, w1) →
    httpDo (APITest.Request apiTest) w1 = (inr err2, w2) →
    httpDo (APITest.Request apiTest) w2 = (inl resp, w3) →
    ValidationResult.Passed (Validate (APITest.Response apiTest) resp) = true →
    ∃ result calls,
      executeAPITest apiTest env = (result, mkEnv _ w3 (sent env ++ calls))
      ∧ length calls = 3
      ∧ TestResult.RetryCount result = 2%Z
      ∧ TestResult.Passed result = true.
Proof.
    intros Hmax H1 H2 H3 Hval. unfold executeAPITest, attemptLimit.
    rewrite Hmax. change (Z.to_nat _) with 3.
    rewrite (attempts_transport_error _ _ _ _ _ _ err1 w1) by done.
    rewrite (attempts_transport_error _ _ _ _ _ _ err2 w2) by done.
    match goal with
    | |- context [attempts ?t 1 ?a ?r ?l ?env1] =>
      destruct (attempts_pass t 0 a r l env1 resp w3) as (result & -> & Hp & Hr);
        [done|done|]
    end.
    simpl in *. rewrite <- !app_assoc. eexists result, _. split_and!; done.
Qed.

  (** C3, at the input that fails.  With [max_retries: -1] the bound of
      the attempt loop is 0: [executeAPITest] returns a result that is
      not passed without a single call of the client, where the
      specification has one attempt. *)
Theorem executeAPITest_negative_retries (t : APITest.t) (env : Env) :
    attemptLimit (withRetries (-1) t) = 0%Z
    ∧ executeAPITest (withRetries (-1) t) env
      = (newResult (withRetries (-1) t), env)
    ∧ TestResult.Passed (fst (executeAPITest (withRetries (-1) t) env)) = false
    ∧ sent (snd (executeAPITest (withRetries (-1) t) env)) = sent env.
Proof. by repeat split. Qed.
End Retry.

(** The scenario, run in the scripted world. *)
Example executeAPITest_third_attempt_scripted :
  let t := withRetries 2 (simpleTest "t" "" 0 "/t" VNil) in
  let r := executeAPITest t
             (Scripted.start [inr "timeout"; inr "timeout"; Scripted.json 200 ∅]) in
  TestResult.RetryCount (fst r) = 2%Z ∧ TestResult.Passed (fst r) = true
  ∧ length (sent (snd r)) = 3.
Proof. vm_compute. done. Qed.

(** ** Schema coercion *)

Section Coercion.
Context `{Runtime}.

  (** What [int] does to the values it converts, and to the strings it
      leaves. *)
Lemma convertToSchemaType_int :
    (∀ n, convertToSchemaType (VInt n) "int" = VInt n)
    ∧ (∀ n, convertToSchemaType (VInt64 n) "int" = VInt n)
    ∧ (∀ f z, float64.trunc f = Some z → (minInt64 ≤ z ≤ maxInt64)%Z →
              convertToSchemaType (VFloat64 f) "int" = VInt z)
    ∧ (∀ s n, strconv.Atoi s = Some n →
              convertToSchemaType (VString s) "int" = VInt n)
    ∧ (∀ s, strconv.Atoi s = None →
            convertToSchemaType (VString s) "int" = VString s).
Proof.
    split_and!; try done.
    - intros f z Ht [Hlo Hhi]. unfold convertToSchemaType. simpl.
      unfold float64.toInt64. rewrite Ht.
      apply Z.leb_le in Hlo, Hhi. by rewrite Hlo, Hhi.
    - intros s n Hs. unfold convertToSchemaType. simpl. by rewrite Hs.
    - intros s Hs. unfold convertToSchemaType. simpl. by rewrite Hs.
Qed.

  (** C6, at the input that fails.  The number 1.5 is a [float64] and
      not a whole number; under the declared type [int] it is converted
      all the same, to the integer 1, where the specification leaves it
      as it is. *)
Theorem convertToSchemaType_truncates :
    float64.valid oneAndHalf = true
    ∧ float64.eqInt oneAndHalf 1 = false
    ∧ float64.eqInt oneAndHalf 2 = false
    ∧ convertToSchemaType (VFloat64 oneAndHalf) "int" = VInt 1.
Proof. by repeat split. Qed.
End Coercion.

(** ** Strings *)

Lemma append_cons (x : ascii) (a b : string) : String x a +:+ b = String x (a +:+ b).
Proof. reflexivity. Qed.

Lemma append_nil_l (b : string) : "" +:+ b = b.
Proof. reflexivity. Qed.

Lemma append_assoc (a b c : string) : (a +:+ b) +:+ c = a +:+ b +:+ c.
Proof.
  induction a as [|x a IH]; [done|]. rewrite !append_cons. by f_equal.
Qed.

Lemma append_nil_r (a : string) : a +:+ "" = a.
Proof. induction a as [|x a IH]; [done|]. rewrite append_cons. by f_equal. Qed.

Lemma length_append (a b : string) :
  String.length (a +:+ b) = String.length a + String.length b.
Proof.
  induction a as [|x a IH]; [done|]. rewrite append_cons. simpl. by rewrite IH.
Qed.

Lemma drop_append (a b : string) : strings.drop (String.length a) (a +:+ b) = b.
Proof.
  induction a as [|x a IH]; [by destruct b|]. rewrite append_cons. done.
Qed.

Lemma append_cancel_r (a b c : string) : a +:+ c = b +:+ c → a = b.
Proof.
  revert b. induction a as [|x a IH]; intros [|y b] Heq; [done| | |].
  - apply (f_equal String.length) in Heq.
    rewrite append_cons, append_nil_l in Heq.
    cbn [String.length] in Heq. rewrite length_append in Heq. lia.
  - apply (f_equal String.length) in Heq.
    rewrite append_cons, append_nil_l in Heq.
    cbn [String.length] in Heq. rewrite length_append in Heq. lia.
  - rewrite !append_cons in Heq. injection Heq as -> Heq. f_equal. by apply IH.
Qed.

Ltac normalize_append :=
  repeat (rewrite append_assoc || rewrite append_cons || rewrite append_nil_l).

(** ** The placeholder pattern *)

Lemma spanNotClose_append g r :
  occurs "}" g = false →
  varPattern.spanNotClose (g +:+ String "}" r) = (g, String "}" r).
Proof.
  induction g as [|c g IH]; [done|]. cbn [occurs]. rewrite append_cons.
  intros [Hc Hg]%orb_false_elim. cbn [varPattern.spanNotClose].
  rewrite Hc. by rewrite IH.
Qed.

Lemma spanNotClose_spec s a b :
  varPattern.spanNotClose s = (a, b) → s = a +:+ b ∧ occurs "}" a = false.
Proof.
  revert a b. induction s as [|c s IH]; intros a b; simpl.
  { by intros [= <- <-]. }
  destruct (Ascii.eqb c "}") eqn:Hc.
  { by intros [= <- <-]. }
  destruct (varPattern.spanNotClose s) as [a' b'].
  intros [= <- <-]. destruct (IH a' b' eq_refl) as [-> Hocc].
  rewrite append_cons. cbn [occurs]. by rewrite Hc.
Qed.

Lemma matchAt_whole g rest :
  g ≠ "" → occurs "}" g = false →
  varPattern.matchAt (varPattern.whole g +:+ rest) = Some g.
Proof.
  intros Hne Hocc. unfold varPattern.whole. normalize_append.
  cbn [varPattern.matchAt]. rewrite spanNotClose_append by done. by destruct g.
Qed.

Lemma matchAt_Some s g :
  varPattern.matchAt s = Some g →
  ∃ rest, s = varPattern.whole g +:+ rest ∧ g ≠ "" ∧ occurs "}" g = false.
Proof.
  unfold varPattern.matchAt.
  destruct s as [|c1 [|c2 r]]; [done|done|].
  destruct (Ascii.eqb_spec c1 "{") as [->|]; [|done].
  destruct (Ascii.eqb_spec c2 "{") as [->|]; [|done]. simpl.
  destruct (varPattern.spanNotClose r) as [a b] eqn:Hspan.
  apply spanNotClose_spec in Hspan as [-> Hocc].
  destruct a as [|c a]; [done|].
  destruct b as [|d1 [|d2 rest]]; [done|done|].
  destruct (Ascii.eqb_spec d1 "}") as [->|]; [|done].
  destruct (Ascii.eqb_spec d2 "}") as [->|]; [|done]. simpl.
  intros [= <-]. exists rest. split_and!; [|done|done].
  unfold varPattern.whole. by normalize_append.
Qed.

Lemma scan_skip_all s : ∀ k, String.length s ≤ k → varPattern.scan s k = [].
Proof.
  induction s as [|c s IH]; intros k Hk; simpl in *; [done|].
  destruct k as [|k]; [lia|]. apply IH. lia.
Qed.

Lemma scan_at_match c r g :
  varPattern.matchAt (String c r) = Some g →
  varPattern.scan (String c r) 0
  = varPattern.Match g :: varPattern.scan r (String.length g + 3).
Proof. intros Hm. cbn [varPattern.scan]. by rewrite Hm. Qed.

(** The scan of a whole placeholder is one match. *)
Lemma scan_placeholder s g :
  isPlaceholder s g → varPattern.scan s 0 = [varPattern.Match g].
Proof.
  intros (-> & Hne & Hocc).
  pose proof (matchAt_whole g "" Hne Hocc) as Hm. rewrite append_nil_r in Hm.
  unfold varPattern.whole in *. revert Hm. normalize_append. intros Hm.
  rewrite (scan_at_match _ _ g Hm). f_equal. apply scan_skip_all.
  cbn [String.length]. rewrite length_append. simpl. lia.
Qed.

(** Every match of a scan is a whole placeholder. *)
Lemma scan_Match s : ∀ k g,
  varPattern.Match g ∈ varPattern.scan s k → g ≠ "" ∧ occurs "}" g = false.
Proof.
  induction s as [|c s IH]; intros k g; cbn [varPattern.scan].
  { by intros ?%elem_of_nil. }
  destruct k as [|k]; [|by apply IH].
  destruct (varPattern.matchAt (String c s)) as [g'|] eqn:Hm.
  - intros [[= ->]|Hin]%elem_of_cons; [|by eapply IH].
    by apply matchAt_Some in Hm as (rest & _ & ? & ?).
  - intros [[=]|Hin]%elem_of_cons. by eapply IH.
Qed.

(** The segments of a scan, put together again, are the string. *)
Lemma scan_text s : ∀ k,
  k ≤ String.length s → segmentsText (varPattern.scan s k) = strings.drop k s.
Proof.
  induction s as [|c s IH]; intros k Hk; cbn [varPattern.scan String.length] in *.
  { by destruct k. }
  destruct k as [|k]; [|apply IH; lia].
  destruct (varPattern.matchAt (String c s)) as [g|] eqn:Hm; cbn [segmentsText].
  - apply matchAt_Some in Hm as (rest & Hs & _ & _).
    unfold varPattern.whole in *. revert Hs. normalize_append.
    intros [= -> ->]. rewrite IH.
    + cbn [strings.drop]. f_equal. f_equal.
      replace (String.length g + 3)
        with (String.length (String "{" (g +:+ "}}"))).
      * rewrite <- (drop_append (String "{" (g +:+ "}}")) rest) at 2.
        by normalize_append.
      * cbn [String.length]. rewrite length_append. simpl. lia.
    + cbn [String.length]. rewrite !length_append. simpl. lia.
  - cbn [strings.drop]. f_equal. rewrite IH by lia. done.
Qed.

Lemma isPlaceholder_inj s g g' : isPlaceholder s g → isPlaceholder s g' → g = g'.
Proof.
  intros (-> & _) (Heq & _). unfold varPattern.whole in Heq.
  revert Heq. normalize_append. intros [= Heq]. symmetry.
  by eapply append_cancel_r.
Qed.

Lemma FindAllStringSubmatch_placeholder s g :
  isPlaceholder s g → varPattern.FindAllStringSubmatch s = [(s, g)].
Proof.
  intros Hp. unfold varPattern.FindAllStringSubmatch.
  rewrite (scan_placeholder s g Hp). simpl. by destruct Hp as (-> & _).
Qed.

Lemma FindAllStringSubmatch_single s m0 m1 :
  varPattern.FindAllStringSubmatch s = [(m0, m1)] → s = m0 → isPlaceholder s m1.
Proof.
  unfold varPattern.FindAllStringSubmatch. intros Hall ->.
  assert ((m0, m1) ∈ omap (λ seg, match seg with
                                   | varPattern.Match g => Some (varPattern.whole g, g)
                                   | varPattern.Lit _ => None
                                   end) (varPattern.scan m0 0)) as Hin.
  { rewrite Hall. by left. }
  apply list_elem_of_omap in Hin as (seg & Hseg & Hsome).
  destruct seg as [c|g]; [done|]. injection Hsome as <- <-.
  apply scan_Match in Hseg as [Hne Hocc]. by split.
Qed.

(** ** Placeholders that cannot be resolved *)

Section Unresolved.
Context `{Runtime}.

Lemma extractParts_nil ps : extractParts VNil ps = VNil.
Proof.
    destruct ps as [|part rest]; [done|]. cbn [extractParts].
    unfold extractStep, fieldOf, elementOf, jsonToMap, jsonToSlice.
    rewrite lookup_empty.
    destruct (isArray part); [|done].
    destruct (negb (String.eqb (name part) "")); [done|].
    simpl. rewrite lookup_nil. by destruct (_ && _).
Qed.

Lemma extractValue_unresolved e varPath w :
    unresolvedReference e varPath → extractValue e varPath w = (VNil, false, w).
Proof.
    unfold extractValue.
    intros [testName fieldPath Hrand Href Hres
           |testName fieldPath depResult Hrand Href Hres Hsrc
           |testName fieldPath depResult path sourceData Hrand Href Hres Hsrc Hpath Hnil];
      rewrite Hrand, Href, Hres; [done| |].
    - destruct Hsrc as [->|[path ->]]; [done|].
      destruct (String.eqb path ""); [done|].
      unfold extractFieldValue. by rewrite extractParts_nil.
    - rewrite Hsrc. apply String.eqb_neq in Hpath. rewrite Hpath, Hnil. done.
Qed.

Lemma replaceMatch_unresolved e match_ w :
    unresolvedReference e (strings.Trim match_ "{}") →
    replaceMatch e match_ w = (match_, w).
Proof.
    intros Hu. unfold replaceMatch, bind.
    by rewrite (extractValue_unresolved _ _ _ Hu).
Qed.

Lemma replaceSegments_unresolved e segs w :
    (∀ g, varPattern.Match g ∈ segs →
          unresolvedReference e (strings.Trim (varPattern.whole g) "{}")) →
    replaceSegments e segs w = (segmentsText segs, w).
Proof.
    induction segs as [|[c|g] segs IH]; intros Hu; cbn [replaceSegments segmentsText].
    - done.
    - unfold bind. rewrite IH; [done|]. intros g Hg. apply Hu. by right.
    - unfold bind. rewrite replaceMatch_unresolved by (apply Hu; by left).
      rewrite IH; [done|]. intros g' Hg. apply Hu. by right.
Qed.

Lemma replaceInString_unresolved e s w :
    (∀ g, varPattern.Match g ∈ varPattern.scan s 0 →
          unresolvedReference e (strings.Trim (varPattern.whole g) "{}")) →
    replaceInString e s w = (s, w).
Proof.
    intros Hu. unfold replaceInString. rewrite replaceSegments_unresolved by done.
    by rewrite scan_text by lia.
Qed.

Lemma replaceInInterface_unresolved e s w :
    (∀ g, varPattern.Match g ∈ varPattern.scan s 0 →
          unresolvedReference e (strings.Trim (varPattern.whole g) "{}")) →
    (∀ g, isPlaceholder (strings.TrimSpace s) g → unresolvedReference e g) →
    replaceInInterface e (VString s) w = (VString s, w).
Proof.
    intros Hu Hwhole. cbn [replaceInInterface].
    assert (Hstring : bind (replaceInString e s) (λ s', ret (VString s')) w
                      = (VString s, w)).
    { unfold bind. by rewrite replaceInString_unresolved. }
    destruct (varPattern.FindAllStringSubmatch (strings.TrimSpace s))
      as [|[m0 m1] [|? ?]] eqn:Hall; try done.
    destruct (String.eqb_spec (strings.TrimSpace s) m0) as [Heq|]; [|done].
    unfold bind at 1.
    rewrite (extractValue_unresolved e m1 w); [done|].
    apply Hwhole. by eapply FindAllStringSubmatch_single.
Qed.

Lemma replaceInInterface_VMap e (val : gmap string Value) :
    replaceInInterface e (VMap val)
    = bind (map_fold (λ k x acc,
              bind acc (λ result,
                bind (replaceInInterface e x) (λ x', ret (<[k := x']> result))))
              (ret ∅) val)
           (λ result, ret (VMap result)).
Proof. reflexivity. Qed.

  (** What is to the left and to the right of a segment is substituted
      on its own. *)
Lemma replaceSegments_app e (a : list varPattern.Segment) : ∀ b w,
    replaceSegments e (a ++ b) w
    = (fst (replaceSegments e a w)
       +:+ fst (replaceSegments e b (snd (replaceSegments e a w))),
       snd (replaceSegments e b (snd (replaceSegments e a w)))).
Proof.
    induction a as [|[c|g] a IH]; intros b w; cbn [app replaceSegments].
    - unfold ret. cbn [fst snd]. rewrite append_nil_l.
      by destruct (replaceSegments e b w).
    - unfold bind, ret. rewrite IH.
      destruct (replaceSegments e a w) as [x w1]. cbn [fst snd].
      by destruct (replaceSegments e b w1).
    - unfold bind, ret.
      destruct (replaceMatch e (varPattern.whole g) w) as [r w1]. rewrite IH.
      destruct (replaceSegments e a w1) as [x w2]. cbn [fst snd].
      destruct (replaceSegments e b w2) as [y w3]. cbn [fst snd].
      by rewrite append_assoc.
Qed.

Lemma segmentsText_app (a b : list varPattern.Segment) :
    segmentsText (a ++ b) = segmentsText a +:+ segmentsText b.
Proof.
    induction a as [|[c|g] a IH]; cbn [app segmentsText]; [done| |].
    - by rewrite IH.
    - by rewrite IH, append_assoc.
Qed.

Lemma replaceInString_at e s pre g post w :
    varPattern.scan s 0 = pre ++ varPattern.Match g :: post →
    unresolvedReference e (strings.Trim (varPattern.whole g) "{}") →
    s = segmentsText pre +:+ varPattern.whole g +:+ segmentsText post
    ∧ replaceInString e s w
      = (fst (replaceSegments e pre w) +:+ varPattern.whole g
         +:+ fst (replaceSegments e post (snd (replaceSegments e pre w))),
         snd (replaceSegments e post (snd (replaceSegments e pre w)))).
Proof.
    intros Hscan Hu. split.
    - rewrite <- (scan_text s 0) at 1 by lia. cbn [strings.drop].
      rewrite Hscan, segmentsText_app. done.
    - unfold replaceInString. rewrite Hscan, replaceSegments_app.
      assert (Hhere : ∀ w1,
        replaceSegments e (varPattern.Match g :: post) w1
        = (varPattern.whole g +:+ fst (replaceSegments e post w1),
           snd (replaceSegments e post w1))).
      { intros w1. cbn [replaceSegments]. unfold bind, ret.
        rewrite (replaceMatch_unresolved e _ _ Hu).
        by destruct (replaceSegments e post w1). }
      by rewrite Hhere.
Qed.

  (** In a structured field a string goes through string substitution,
      unless it is one whole placeholder that resolves. *)
Lemma replaceInInterface_as_string e s w :
    (∀ g, isPlaceholder (strings.TrimSpace s) g → unresolvedReference e g) →
    replaceInInterface e (VString s) w
    = (VString (fst (replaceInString e s w)), snd (replaceInString e s w)).
Proof.
    intros Hwhole. cbn [replaceInInterface].
    assert (Hstring : bind (replaceInString e s) (λ s', ret (VString s')) w
      = (VString (fst (replaceInString e s w)), snd (replaceInString e s w))).
    { unfold bind, ret. by destruct (replaceInString e s w). }
    destruct (varPattern.FindAllStringSubmatch (strings.TrimSpace s))
      as [|[m0 m1] [|? ?]] eqn:Hall; try done.
    destruct (String.eqb_spec (strings.TrimSpace s) m0) as [Heq|]; [|done].
    unfold bind at 1.
    rewrite (extractValue_unresolved e m1 w); [done|].
    apply Hwhole. by eapply FindAllStringSubmatch_single.
Qed.

  (** The whole body of a response that has none is found: the nil map
      is a value as the code tests it. *)
Lemma extractValue_without_JSON e varPath w :
    wholeBodyWithoutJSON e varPath → extractValue e varPath w = (VMap ∅, true, w).
Proof.
    intros (testName & fieldPath & depResult & resp
            & Hrand & Href & Hres & Hresp & Hbody & Hpath).
    unfold extractValue. rewrite Hrand, Href, Hres.
    unfold sourceOf. rewrite Hresp, Hbody. by destruct Hpath as [->| ->].
Qed.

  (** C7. A placeholder whose expression refers to a test and for which
      [extractValue] finds no value — the test has no stored result, the
      result has no response or the request no body, or its field path
      leads to nothing — is replaced by its own text; where no
      placeholder of a string can be resolved, the string comes out of
      substitution as it went in, inside a path or a header and inside
      a structured field; and with no result stored for the name
      [missing], the text [{{missing.response.x}}] stays in a string and
      in a body.  Such a placeholder stays where it is whatever else the
      string holds: what is to its left and to its right is substituted
      on its own, and a string of a structured field that is no whole
      placeholder that resolves goes through the same substitution.
      One absent payload is not treated so: a placeholder for the whole
      response body of a test whose response was not JSON is replaced,
      by the text [map[]] in a string and by the empty map as a whole
      placeholder. *)
Theorem unresolved_placeholder_left (e : Executor.t) :
    (∀ g w, unresolvedReference e (strings.Trim (varPattern.whole g) "{}") →
            replaceMatch e (varPattern.whole g) w = (varPattern.whole g, w))
    ∧ (∀ s w,
         (∀ g, varPattern.Match g ∈ varPattern.scan s 0 →
               unresolvedReference e (strings.Trim (varPattern.whole g) "{}")) →
         replaceInString e s w = (s, w)
         ∧ ((∀ g, isPlaceholder (strings.TrimSpace s) g → unresolvedReference e g) →
            replaceInInterface e (VString s) w = (VString s, w)))
    ∧ (getResult e "missing" = None →
       ∀ w, replaceInString e "/items/{{missing.response.x}}" w
            = ("/items/{{missing.response.x}}", w)
            ∧ replaceInInterface e (RequestConfig.Body (APITest.Request exampleMissing)) w
              = (RequestConfig.Body (APITest.Request exampleMissing), w))
    ∧ (∀ s pre g post w,
         varPattern.scan s 0 = pre ++ varPattern.Match g :: post →
         unresolvedReference e (strings.Trim (varPattern.whole g) "{}") →
         s = segmentsText pre +:+ varPattern.whole g +:+ segmentsText post
         ∧ replaceInString e s w
           = (fst (replaceSegments e pre w) +:+ varPattern.whole g
              +:+ fst (replaceSegments e post (snd (replaceSegments e pre w))),
              snd (replaceSegments e post (snd (replaceSegments e pre w)))))
    ∧ (∀ s w,
         (∀ g, isPlaceholder (strings.TrimSpace s) g → unresolvedReference e g) →
         replaceInInterface e (VString s) w
         = (VString (fst (replaceInString e s w)), snd (replaceInString e s w)))
    ∧ (∀ g w,
         wholeBodyWithoutJSON e (strings.Trim (varPattern.whole g) "{}") →
         replaceMatch e (varPattern.whole g) w = ("map[]", w))
    ∧ (∀ s g w,
         isPlaceholder (strings.TrimSpace s) g → wholeBodyWithoutJSON e g →
         replaceInInterface e (VString s) w = (VMap ∅, w)).
Proof.
    split_and!.
    - intros g w. apply replaceMatch_unresolved.
    - intros s w Hu. split; [by apply replaceInString_unresolved|].
      by apply replaceInInterface_unresolved.
    - intros Hmissing w.
      assert (Hu : unresolvedReference e "missing.response.x").
      { by eapply (unresolved_no_result e _ "missing" "response.x"). }
      split.
      + apply replaceInString_unresolved. intros g.
        change (varPattern.scan "/items/{{missing.response.x}}" 0)
          with (map varPattern.Lit (list_ascii_of_string "/items/")
                ++ [varPattern.Match "missing.response.x"]).
        intros [Hin|Hin%list_elem_of_singleton]%elem_of_app.
        * apply list_elem_of_fmap in Hin as (c & [=] & _).
        * injection Hin as ->. exact Hu.
      + change (RequestConfig.Body (APITest.Request exampleMissing))
          with (VMap {["id" := VString "{{missing.response.x}}"]}).
        rewrite replaceInInterface_VMap. unfold bind at 1.
        rewrite map_fold_singleton. unfold bind at 1. unfold ret at 1.
        unfold bind at 1.
        rewrite replaceInInterface_unresolved; [by rewrite insert_empty| |].
        * intros g. change (varPattern.scan "{{missing.response.x}}" 0)
            with [varPattern.Match "missing.response.x"].
          intros Hin%list_elem_of_singleton. injection Hin as ->. exact Hu.
        * change (strings.TrimSpace "{{missing.response.x}}")
            with (varPattern.whole "missing.response.x").
          intros g Hg.
          assert (g = "missing.response.x") as ->; [|exact Hu].
          eapply isPlaceholder_inj; [exact Hg|]. by split.
    - intros s pre g post w. apply replaceInString_at.
    - intros s w. apply replaceInInterface_as_string.
    - intros g w Hbody. unfold replaceMatch, bind.
      by rewrite (extractValue_without_JSON _ _ _ Hbody).
    - intros s g w Hp Hbody. cbn [replaceInInterface].
      rewrite (FindAllStringSubmatch_placeholder _ _ Hp), String.eqb_refl.
      unfold bind at 1. by rewrite (extractValue_without_JSON _ _ _ Hbody).
Qed.
End Unresolved.

Lemma unresolved_placeholder_left_witness :
  getResult (executorOf [exampleMissing]) "missing" = None
  ∧ replaceInString (executorOf [exampleMissing])
      "/items/{{missing.response.x}}" (Scripted.mkWorld [] 0)
    = ("/items/{{missing.response.x}}", Scripted.mkWorld [] 0)
  ∧ replaceInInterface (executorOf [exampleMissing])
      (RequestConfig.Body (APITest.Request exampleMissing))
      (Scripted.mkWorld [] 0)
    = (RequestConfig.Body (APITest.Request exampleMissing),
       Scripted.mkWorld [] 0).
Proof.
  split; [reflexivity|].
  destruct (unresolved_placeholder_left (H := Scripted.runtime)
              (executorOf [exampleMissing])) as (_ & _ & Hmissing & _).
  apply Hmissing. reflexivity.
Defined.

(** The same from end to end in the scripted world: the request handed
    to the client has the placeholder in its body as it was written. *)
Example missing_reference_sent_unchanged :
  sent (snd (Execute (executorOf [exampleMissing])
               (Scripted.start [Scripted.json 200 ∅])))
  = [("t", APITest.Request exampleMissing)].
Proof. vm_compute. reflexivity. Qed.

(** One placeholder that resolves and one that does not, in one string:
    the first is replaced and the second stays. *)
Example mixed_placeholders :
  fst (replaceInString exampleStored
         "/items/{{create.response.data.name}}/{{missing.x}}/{{create.response.y}}"
         (Scripted.mkWorld [] 0))
  = "/items/x/{{missing.x}}/{{create.response.y}}"
  ∧ fst (replaceInInterface exampleStored
           (VString "{{missing.x}}-{{create.response.data.name}}")
           (Scripted.mkWorld [] 0))
    = VString "{{missing.x}}-x".
Proof. split; vm_compute; reflexivity. Qed.

(** After a response that is not JSON, the placeholder for its whole
    body is not left in the path: the request goes to [/items/map[]]. *)
Example whole_body_without_JSON :
  wholeBodyWithoutJSON examplePlain "create"
  ∧ fst (replaceInString examplePlain "/items/{{create}}" (Scripted.mkWorld [] 0))
    = "/items/map[]"
  ∧ fst (replaceInString examplePlain "/items/{{create.response.}}"
           (Scripted.mkWorld [] 0))
    = "/items/map[]"
  ∧ fst (replaceInString examplePlain "/items/{{create.response.id}}"
           (Scripted.mkWorld [] 0))
    = "/items/{{create.response.id}}".
Proof.
  split_and!; try (vm_compute; reflexivity).
  eexists "create", "", _, _. split_and!; try reflexivity. by left.
Qed.

(** ** Whole numbers among the [float64]s *)

Lemma digits2_pos_bound (m : positive) : (Zpos m < 2 ^ Zpos (digits2_pos m))%Z.
Proof.
  induction m as [m IH|m IH|]; simpl; [| |done].
  - rewrite Pos2Z.inj_succ, Z.pow_succ_r by lia. lia.
  - rewrite Pos2Z.inj_succ, Z.pow_succ_r by lia. lia.
Qed.

Lemma valid_mantissa s m e :
  float64.valid (S754_finite s m e) = true → (Zpos m < 2 ^ 53)%Z.
Proof.
  unfold float64.valid, valid_binary, bounded, canonical_mantissa, fexp, emin.
  intros [Hc _]%andb_true_iff. apply Z.eqb_eq in Hc.
  pose proof (digits2_pos_bound m) as Hd.
  assert (Zpos (digits2_pos m) ≤ 53)%Z by lia.
  eapply Z.lt_le_trans; [exact Hd|]. apply Z.pow_le_mono_r; lia.
Qed.

(** An integer with a 53-bit mantissa is a [float64]: its conversion
    does not round. *)
Lemma roundInt_exact (m e z : Z) :
  (0 < m < 2 ^ 53)%Z → (0 ≤ e)%Z → Z.abs z = (m * 2 ^ e)%Z →
  float64.roundInt z = z.
Proof.
  intros Hm He Hz. unfold float64.roundInt. rewrite Hz.
  assert (Hpos : (0 < m * 2 ^ e)%Z) by (apply Z.mul_pos_pos; [lia|by apply Z.pow_pos_nonneg]).
  destruct (Z.leb_spec (Z.log2 (m * 2 ^ e) + 1) 53) as [|Hbig]; [done|].
  rewrite Z.log2_mul_pow2 in * by lia.
  assert (Z.log2 m < 53)%Z by (apply Z.log2_lt_pow2; lia).
  set (k := (e + Z.log2 m + 1 - 53)%Z) in *.
  assert (Hk : (0 < k ≤ e)%Z) by lia.
  assert (Hsplit : (m * 2 ^ e = (m * 2 ^ (e - k)) * 2 ^ k)%Z).
  { rewrite <- Z.mul_assoc, <- Z.pow_add_r by lia. do 2 f_equal. lia. }
  rewrite Z.land_ones by lia. rewrite Z.shiftr_div_pow2 by lia.
  rewrite !Z.shiftl_mul_pow2 by lia.
  assert (Hk2 : (0 < 2 ^ k)%Z) by (apply Z.pow_pos_nonneg; lia).
  assert (Hmod : ((m * 2 ^ e) mod 2 ^ k = 0)%Z).
  { rewrite Hsplit. apply Z.mod_mul. lia. }
  assert (Hdiv : ((m * 2 ^ e) / 2 ^ k * 2 ^ k = m * 2 ^ e)%Z).
  { rewrite Hsplit at 1. rewrite Z.div_mul by lia. by rewrite <- Hsplit. }
  rewrite Hmod.
  assert (0 < 1 * 2 ^ (k - 1))%Z as Hhalf
    by (rewrite Z.mul_1_l; apply Z.pow_pos_nonneg; lia).
  apply Z.ltb_lt in Hhalf. rewrite Hhalf, Hdiv, <- Hz. 
  destruct z; simpl; lia.
Qed.

Lemma roundInt_small z : (Z.abs z < 2 ^ 53)%Z → float64.roundInt z = z.
Proof.
  intros Hz. unfold float64.roundInt.
  destruct (Z.leb_spec (Z.log2 (Z.abs z) + 1) 53) as [|Hbig]; [done|].
  destruct (Z.eq_dec (Z.abs z) 0%Z) as [Hz0|Hz0].
  { rewrite Hz0 in Hbig. simpl in Hbig. lia. }
  assert (Z.log2 (Z.abs z) < 53)%Z by (apply Z.log2_lt_pow2; lia). lia.
Qed.

(** A [float64] that denotes the integer [z] has [z] for its integer
    part and converts back to itself. *)
Lemma eqInt_trunc f z :
  float64.eqInt f z = true → float64.trunc f = Some z.
Proof.
  destruct f as [s| | |s m e]; simpl; try done.
  { by intros ->%Z.eqb_eq. }
  destruct (Z.leb_spec 0 e) as [He|He].
  - intros <-%Z.eqb_eq. rewrite Z.shiftl_mul_pow2 by done. f_equal.
    destruct s; lia.
  - intros Hm%Z.eqb_eq. rewrite Z.shiftl_div_pow2 by lia. f_equal.
    assert (0 < 2 ^ (- e))%Z by (apply Z.pow_pos_nonneg; lia).
    destruct s.
    + assert (Zpos m = (- z) * 2 ^ (- e))%Z as -> by lia.
      rewrite Z.div_mul by lia. lia.
    + rewrite Hm. by rewrite Z.div_mul by lia.
Qed.

Lemma eqInt_roundInt f z :
  float64.valid f = true → float64.eqInt f z = true → float64.roundInt z = z.
Proof.
  destruct f as [s| | |s m e]; try done.
  { simpl. by intros _ ->%Z.eqb_eq. }
  intros Hv%valid_mantissa. simpl.
  destruct (Z.leb_spec 0 e) as [He|He].
  - intros <-%Z.eqb_eq. apply (roundInt_exact (Zpos m) e); [lia|done|].
    assert (0 < 2 ^ e)%Z by (apply Z.pow_pos_nonneg; lia).
    destruct s; [|by rewrite Z.abs_eq by lia].
    rewrite <- Pos2Z.opp_pos, Z.mul_opp_l, Z.abs_opp. by rewrite Z.abs_eq by lia.
  - intros Hm%Z.eqb_eq. apply roundInt_small.
    assert (1 ≤ 2 ^ (- e))%Z by (apply Z.lt_pred_le; apply Z.pow_pos_nonneg; lia).
    generalize dependent (2 ^ (- e))%Z. intros p Hm Hp.
    destruct s; [apply (f_equal Z.opp) in Hm; simpl in Hm|]; nia.
Qed.

(** A [float64] denotes one number. *)
Lemma eqInt_unique f z v :
  float64.eqInt f z = true → float64.eqInt f v = Z.eqb v z.
Proof.
  destruct f as [s| | |s m e]; simpl; try done.
  { intros ->%Z.eqb_eq. done. }
  destruct (Z.leb_spec 0 e) as [He|He].
  - intros <-%Z.eqb_eq. apply Z.eqb_sym.
  - intros Hm%Z.eqb_eq. rewrite Hm.
    assert (0 < 2 ^ (- e))%Z by (apply Z.pow_pos_nonneg; lia).
    destruct (Z.eqb_spec v z) as [->|Hne]; [apply Z.eqb_refl|].
    apply Z.eqb_neq. nia.
Qed.

Lemma wrap64_range z : (minInt64 ≤ wrap64 z ≤ maxInt64)%Z.
Proof.
  unfold wrap64, minInt64, maxInt64.
  pose proof (Z.mod_pos_bound (z + 2 ^ 63) (2 ^ 64)%Z ltac:(lia)). lia.
Qed.

(** The [float64] of an [int64] lies between [-2^63] and [2^63]. *)
Lemma roundInt_bound n :
  (minInt64 ≤ n ≤ maxInt64)%Z → (- 2 ^ 63 ≤ float64.roundInt n ≤ 2 ^ 63)%Z.
Proof.
  unfold minInt64, maxInt64. intros Hn.
  destruct (Z.eq_dec n (- 2 ^ 63)%Z) as [->|Hmin]; [by vm_compute|].
  unfold float64.roundInt.
  destruct (Z.leb_spec (Z.log2 (Z.abs n) + 1) 53) as [|Hbig]; [lia|].
  assert (Ha : (0 < Z.abs n < 2 ^ 63)%Z).
  { split; [|lia]. destruct (Z.eq_dec (Z.abs n) 0%Z) as [H0|]; [|lia].
    rewrite H0 in Hbig. simpl in Hbig. lia. }
  set (a := Z.abs n) in *.
  assert (HL : (Z.log2 a ≤ 62)%Z).
  { assert (Z.log2 a < 63)%Z by (apply Z.log2_lt_pow2; lia). lia. }
  set (k := (Z.log2 a + 1 - 53)%Z) in *.
  assert (Hk : (0 < k ≤ 10)%Z) by lia.
  rewrite Z.shiftr_div_pow2, !Z.shiftl_mul_pow2 by lia.
  assert (H2k : (0 < 2 ^ k)%Z) by (apply Z.pow_pos_nonneg; lia).
  assert (Hq : (a / 2 ^ k < 2 ^ 53)%Z).
  { apply Z.div_lt_upper_bound; [done|].
    rewrite <- Z.pow_add_r by lia.
    replace (k + 53)%Z with (Z.succ (Z.log2 a)) by lia.
    apply Z.log2_spec. lia. }
  assert (Hq0 : (0 ≤ a / 2 ^ k)%Z) by (apply Z.div_pos; lia).
  assert (Hpow : (2 ^ 53 * 2 ^ k ≤ 2 ^ 63)%Z).
  { rewrite <- Z.pow_add_r by lia. apply Z.pow_le_mono_r; lia. }
  match goal with
  | |- (_ ≤ Z.sgn n * (?q' * 2 ^ k) ≤ _)%Z =>
    assert (Hq' : (0 ≤ q' ≤ 2 ^ 53)%Z)
  end.
  { repeat case_match; lia. }
  match goal with
  | |- (_ ≤ Z.sgn n * (?q' * 2 ^ k) ≤ _)%Z =>
    generalize dependent q'
  end.
  intros q' Hq'.
  assert (0 ≤ q' * 2 ^ k ≤ 2 ^ 63)%Z by nia.
  destruct n; simpl; lia.
Qed.

Section WholePlaceholder.
Context `{Runtime}.

  (** A whole number that no [int64] holds.  The conversion to [int64]
      is left to the platform; the [float64] is replaced by what the
      platform gives only when that converts back to it, which no
      [int64] does unless the number is [2^63]. *)
Lemma normalizeNumber_outside f z :
    float64.eqInt f z = true → ¬ (minInt64 ≤ z ≤ maxInt64)%Z →
    normalizeNumber (VFloat64 f)
    = (if Z.eqb (float64.roundInt (wrap64 (indefinite f))) z
       then VInt64 (wrap64 (indefinite f)) else VFloat64 f)
    ∧ (z ≠ (2 ^ 63)%Z → normalizeNumber (VFloat64 f) = VFloat64 f).
Proof.
    intros He Hout.
    assert (Hnorm : normalizeNumber (VFloat64 f)
      = (if Z.eqb (float64.roundInt (wrap64 (indefinite f))) z
         then VInt64 (wrap64 (indefinite f)) else VFloat64 f)).
    { unfold normalizeNumber, float64.isWhole, float64.toInt64.
      rewrite (eqInt_trunc f z He).
      assert (Z.leb minInt64 z && Z.leb z maxInt64 = false) as ->.
      { apply andb_false_iff. destruct (Z.leb_spec minInt64 z); [|by left].
        destruct (Z.leb_spec z maxInt64); [lia|by right]. }
      by rewrite (eqInt_unique f z _ He). }
    split; [done|]. intros Hz. rewrite Hnorm.
    pose proof (roundInt_bound _ (wrap64_range (indefinite f))) as Hb.
    destruct (Z.eqb_spec (float64.roundInt (wrap64 (indefinite f))) z) as [Heq|];
      [|done].
    unfold minInt64, maxInt64 in Hout. lia.
Qed.

Lemma normalizeNumber_whole f z :
    float64.valid f = true → float64.eqInt f z = true →
    (minInt64 ≤ z ≤ maxInt64)%Z →
    normalizeNumber (VFloat64 f) = VInt64 z.
Proof.
    intros Hv He [Hlo Hhi]. unfold normalizeNumber, float64.isWhole, float64.toInt64.
    rewrite (eqInt_trunc f z He).
    apply Z.leb_le in Hlo, Hhi. rewrite Hlo, Hhi. simpl.
    by rewrite (eqInt_roundInt f z Hv He), He.
Qed.

Lemma normalizeNumber_fraction f :
    (∀ z, float64.eqInt f z = false) → normalizeNumber (VFloat64 f) = VFloat64 f.
Proof. intros Hf. unfold normalizeNumber, float64.isWhole. by rewrite Hf. Qed.

Lemma normalizeNumber_other value :
    (∀ f, value ≠ VFloat64 f) → normalizeNumber value = value.
Proof. intros Hv. destruct value; try done. by destruct (Hv f). Qed.

Lemma replaceInInterface_VString e val :
    replaceInInterface e (VString val)
    = match varPattern.FindAllStringSubmatch (strings.TrimSpace val) with
      | [(m0, m1)] =>
        if String.eqb (strings.TrimSpace val) m0 then
          bind (extractValue e m1) (λ x,
            match x with
            | (value, ok) =>
              if ok : bool then ret (normalizeNumber value)
              else bind (replaceInString e val) (λ s, ret (VString s))
            end)
        else bind (replaceInString e val) (λ s, ret (VString s))
      | _ => bind (replaceInString e val) (λ s, ret (VString s))
      end.
Proof. reflexivity. Qed.

  (** The headers are a map of strings: every header of the processed
      request is the string built by string substitution from the header
      of that key as it is declared. *)
Lemma headers_fold e (hs : gmap string string) :
    ∀ w k,
      match hs !! k with
      | Some v =>
        ∃ w', fst (map_fold (λ k v acc,
                     bind acc (λ processedHeaders : gmap string string,
                       bind (replaceInString e v) (λ v',
                         ret (<[k := v']> processedHeaders))))
                     (ret (∅ : gmap string string)) hs w) !! k
              = Some (fst (replaceInString e v w'))
      | None =>
        fst (map_fold (λ k v acc,
               bind acc (λ processedHeaders : gmap string string,
                 bind (replaceInString e v) (λ v',
                   ret (<[k := v']> processedHeaders))))
               (ret (∅ : gmap string string)) hs w) !! k = None
      end.
Proof.
    apply (map_fold_weak_ind (λ (r : IO (gmap string string)) m, ∀ w k,
             match m !! k with
             | Some v => ∃ w', fst (r w) !! k = Some (fst (replaceInString e v w'))
             | None => fst (r w) !! k = None
             end)).
    - intros w k. by rewrite lookup_empty.
    - intros i x m r Hi IH w k. unfold bind, ret. specialize (IH w k).
      destruct (r w) as [p w1]. destruct (replaceInString e x w1) as [v' w2] eqn:Hx.
      simpl in *. destruct (decide (i = k)) as [->|Hne].
      + rewrite !lookup_insert_eq. exists w1. by rewrite Hx.
      + by rewrite !lookup_insert_ne by done.
Qed.

Lemma replaceVariables_headers e apiTest w k :
    match RequestConfig.Headers (APITest.Request apiTest) !! k with
    | Some v =>
      ∃ w', RequestConfig.Headers
              (APITest.Request (fst (replaceVariables e apiTest w))) !! k
            = Some (fst (replaceInString e v w'))
    | None =>
      RequestConfig.Headers
        (APITest.Request (fst (replaceVariables e apiTest w))) !! k = None
    end.
Proof.
    assert (∃ w3,
      RequestConfig.Headers (APITest.Request (fst (replaceVariables e apiTest w)))
      = fst (map_fold (λ k v acc,
               bind acc (λ processedHeaders : gmap string string,
                 bind (replaceInString e v) (λ v',
                   ret (<[k := v']> processedHeaders))))
               (ret (∅ : gmap string string))
               (RequestConfig.Headers (APITest.Request apiTest)) w3)) as [w3 ->].
    { unfold replaceVariables. unfold bind at 1.
      destruct (replaceInString e _ w) as [path w1]. unfold bind at 1.
      destruct (replaceInInterface e _ w1) as [query w2]. unfold bind at 1.
      match goal with
      | |- context [let (_, _) := ?m w2 in _] => destruct (m w2) as [body w3]
      end.
      exists w3. unfold bind at 1.
      match goal with
      | |- context [let (_, _) := ?m w3 in _] => by destruct (m w3)
      end. }
    apply headers_fold.
Qed.

  (** Inside a map every entry is substituted on its own, and inside a
      list every element. *)
Lemma replaceInInterface_entries e (m : gmap string Value) (w : World) (k : string) :
    ∃ r, fst (replaceInInterface e (VMap m) w) = VMap r
         ∧ match m !! k with
           | Some v => ∃ w', r !! k = Some (fst (replaceInInterface e v w'))
           | None => r !! k = None
           end.
Proof.
    rewrite replaceInInterface_VMap. unfold bind at 1.
    match goal with
    | |- context [let (_, _) := ?fold w in _] =>
      assert (Hfold : match m !! k with
                      | Some v => ∃ w', fst (fold w) !! k
                                        = Some (fst (replaceInInterface e v w'))
                      | None => fst (fold w) !! k = None
                      end);
      [|destruct (fold w) as [r w1]; by exists r]
    end.
    revert w k.
    apply (map_fold_weak_ind (λ (r : IO (gmap string Value)) m', ∀ w k,
             match m' !! k with
             | Some v => ∃ w', fst (r w) !! k = Some (fst (replaceInInterface e v w'))
             | None => fst (r w) !! k = None
             end)).
    - intros w k. by rewrite lookup_empty.
    - intros i x m' r Hi IH w k. unfold bind, ret. specialize (IH w k).
      destruct (r w) as [p w1].
      destruct (replaceInInterface e x w1) as [x' w2] eqn:Hx.
      simpl in *. destruct (decide (i = k)) as [->|Hne].
      + rewrite !lookup_insert_eq. exists w1. by rewrite Hx.
      + by rewrite !lookup_insert_ne by done.
Qed.

Lemma mapIO_elements e (l : list Value) : ∀ w,
    length (fst (mapIO (replaceInInterface e) l w)) = length l
    ∧ ∀ i v, l !! i = Some v →
        ∃ w', fst (mapIO (replaceInInterface e) l w) !! i
              = Some (fst (replaceInInterface e v w')).
Proof.
    induction l as [|x l IH]; intros w; [done|].
    assert (Heq : fst (mapIO (replaceInInterface e) (x :: l) w)
                  = fst (replaceInInterface e x w)
                    :: fst (mapIO (replaceInInterface e) l
                              (snd (replaceInInterface e x w)))).
    { cbn [mapIO]. unfold bind, ret.
      destruct (replaceInInterface e x w) as [y w1]. cbn [fst snd].
      by destruct (mapIO (replaceInInterface e) l w1). }
    rewrite Heq. destruct (IH (snd (replaceInInterface e x w))) as [Hlen Hall].
    split; [simpl; by rewrite Hlen|]. intros [|i] v Hi; simpl in *.
    - injection Hi as <-. by exists w.
    - by apply Hall.
Qed.

Lemma replaceInInterface_elements e (l : list Value) (w : World) :
    ∃ r, fst (replaceInInterface e (VSlice l) w) = VSlice r
         ∧ length r = length l
         ∧ ∀ i v, l !! i = Some v →
             ∃ w', r !! i = Some (fst (replaceInInterface e v w')).
Proof.
    cbn [replaceInInterface]. unfold bind at 1.
    destruct (mapIO_elements e l w) as [Hlen Hall].
    destruct (mapIO (replaceInInterface e) l w) as [r w1]. by exists r.
Qed.

  (** The query and the body of the processed request are those of the
      declared request after this substitution; the body is then
      converted when a schema is declared. *)
Lemma replaceVariables_query_body e apiTest w :
    ∃ w1 w2,
      VMap (RequestConfig.Query (APITest.Request (fst (replaceVariables e apiTest w))))
      = fst (replaceInInterface e
               (VMap (RequestConfig.Query (APITest.Request apiTest))) w1)
      ∧ RequestConfig.Body (APITest.Request (fst (replaceVariables e apiTest w)))
        = (if isNil (RequestConfig.Body (APITest.Request apiTest))
           then RequestConfig.Body (APITest.Request apiTest)
           else if Nat.ltb 0 (size (RequestConfig.BodySchema (APITest.Request apiTest)))
           then convertBodyToSchemaTypes
                  (fst (replaceInInterface e
                          (RequestConfig.Body (APITest.Request apiTest)) w2))
                  (RequestConfig.BodySchema (APITest.Request apiTest))
           else fst (replaceInInterface e
                       (RequestConfig.Body (APITest.Request apiTest)) w2)).
Proof.
    destruct (replaceInInterface_entries e
                (RequestConfig.Query (APITest.Request apiTest))
                (snd (replaceInString e
                        (RequestConfig.Path (APITest.Request apiTest)) w)) "")
      as (r & Hr & _).
    unfold replaceVariables, bind, ret.
    destruct (replaceInString e _ w) as [path w1]. cbn [snd] in Hr.
    exists w1.
    destruct (replaceInInterface e
                (VMap (RequestConfig.Query (APITest.Request apiTest))) w1)
      as [query w2] eqn:Hq.
    cbn [fst] in Hr. subst query. exists w2.
    destruct (isNil (RequestConfig.Body (APITest.Request apiTest))) eqn:Hnil.
    - match goal with
      | |- context [let (_, _) := ?m w2 in _] => by destruct (m w2)
      end.
    - destruct (replaceInInterface e
                  (RequestConfig.Body (APITest.Request apiTest)) w2)
        as [body w3] eqn:Hb.
      destruct (Nat.ltb 0 (size (RequestConfig.BodySchema (APITest.Request apiTest))));
        match goal with
        | |- context [let (_, _) := ?m w3 in _] => by destruct (m w3)
        end.
Qed.

  (** C5, amended.  In the query map and in the body, a string that is
      one whole placeholder once the white space around it is trimmed is
      replaced by the value the placeholder resolves to, of the type it
      has; a [float64] that denotes an integer of 64 bits becomes that
      integer, one that denotes no integer stays as it is, and so does
      every value of another type.  A [float64] that denotes a whole
      number no [int64] holds stays as it is, unless the number is
      [2^63]: there the result is left to the platform, and is the
      [int64] that its conversion gives when that converts back to
      [2^63], and the [float64] otherwise.  When the placeholder does
      not resolve, and for every string that is not one whole
      placeholder after trimming, the result is the string built by
      string substitution.  The headers are strings: each header of the
      processed request is built by string substitution, whatever its
      text.  The substitution goes into every entry of a map and every
      element of a list; the query of the processed request is the
      declared one after it, and so is the body when no schema is
      declared for it. *)
Theorem whole_placeholder_keeps_type (e : Executor.t) (val : string) (w : World) :
    (∀ g value w',
       isPlaceholder (strings.TrimSpace val) g →
       extractValue e g w = (value, true, w') →
       replaceInInterface e (VString val) w = (normalizeNumber value, w'))
    ∧ (∀ g value w',
         isPlaceholder (strings.TrimSpace val) g →
         extractValue e g w = (value, false, w') →
         replaceInInterface e (VString val) w
         = (VString (fst (replaceInString e val w')), snd (replaceInString e val w')))
    ∧ ((∀ g, ¬ isPlaceholder (strings.TrimSpace val) g) →
       replaceInInterface e (VString val) w
       = (VString (fst (replaceInString e val w)), snd (replaceInString e val w)))
    ∧ (∀ f z, float64.valid f = true → float64.eqInt f z = true →
              (minInt64 ≤ z ≤ maxInt64)%Z →
              normalizeNumber (VFloat64 f) = VInt64 z)
    ∧ (∀ f, (∀ z, float64.eqInt f z = false) →
            normalizeNumber (VFloat64 f) = VFloat64 f)
    ∧ (∀ value, (∀ f, value ≠ VFloat64 f) → normalizeNumber value = value)
    ∧ (∀ apiTest k,
         match RequestConfig.Headers (APITest.Request apiTest) !! k with
         | Some v =>
           ∃ w', RequestConfig.Headers
                   (APITest.Request (fst (replaceVariables e apiTest w))) !! k
                 = Some (fst (replaceInString e v w'))
         | None =>
           RequestConfig.Headers
             (APITest.Request (fst (replaceVariables e apiTest w))) !! k = None
         end)
    ∧ (∀ f z, float64.eqInt f z = true → ¬ (minInt64 ≤ z ≤ maxInt64)%Z →
              normalizeNumber (VFloat64 f)
              = (if Z.eqb (float64.roundInt (wrap64 (indefinite f))) z
                 then VInt64 (wrap64 (indefinite f)) else VFloat64 f)
              ∧ (z ≠ (2 ^ 63)%Z → normalizeNumber (VFloat64 f) = VFloat64 f))
    ∧ (∀ (m : gmap string Value) k,
         ∃ r, fst (replaceInInterface e (VMap m) w) = VMap r
              ∧ match m !! k with
                | Some v => ∃ w', r !! k = Some (fst (replaceInInterface e v w'))
                | None => r !! k = None
                end)
    ∧ (∀ l : list Value,
         ∃ r, fst (replaceInInterface e (VSlice l) w) = VSlice r
              ∧ length r = length l
              ∧ ∀ i v, l !! i = Some v →
                  ∃ w', r !! i = Some (fst (replaceInInterface e v w')))
    ∧ (∀ apiTest,
         ∃ w1 w2,
           VMap (RequestConfig.Query
                   (APITest.Request (fst (replaceVariables e apiTest w))))
           = fst (replaceInInterface e
                    (VMap (RequestConfig.Query (APITest.Request apiTest))) w1)
           ∧ (size (RequestConfig.BodySchema (APITest.Request apiTest)) = 0 →
              RequestConfig.Body (APITest.Request (fst (replaceVariables e apiTest w)))
              = (if isNil (RequestConfig.Body (APITest.Request apiTest))
                 then RequestConfig.Body (APITest.Request apiTest)
                 else fst (replaceInInterface e
                             (RequestConfig.Body (APITest.Request apiTest)) w2)))).
Proof.
    assert (Hstring : ∀ w0, bind (replaceInString e val) (λ s, ret (VString s)) w0
      = (VString (fst (replaceInString e val w0)), snd (replaceInString e val w0))).
    { intros w0. unfold bind, ret. by destruct (replaceInString e val w0). }
    split_and!.
    - intros g value w' Hp Hex. rewrite replaceInInterface_VString.
      rewrite (FindAllStringSubmatch_placeholder _ _ Hp), String.eqb_refl.
      unfold bind at 1. by rewrite Hex.
    - intros g value w' Hp Hex. rewrite replaceInInterface_VString.
      rewrite (FindAllStringSubmatch_placeholder _ _ Hp), String.eqb_refl.
      unfold bind at 1. rewrite Hex. apply Hstring.
    - intros Hno. rewrite replaceInInterface_VString.
      destruct (varPattern.FindAllStringSubmatch (strings.TrimSpace val))
        as [|[m0 m1] [|? ?]] eqn:Hall; try apply Hstring.
      destruct (String.eqb_spec (strings.TrimSpace val) m0) as [Heq|];
        [|apply Hstring].
      destruct (Hno m1). by eapply FindAllStringSubmatch_single.
    - apply normalizeNumber_whole.
    - apply normalizeNumber_fraction.
    - apply normalizeNumber_other.
    - intros apiTest k. apply replaceVariables_headers.
    - apply normalizeNumber_outside.
    - intros m k. apply replaceInInterface_entries.
    - intros l. apply replaceInInterface_elements.
    - intros apiTest.
      destruct (replaceVariables_query_body e apiTest w) as (w1 & w2 & Hq & Hb).
      exists w1, w2. split; [done|]. intros Hschema. by rewrite Hb, Hschema.
Qed.
End WholePlaceholder.

(** The whole number [2^63] on two platforms: where the conversion out
    of range gives the least [int64], as on amd64, the [float64] stays;
    where it saturates, as on arm64, the result is the greatest
    [int64], which is another number. *)
Example whole_number_two_to_63 :
  float64.valid twoTo63 = true
  ∧ float64.eqInt twoTo63 (2 ^ 63) = true
  ∧ normalizeNumber (H := Scripted.runtime) (VFloat64 twoTo63) = VFloat64 twoTo63
  ∧ normalizeNumber (H := Saturating.runtime) (VFloat64 twoTo63) = VInt64 maxInt64
  ∧ fst (replaceInInterface (H := Saturating.runtime)
           (storeResult (executorOf [exampleCreate])
              (TestResult.mk "create" "" "" true false "" 200
                 (APITest.Request exampleCreate)
                 (Some (Response.mk 200 ∅ "" {["n" := VFloat64 twoTo63]}))
                 None None 0))
           (VString "{{create.response.n}}") (Scripted.mkWorld [] 0))
    = VInt64 (2 ^ 63 - 1).
Proof. split_and!; vm_compute; reflexivity. Qed.

(** C5 as it is stated fails.  With a trailing space after the
    placeholder, a string made of a placeholder and other text gives an
    integer and not a string; the whole number [2^64], which no [int64]
    holds, stays a [float64]; and a header that is one whole placeholder
    for a boolean comes out as the string [true], where the query
    parameter of the same text comes out as the boolean. *)
Lemma whole_placeholder_counterexample :
  fst (replaceInInterface exampleStored (VString "{{create.response.data.id}} ")
         (Scripted.mkWorld [] 0))
  = VInt64 42
  ∧ "{{create.response.data.id}} " ≠ "{{create.response.data.id}}"
  ∧ float64.valid twoTo64 = true
  ∧ float64.eqInt twoTo64 (2 ^ 64) = true
  ∧ fst (replaceInInterface exampleStored (VString "{{create.response.data.big}}")
           (Scripted.mkWorld [] 0))
    = VFloat64 twoTo64
  ∧ RequestConfig.Headers
      (APITest.Request
         (fst (replaceVariables exampleStored exampleHeader (Scripted.mkWorld [] 0))))
    !! "X-Ok" = Some "true"
  ∧ RequestConfig.Query
      (APITest.Request
         (fst (replaceVariables exampleStored exampleHeader (Scripted.mkWorld [] 0))))
    !! "ok" = Some (VBool true).
Proof. split_and!; try (vm_compute; reflexivity). discriminate. Qed.

Lemma whole_placeholder_keeps_type_witness :
  replaceInInterface exampleStored (VString "  {{create.response.data.id}} ")
    (Scripted.mkWorld [] 0)
  = (VInt64 42, Scripted.mkWorld [] 0).
Proof.
  destruct (whole_placeholder_keeps_type (H := Scripted.runtime) exampleStored
              "  {{create.response.data.id}} " (Scripted.mkWorld [] 0))
    as (Hresolved & _ & _ & Hwhole & _ & _ & _).
  rewrite (Hresolved "create.response.data.id" (VFloat64 fortyTwo)
             (Scripted.mkWorld [] 0)).
  - rewrite (Hwhole fortyTwo 42%Z); [reflexivity|reflexivity|reflexivity|].
    vm_compute. split; discriminate.
  - split_and!; [reflexivity|discriminate|reflexivity].
  - reflexivity.
Defined.

(** ** The concurrent run *)

Lemma omap_insert_same {A B} (f : A → option B) (l : list A) i x x' :
  l !! i = Some x → f x' = f x → omap f (<[i := x']> l) = omap f l.
Proof.
  intros Hi Hf. rewrite <- (take_drop_middle l i x Hi) at 2.
  rewrite insert_take_drop by (by eapply lookup_lt_Some).
  rewrite !omap_app. simpl. by rewrite Hf.
Qed.

Lemma omap_insert_new {A B} (f : A → option B) (l : list A) i x x' y :
  l !! i = Some x → f x = None → f x' = Some y →
  omap f (<[i := x']> l) ≡ₚ omap f l ++ [y].
Proof.
  intros Hi Hf Hf'. rewrite <- (take_drop_middle l i x Hi) at 2.
  rewrite insert_take_drop by (by eapply lookup_lt_Some).
  rewrite !omap_app. simpl. rewrite Hf, Hf'.
  rewrite <- app_assoc. apply Permutation_app_head.
  by rewrite <- Permutation_cons_append.
Qed.

Lemma fmap_fst_insert {A B} (l : list (A * B)) i a b b' :
  l !! i = Some (a, b) → map fst (<[i := (a, b')]> l) = map fst l.
Proof.
  intros Hi. change (map fst ?x) with (fst <$> x).
  rewrite list_fmap_insert. simpl. apply list_insert_id.
  rewrite list_lookup_fmap, Hi. done.
Qed.

Section ConcurrentRun.
Context `{Runtime}.

Lemma concurrentStart_inv e maxConcurrency env c :
    concurrentStart e maxConcurrency env = Some c → concurrentInv e env c.
Proof.
    unfold concurrentStart. destruct (Z.ltb maxConcurrency 0); [done|].
    intros [= <-]. constructor; simpl.
    - done.
    - rewrite map_map. simpl. apply map_id.
    - intros j t g Hj. change (map ?f ?l) with (f <$> l) in Hj.
      rewrite list_lookup_fmap in Hj.
      destruct (TestConfig.APIs (Executor.config e) !! j); [|done].
      by injection Hj as <- <-.
    - intros r Hr. by apply elem_of_nil in Hr.
    - induction (TestConfig.APIs (Executor.config e)) as [|t l IH]; [done|].
      simpl. done.
    - exists []. rewrite app_nil_r. split; [done|]. intros call Hc.
      by apply elem_of_nil in Hc.
    - done.
Qed.

  (** Updating the state of a goroutine that is not done, and stays so. *)
Lemma concurrentInv_update e env c i t g g' report env' :
    concurrentInv e env c →
    goroutines c !! i = Some (t, g) →
    g ≠ Done → g' ≠ Done →
    match g' with
    | Attempting _ _ r _ | Returned r => rawResultOf t r
    | _ => True
    end →
    report = creport c →
    (∃ calls, sent env' = sent (cenv c) ++ calls
       ∧ ∀ call, call ∈ calls → call = (APITest.Name t, APITest.Request t)) →
    concurrentInv e env
      (mkConcurrent (<[i := (t, g')]> (goroutines c)) report (cexecutor c) env').
Proof.
    intros [Hex Htests Hgo Hres Hdone Hsent Hcounts] Hi Hg Hg' Hraw -> (calls & Hcalls & Hall).
    assert (Ht : t ∈ TestConfig.APIs (Executor.config e)).
    { rewrite <- Htests. apply list_elem_of_fmap. exists (t, g).
      split; [done|]. by eapply list_elem_of_lookup_2. }
    constructor; simpl; try done.
    - by rewrite (fmap_fst_insert _ _ _ g).
    - intros j t' g'' Hj. destruct (decide (i = j)) as [<-|Hne].
      + rewrite list_lookup_insert_eq in Hj by (by eapply lookup_lt_Some).
        by injection Hj as <- <-.
      + rewrite list_lookup_insert_ne in Hj by done. by eapply Hgo.
    - rewrite (omap_insert_same _ _ _ (t, g)); [done|done|].
      unfold doneName. simpl. by destruct g, g'.
    - destruct Hsent as (calls0 & Hcalls0 & Hall0).
      exists (calls0 ++ calls). rewrite Hcalls, Hcalls0, app_assoc. split; [done|].
      intros call [Hc|Hc]%elem_of_app; [by apply Hall0|].
      exists t. split; [done|]. by apply Hall.
Qed.

  (** Every step keeps the invariant. *)
Lemma concurrentStepOf_inv e env maxConcurrency i c c' :
    concurrentInv e env c → concurrentStepOf maxConcurrency i c = Some c' →
    concurrentInv e env c'.
Proof.
    intros HI. unfold concurrentStepOf.
    destruct (goroutines c !! i) as [[t g]|] eqn:Hi; [|done].
    pose proof (conc_goroutines _ _ _ HI i t g Hi) as Hraw.
    destruct g as [|remaining attempt result lastErr|result|].
    - case_match; [|done]. intros [= <-]. unfold setGoroutine.
      eapply concurrentInv_update; try done.
      exists []. rewrite app_nil_r. split; [done|]. intros call Hc.
      by apply elem_of_nil in Hc.
    - destruct remaining as [|remaining].
      + intros [= <-]. unfold setGoroutine.
        assert (rawResultOf t (exhausted result lastErr)).
        { destruct (exhausted_sameTest result lastErr) as (? & _ & _ & ? & _ & ?).
          destruct Hraw as (? & ? & ?). split_and!; congruence. }
        eapply concurrentInv_update; try done.
        exists []. rewrite app_nil_r. split; [done|]. intros call Hc.
        by apply elem_of_nil in Hc.
      + destruct (attemptBody_spec t attempt result lastErr (cenv c))
          as (returned & result' & lastErr' & w & -> & Hsame & _ & _).
        intros [= <-].
        assert (rawResultOf t result').
        { destruct Hsame as (? & _ & _ & ? & _ & ?).
          destruct Hraw as (? & ? & ?). split_and!; congruence. }
        eapply concurrentInv_update; try done; try (by destruct returned).
        eexists [_]. split; [done|]. by intros call ->%list_elem_of_singleton.
    - intros [= <-].
      destruct HI as [Hex Htests Hgo Hres Hdone Hsent Hcounts].
      assert (Ht : t ∈ TestConfig.APIs (Executor.config e)).
      { rewrite <- Htests. apply list_elem_of_fmap. exists (t, Returned result).
        split; [done|]. by eapply list_elem_of_lookup_2. }
      assert (Hres' : ∀ dp df,
        ∀ r, r ∈ TestReport.Results (TestReport.record result dp df 0 (creport c)) →
             ∃ t, t ∈ TestConfig.APIs (Executor.config e) ∧ rawResultOf t r).
      { intros dp df r [Hr| ->%list_elem_of_singleton]%elem_of_app; [by apply Hres|].
        by exists t. }
      assert (Hdone' : ∀ dp df,
        map TestResult.Name (TestReport.Results (TestReport.record result dp df 0 (creport c)))
        ≡ₚ omap doneName (<[i := (t, Done)]> (goroutines c))).
      { intros dp df. simpl. rewrite map_app. simpl.
        rewrite (omap_insert_new _ _ _ (t, Returned result) _ (APITest.Name t));
          try done.
        rewrite Hdone. by destruct Hraw as (-> & _). }
      destruct Hcounts as (Htot & Hsum & Hskip).
      constructor; simpl; try done.
      + by rewrite (fmap_fst_insert _ _ _ (Returned result)).
      + intros j t' g'' Hj. destruct (decide (i = j)) as [<-|Hne].
        * rewrite list_lookup_insert_eq in Hj by (by eapply lookup_lt_Some).
          by injection Hj as <- <-.
        * rewrite list_lookup_insert_ne in Hj by done. by eapply Hgo.
      + destruct (TestResult.Passed result); apply Hres'.
      + destruct (TestResult.Passed result); apply Hdone'.
      + destruct (TestResult.Passed result); simpl; rewrite length_app; simpl;
          split_and!; lia.
    - done.
Qed.

Lemma concurrentStep_rtc_inv e env maxConcurrency c c' :
    concurrentInv e env c → rtc (concurrentStep maxConcurrency) c c' →
    concurrentInv e env c'.
Proof.
    intros HI Hrtc. induction Hrtc as [|c1 c2 c3 [i Hstep] _ IH]; [done|].
    apply IH. by eapply concurrentStepOf_inv.
Qed.

Lemma concurrentRun_rtc maxConcurrency schedule : ∀ c c',
    concurrentRun maxConcurrency schedule c = Some c' →
    rtc (concurrentStep maxConcurrency) c c'.
Proof.
    induction schedule as [|i rest IH]; intros c c'; simpl.
    { intros [= <-]. constructor. }
    destruct (concurrentStepOf maxConcurrency i c) as [c1|] eqn:Hstep; [|done].
    intros Hrun. eapply rtc_l; [by exists i|]. by apply IH.
Qed.

Lemma allDone_names (gs : list (APITest.t * Goroutine)) :
    Forall (λ g, snd g = Done) gs →
    omap doneName gs = map APITest.Name (map fst gs).
Proof.
    induction 1 as [|[t g] gs Hg _ IH]; [done|]. simpl in Hg. subst g.
    cbn [omap list_omap map fst]. unfold doneName at 1. simpl.
    f_equal. exact IH.
Qed.

  (** C2, on every input.  However the goroutines are scheduled, when
      [ExecuteConcurrent] returns the executor is as it was, so that no
      result has been stored; every request handed to the HTTP client is
      the request of a configured test as it is declared, so that
      neither templating nor schema coercion has been applied; and the
      report holds one result for every test, none of them skipped,
      counted as passed or failed. *)
Theorem ExecuteConcurrent_runs_declared_requests (e : Executor.t)
      (maxConcurrency : Z) (env : Env) (c : Concurrent) :
    ExecuteConcurrent e maxConcurrency env c →
    cexecutor c = e
    ∧ (∃ calls, sent (cenv c) = sent env ++ calls
         ∧ ∀ call, call ∈ calls →
             ∃ t, t ∈ TestConfig.APIs (Executor.config e)
                  ∧ call = (APITest.Name t, APITest.Request t))
    ∧ (∀ r, r ∈ TestReport.Results (creport c) →
            ∃ t, t ∈ TestConfig.APIs (Executor.config e) ∧ rawResultOf t r)
    ∧ map TestResult.Name (TestReport.Results (creport c))
      ≡ₚ map APITest.Name (TestConfig.APIs (Executor.config e))
    ∧ TestReport.TotalTests (creport c)
      = Z.of_nat (length (TestConfig.APIs (Executor.config e)))
    ∧ (TestReport.PassedTests (creport c) + TestReport.FailedTests (creport c)
       = TestReport.TotalTests (creport c))%Z
    ∧ TestReport.SkippedTests (creport c) = 0%Z.
Proof.
    intros (c0 & Hstart & Hrtc & Hall).
    apply concurrentStart_inv in Hstart.
    destruct (concurrentStep_rtc_inv _ _ _ _ _ Hstart Hrtc)
      as [Hex Htests Hgo Hres Hdone Hsent (Htot & Hsum & Hskip)].
    rewrite (allDone_names _ Hall), Htests in Hdone.
    split_and!; try done.
    rewrite Htot. f_equal.
    apply Permutation_length in Hdone. by rewrite !length_map in Hdone.
Qed.
End ConcurrentRun.

Lemma ExecuteConcurrent_runs_declared_requests_witness :
  ∃ c, exampleConcurrentRun = Some c
    ∧ cexecutor c = executorOf [exampleCreate; exampleUse]
    ∧ (∃ calls, sent (cenv c)
                = sent (Scripted.start [exampleCreated; exampleCreated]) ++ calls
         ∧ ∀ call, call ∈ calls →
             ∃ t, t ∈ [exampleCreate; exampleUse]
                  ∧ call = (APITest.Name t, APITest.Request t))
    ∧ (∀ r, r ∈ TestReport.Results (creport c) →
            ∃ t, t ∈ [exampleCreate; exampleUse] ∧ rawResultOf t r)
    ∧ map TestResult.Name (TestReport.Results (creport c))
      ≡ₚ map APITest.Name [exampleCreate; exampleUse]
    ∧ TestReport.TotalTests (creport c) = 2%Z
    ∧ (TestReport.PassedTests (creport c) + TestReport.FailedTests (creport c)
       = TestReport.TotalTests (creport c))%Z
    ∧ TestReport.SkippedTests (creport c) = 0%Z.
Proof.
  eexists. split; [vm_compute; reflexivity|].
  apply (ExecuteConcurrent_runs_declared_requests
           (executorOf [exampleCreate; exampleUse]) 2
           (Scripted.start [exampleCreated; exampleCreated])).
  eexists. split; [reflexivity|]. split.
  - apply (concurrentRun_rtc 2 [0; 1; 1; 0; 1; 0]). vm_compute. reflexivity.
  - repeat constructor.
Defined.

(** The two modes side by side, on the tests [create] and [use] in the
    scripted world.  Sequential [Execute] sends the request of [use]
    with the id of the created item in its path and leaves two results
    in the store; the concurrent run above sends the path with the
    placeholder in it and leaves the store empty. *)
Example sequential_and_concurrent_differ :
  (∃ report e' env',
     Execute (executorOf [exampleCreate; exampleUse])
       (Scripted.start [exampleCreated; exampleCreated]) = (Some (report, e'), env')
     ∧ map (λ call, RequestConfig.Path (snd call)) (sent env')
       = ["/items"; "/items/123"]
     ∧ size (Executor.results e') = 2)
  ∧ (∃ c, exampleConcurrentRun = Some c
       ∧ map (λ call, RequestConfig.Path (snd call)) (sent (cenv c))
         = ["/items/{{create.response.data.id}}"; "/items"]
       ∧ size (Executor.results (cexecutor c)) = 0).
Proof.
  split.
  - eexists _, _, _. split; [vm_compute; reflexivity|]. split; vm_compute; reflexivity.
  - eexists. split; [vm_compute; reflexivity|]. split; vm_compute; reflexivity.
Qed.

(** * Sequential execution: the dependency check and the Result Store *)

Section Gate.
Context `{Runtime}.

  (** The part of the loop body that runs a test. *)
Lemma runTest_spec e report t env :
    ∃ result w calls dp df,
      runTest e report t env
      = ((TestReport.record result dp df 0 report, storeResult e result),
         mkEnv _ w (sent env ++ calls))
      ∧ TestResult.Name result = APITest.Name t
      ∧ TestResult.Skipped result = false
      ∧ Forall (λ c, fst c = APITest.Name t) calls.
Proof.
    unfold runTest, bind, ret.
    pose proof (liftWorld_sent (replaceVariables e t) env) as Hsent.
    unfold liftWorld in *.
    destruct (replaceVariables_spec e t (world env)) as (request & w1 & Hrv).
    rewrite Hrv in *. simpl in Hsent.
    match goal with
    | |- context [executeAPITest ?t1 ?env1] =>
      destruct (executeAPITest_spec t1 env1)
        as (result & w2 & calls & -> & Hname & Hskip & _ & Hcalls & _)
    end.
    simpl in *.
    destruct (TestResult.Passed result);
      eexists result, w2, calls, _, _; (split; [reflexivity|]);
      (split_and!; [done|done|]);
      (eapply Forall_impl; [exact Hcalls|]); by intros c ->.
Qed.

  (** One round of the loop of [Execute], with the decision of the
      dependency check spelled out. *)
Lemma executeOne_gate e report t env :
    ∃ result w calls dp df ds,
      executeOne e report t env
      = (Some (TestReport.record result dp df ds report, storeResult e result),
         mkEnv _ w (sent env ++ calls))
      ∧ TestResult.Name result = APITest.Name t
      ∧ Forall (λ c, fst c = APITest.Name t) calls
      ∧ (TestResult.Passed result = true → TestResult.Skipped result = false)
      ∧ (TestResult.Skipped result = true →
           calls = [] ∧ ∃ reason, result = skippedResult t reason)
      ∧ (APITest.DependsOn t = "" → TestResult.Skipped result = false)
      ∧ (APITest.DependsOn t ≠ "" →
           TestResult.Skipped result
           = negb (dependencyPassed (getResult e (APITest.DependsOn t)))
           ∧ (getResult e (APITest.DependsOn t) = None →
              result = skippedResult t (notExecutedReason (APITest.DependsOn t)))).
Proof.
    assert (Hrun : ∀ P : Prop, P →
      ∃ result w calls dp df ds,
        bind (runTest e report t) (λ r, ret (Some r)) env
        = (Some (TestReport.record result dp df ds report, storeResult e result),
           mkEnv _ w (sent env ++ calls))
        ∧ TestResult.Name result = APITest.Name t
        ∧ Forall (λ c, fst c = APITest.Name t) calls
        ∧ TestResult.Skipped result = false ∧ P).
    { intros P HP. unfold bind at 1.
      destruct (runTest_spec e report t env)
        as (result & w & calls & dp & df & -> & Hname & Hskip & Hcalls).
      by eexists result, w, calls, dp, df, 0%Z. }
    assert (Hskipped : ∀ reason,
      ∃ w calls,
        ret (Some (TestReport.record (skippedResult t reason) 0 0 1 report,
                   storeResult e (skippedResult t reason))) env
        = (Some (TestReport.record (skippedResult t reason) 0 0 1 report,
                 storeResult e (skippedResult t reason)),
           mkEnv _ w (sent env ++ calls)) ∧ calls = []).
    { intros reason. exists (world env), []. rewrite app_nil_r. by destruct env. }
    unfold executeOne, dependencyGate.
    destruct (String.eqb (APITest.DependsOn t) "") eqn:Hd.
    { apply String.eqb_eq in Hd.
      destruct (Hrun True I) as (result & w & calls & dp & df & ds & -> & ? & ? & Hs & _).
      eexists result, w, calls, dp, df, ds. split_and!; try done.
      all: rewrite Hs; done. }
    apply String.eqb_neq in Hd.
    destruct (getResult e (APITest.DependsOn t)) as [r|] eqn:Hr.
    2:{ destruct (Hskipped (notExecutedReason (APITest.DependsOn t)))
          as (w & calls & Heq & ->).
        unfold notExecutedReason in *. rewrite Heq.
        eexists _, w, [], 0%Z, 0%Z, 1%Z. split_and!; try done.
        intros _. split; [done|]. by eexists. }
    destruct (TestResult.Passed r) eqn:Hp, (TestResult.Skipped r) eqn:Hs; simpl.
    2:{ destruct (Hrun True I) as (result & w & calls & dp & df & ds & -> & ? & ? & Hs' & _).
        eexists result, w, calls, dp, df, ds. split_and!; try done.
        all: rewrite Hs'; try done. intros _. by rewrite Hp, Hs. }
    all: destruct (findRootCause_total e (APITest.DependsOn t)) as (c & -> & _).
    all: match goal with
         | |- context [skippedResult ?t' ?reason] =>
           destruct (Hskipped reason) as (w & calls & Heq & ->); rewrite Heq;
           eexists (skippedResult t' reason), w, [], 0%Z, 0%Z, 1%Z
         end.
    all: split_and!; try done.
    all: try (intros _; split; [done|]; by eexists).
    all: intros _; by rewrite ?Hp, ?Hs.
Qed.
End Gate.

Section GatedLoop.
Context `{Runtime}.

Lemma getResult_storeResult e r n :
    getResult (storeResult e r) n
    = if decide (TestResult.Name r = n) then Some r else getResult e n.
Proof.
    unfold getResult, storeResult. simpl. destruct (decide _) as [<-|Hne].
    - by rewrite lookup_insert_eq.
    - by rewrite lookup_insert_ne.
Qed.

  (** The loop of [Execute] over tests of distinct names.  Every test
      leaves its result in the store, where it stays; the decision to
      skip a test can therefore be read off the store at the end, for a
      dependency that is not the test itself or a test still to come. *)
Lemma executeLoop_gate : ∀ order e report env,
    NoDup (map APITest.Name order) →
    ∃ report' e' w calls rs,
      executeLoop order e report env
      = (Some (report', e'), mkEnv _ w (sent env ++ calls))
      ∧ TestReport.Results report' = TestReport.Results report ++ rs
      ∧ length rs = length order
      ∧ Executor.config e' = Executor.config e
      ∧ (∀ n, n ∉ map APITest.Name order → getResult e' n = getResult e n)
      ∧ (∀ c, c ∈ calls →
           ∃ i t r, order !! i = Some t ∧ rs !! i = Some r
                    ∧ fst c = APITest.Name t ∧ TestResult.Skipped r = false)
      ∧ (∀ i t r, order !! i = Some t → rs !! i = Some r →
           TestResult.Name r = APITest.Name t
           ∧ getResult e' (APITest.Name t) = Some r
           ∧ (TestResult.Passed r = true → TestResult.Skipped r = false)
           ∧ (TestResult.Skipped r = true → ∃ reason, r = skippedResult t reason)
           ∧ (APITest.DependsOn t = "" → TestResult.Skipped r = false)
           ∧ (APITest.DependsOn t ≠ "" →
              APITest.DependsOn t ∉ map APITest.Name (drop i order) →
              TestResult.Skipped r
              = negb (dependencyPassed (getResult e' (APITest.DependsOn t)))
              ∧ (getResult e' (APITest.DependsOn t) = None →
                 r = skippedResult t (notExecutedReason (APITest.DependsOn t))))).
Proof.
    induction order as [|t rest IH]; intros e report env Hnd; cbn [executeLoop].
    { unfold ret. exists report, e, (world env), [], []. rewrite !app_nil_r.
      destruct env. split_and!; try done. intros c Hc. by apply elem_of_nil in Hc. }
    unfold bind at 1.
    destruct (executeOne_gate e report t env)
      as (r0 & w0 & calls0 & dp & df & ds & -> & Hname & Hcalls0 & Hps & Hsk
          & Hnodep & Hdep).
    cbn [map] in Hnd. apply NoDup_cons in Hnd as [Hfresh Hnd].
    destruct (IH (storeResult e r0) (TestReport.record r0 dp df ds report)
                 (mkEnv _ w0 (sent env ++ calls0)) Hnd)
      as (report' & e' & w & calls & rs & -> & Hres & Hlen & Hcfg & Hother
          & Hcalls & Hall).
    assert (Hstored : getResult e' (APITest.Name t) = Some r0).
    { rewrite (Hother _ Hfresh), getResult_storeResult. by rewrite decide_True. }
    exists report', e', w, (calls0 ++ calls), (r0 :: rs).
    simpl in *. rewrite <- !app_assoc in *. simpl in *.
    split_and!; try done.
    - by rewrite Hlen.
    - intros n Hn. apply not_elem_of_cons in Hn as [Hne Hn].
      rewrite (Hother n Hn), getResult_storeResult.
      rewrite decide_False; [done|congruence].
    - intros c [Hc|Hc]%elem_of_app.
      + exists 0, t, r0. split_and!; try done.
        * rewrite Forall_forall in Hcalls0. by apply Hcalls0.
        * destruct (TestResult.Skipped r0) eqn:Hs; [|done].
          destruct (Hsk eq_refl) as [-> _]. by apply elem_of_nil in Hc.
      + destruct (Hcalls c Hc) as (i & t' & r & ? & ? & ? & ?).
        by exists (S i), t', r.
    - intros [|i] t' r Ht' Hr; simpl in *.
      + injection Ht' as <-. injection Hr as <-.
        split_and!; try done.
        * intros Hs. by destruct (Hsk Hs).
        * intros Hd Hnin. apply not_elem_of_cons in Hnin as [Hne Hnin].
          rewrite (Hother _ Hnin), getResult_storeResult.
          rewrite decide_False by congruence. by apply Hdep.
      + by apply Hall.
Qed.

  (** The order [Execute] runs the tests in, for tests of distinct names
      without a cycle: every test comes after the test it depends on. *)
Lemma executionOrder_positions (e : Executor.t) :
    distinctNames (TestConfig.APIs (Executor.config e)) →
    acyclic (TestConfig.APIs (Executor.config e)) →
    ∃ order, executionOrder e = Some order
      ∧ order ≡ₚ TestConfig.APIs (Executor.config e)
      ∧ ∀ t d i j, dependsOn (TestConfig.APIs (Executor.config e)) t d →
          order !! i = Some t → order !! j = Some d → j < i.
Proof.
    intros Hnd Hacyc. unfold executionOrder.
    set (apis := TestConfig.APIs (Executor.config e)) in *.
    set (sorted := sortAPIsByWeight apis).
    assert (Hperm : sorted ≡ₚ apis) by apply SliceStable_Permutation.
    assert (Hnd' : distinctNames sorted).
    { unfold distinctNames in *. by rewrite Hperm. }
    destruct (resolveExecutionOrder_Permutation sorted) as (out' & Hout' & Hperm').
    destruct (resolveExecutionOrder_spec sorted)
      as (out & Hout & [[_ [c Hc]]|(order & st' & HI & -> & Hseq)]).
    { apply tc_istep_dependsOn in Hc as (a & b & Ha & Hb & Htc).
      assert (a = b) as <- by congruence.
      destruct (Hacyc a). by eapply tc_dependsOn_Permutation. }
    exists (omap (λ i, sorted !! i) order). split; [done|].
    split; [by rewrite <- Hperm; congruence|].
    intros t d i j Hd Hi Hj.
    apply (dependsOn_Permutation apis sorted) in Hd; [|done].
    assert (Htotal : ∀ x, x ∈ order → is_Some (sorted !! x)).
    { intros x Hx. apply lookup_lt_is_Some. by apply (walk_range _ _ _ _ HI). }
    apply omap_lookup_total in Hi as (it & Hit & Ht); [|done].
    apply omap_lookup_total in Hj as (jd & Hjd & Hdd); [|done].
    destruct (dependsOn_istep sorted t d it Hnd' Hd Ht) as (jd' & Hjd' & Hstep).
    destruct (walk_deps _ _ _ _ HI it jd' i Hit Hstep) as (p & Hp & Hlt).
    assert (jd' = jd) as ->.
    { destruct Hd as (_ & _ & _ & Hname).
      pose proof (buildNameToIndex_distinct sorted 0 ∅ jd d Hnd' Hdd) as H1.
      pose proof (buildNameToIndex_distinct sorted 0 ∅ jd' d Hnd' Hjd') as H2.
      simpl in *. congruence. }
    pose proof (NoDup_lookup _ _ _ _ (walk_nodup _ _ _ _ HI) Hp Hjd). lia.
Qed.
End GatedLoop.

Section GatedExecute.
Context `{Runtime}.

Lemma Execute_gate (e : Executor.t) (env : Env) :
    distinctNames (TestConfig.APIs (Executor.config e)) →
    ∃ order report e' w calls,
      executionOrder e = Some order
      ∧ order ≡ₚ TestConfig.APIs (Executor.config e)
      ∧ Execute e env = (Some (report, e'), mkEnv _ w (sent env ++ calls))
      ∧ length (TestReport.Results report) = length order
      ∧ Executor.config e' = Executor.config e
      ∧ (∀ n, n ∉ GetTestNames e → getResult e' n = getResult e n)
      ∧ (∀ c, c ∈ calls →
           ∃ i t r, order !! i = Some t ∧ TestReport.Results report !! i = Some r
                    ∧ fst c = APITest.Name t ∧ TestResult.Skipped r = false)
      ∧ (∀ i t r, order !! i = Some t → TestReport.Results report !! i = Some r →
           TestResult.Name r = APITest.Name t
           ∧ getResult e' (APITest.Name t) = Some r
           ∧ (TestResult.Passed r = true → TestResult.Skipped r = false)
           ∧ (TestResult.Skipped r = true → ∃ reason, r = skippedResult t reason)
           ∧ (APITest.DependsOn t = "" → TestResult.Skipped r = false)
           ∧ (APITest.DependsOn t ≠ "" →
              APITest.DependsOn t ∉ map APITest.Name (drop i order) →
              TestResult.Skipped r
              = negb (dependencyPassed (getResult e' (APITest.DependsOn t)))
              ∧ (getResult e' (APITest.DependsOn t) = None →
                 r = skippedResult t (notExecutedReason (APITest.DependsOn t))))).
Proof.
    intros Hnd. unfold Execute, executionOrder, GetTestNames.
    destruct (resolveExecutionOrder_Permutation
                (sortAPIsByWeight (TestConfig.APIs (Executor.config e))))
      as (order & -> & Hperm).
    assert (Hperm' : order ≡ₚ TestConfig.APIs (Executor.config e)).
    { rewrite Hperm. apply SliceStable_Permutation. }
    destruct (executeLoop_gate order e (newReport e) env)
      as (report & e' & w & calls & rs & -> & Hres & Hlen & Hcfg & Hother
          & Hcalls & Hall).
    { unfold distinctNames in Hnd. by rewrite Hperm'. }
    simpl in Hres. rewrite <- Hres in *.
    exists order, report, e', w, calls. split_and!; try done.
    intros n Hn. apply Hother. by rewrite Hperm'.
Qed.

  (** Among results of tests of distinct names, the name finds the
      position. *)
Lemma result_position (order : list APITest.t) (rs : list TestResult.t) t r :
    NoDup (map APITest.Name order) → length rs = length order →
    (∀ i t r, order !! i = Some t → rs !! i = Some r →
              TestResult.Name r = APITest.Name t) →
    t ∈ order → r ∈ rs → TestResult.Name r = APITest.Name t →
    ∃ i, order !! i = Some t ∧ rs !! i = Some r.
Proof.
    intros Hnd Hlen Hnames [i Hi]%list_elem_of_lookup [k Hk]%list_elem_of_lookup Hn.
    destruct (lookup_lt_is_Some_2 order k) as [t' Ht'].
    { rewrite <- Hlen. by eapply lookup_lt_Some. }
    assert (k = i) as ->; [|by exists i].
    eapply NoDup_lookup; [exact Hnd| |]; rewrite list_lookup_fmap.
    - rewrite Ht'. simpl. by rewrite <- (Hnames k t' r Ht' Hk), Hn.
    - by rewrite Hi.
Qed.

Lemma not_elem_of_later_names (order : list APITest.t) i j d n :
    NoDup (map APITest.Name order) → order !! j = Some d → j < i →
    APITest.Name d = n → n ∉ map APITest.Name (drop i order).
Proof.
    intros Hnd Hj Hlt <- [k Hk]%list_elem_of_lookup.
    rewrite list_lookup_fmap, lookup_drop in Hk.
    destruct (order !! (i + k)) as [t'|] eqn:Ht'; [|done]. injection Hk as Hk.
    assert (i + k = j); [|lia].
    eapply NoDup_lookup; [exact Hnd| |]; rewrite list_lookup_fmap.
    - by rewrite Ht'; simpl; rewrite Hk.
    - by rewrite Hj.
Qed.

  (** X1. Sequential execution of tests with distinct names and without
      a dependency cycle.  A test without a dependency is never skipped.
      A test that depends on a configured test is skipped exactly when
      the result of that test is not passed, whether it failed or was
      skipped itself.  A skipped test is not passed, has no response and
      the status code 0, and the HTTP client is not called for it. *)
Theorem Execute_dependency_gate (e : Executor.t) (env : Env) :
    distinctNames (TestConfig.APIs (Executor.config e)) →
    acyclic (TestConfig.APIs (Executor.config e)) →
    ∃ report e' env',
      Execute e env = (Some (report, e'), env')
      ∧ ∀ t r, t ∈ TestConfig.APIs (Executor.config e) →
          r ∈ TestReport.Results report →
          TestResult.Name r = APITest.Name t →
          (APITest.DependsOn t = "" → TestResult.Skipped r = false)
          ∧ (∀ d rd, dependsOn (TestConfig.APIs (Executor.config e)) t d →
               rd ∈ TestReport.Results report →
               TestResult.Name rd = APITest.Name d →
               TestResult.Skipped r = negb (TestResult.Passed rd))
          ∧ (TestResult.Skipped r = true →
               TestResult.Passed r = false
               ∧ TestResult.StatusCode r = 0%Z
               ∧ TestResult.Response r = None
               ∧ ∀ call, call ∈ sent env' →
                   call ∈ sent env ∨ fst call ≠ APITest.Name t).
Proof.
    intros Hnd Hacyc.
    destruct (executionOrder_positions e Hnd Hacyc) as (order & Horder & Hperm & Hpos).
    destruct (Execute_gate e env Hnd)
      as (order' & report & e' & w & calls & Horder' & _ & Hrun & Hlen & _ & _
          & Hcalls & Hall).
    assert (order' = order) as -> by congruence.
    assert (Hnd' : NoDup (map APITest.Name order)).
    { unfold distinctNames in Hnd. by rewrite Hperm. }
    assert (Hnames : ∀ i t r, order !! i = Some t →
              TestReport.Results report !! i = Some r →
              TestResult.Name r = APITest.Name t).
    { intros i t r Hi Hr. by destruct (Hall i t r Hi Hr). }
    exists report, e', (mkEnv _ w (sent env ++ calls)). split; [done|].
    intros t r Ht Hr Hn. rewrite <- Hperm in Ht.
    destruct (result_position order _ t r Hnd' Hlen Hnames Ht Hr Hn) as (i & Hi & Hri).
    destruct (Hall i t r Hi Hri) as (_ & _ & _ & Hskip & Hnodep & Hdep).
    split_and!; [done| |].
    - intros d rd Hd Hrd Hnd0.
      pose proof Hd as (_ & Hdin & Hne & Hdn). rewrite <- Hperm in Hdin.
      destruct (result_position order _ d rd Hnd' Hlen Hnames Hdin Hrd Hnd0)
        as (j & Hj & Hrj).
      pose proof (Hpos t d i j Hd Hi Hj) as Hlt.
      destruct (Hdep Hne) as [-> _].
      { by eapply not_elem_of_later_names. }
      destruct (Hall j d rd Hj Hrj) as (_ & Hstored & Hps & _).
      rewrite Hdn, Hstored. simpl.
      destruct (TestResult.Passed rd); [by rewrite Hps|done].
    - intros Hs. destruct (Hskip Hs) as [reason ->]. split_and!; try done.
      simpl. intros call [Hc|Hc]%elem_of_app; [by left|right].
      destruct (Hcalls call Hc) as (k & t' & r' & Hk & Hrk & -> & Hs').
      intros Heq. assert (k = i) as ->.
      { eapply NoDup_lookup; [exact Hnd'| |]; rewrite list_lookup_fmap.
        - by rewrite Hk; simpl; rewrite Heq.
        - by rewrite Hi. }
      rewrite Hri in Hrk. injection Hrk as <-. done.
Qed.
End GatedExecute.

Lemma distinctNames_executorOf (apis : list APITest.t) :
  NoDup (map APITest.Name apis) →
  distinctNames (TestConfig.APIs (Executor.config (executorOf apis))).
Proof. done. Qed.

Lemma acyclic_create_use :
  acyclic (TestConfig.APIs (Executor.config (executorOf [exampleUse; exampleCreate]))).
Proof.
  apply (acyclic_rank _ (λ a, String.length (APITest.DependsOn a))).
  intros a b (Ha & Hb & Hne & Heq). simpl in Ha, Hb.
  apply elem_of_cons in Ha as [->|Ha]; [|apply list_elem_of_singleton in Ha as ->];
    [|done].
  apply elem_of_cons in Hb as [->|Hb]; [|apply list_elem_of_singleton in Hb as ->];
    [done|]. vm_compute. lia.
Qed.

Lemma Execute_dependency_gate_witness :
  ∃ report e' env',
    Execute (executorOf [exampleUse; exampleCreate])
      (Scripted.start [inr "refused"]) = (Some (report, e'), env')
    ∧ ∀ t r, t ∈ [exampleUse; exampleCreate] →
        r ∈ TestReport.Results report →
        TestResult.Name r = APITest.Name t →
        (APITest.DependsOn t = "" → TestResult.Skipped r = false)
        ∧ (∀ d rd, dependsOn [exampleUse; exampleCreate] t d →
             rd ∈ TestReport.Results report →
             TestResult.Name rd = APITest.Name d →
             TestResult.Skipped r = negb (TestResult.Passed rd))
        ∧ (TestResult.Skipped r = true →
             TestResult.Passed r = false
             ∧ TestResult.StatusCode r = 0%Z
             ∧ TestResult.Response r = None
             ∧ ∀ call, call ∈ sent env' →
                 call ∈ sent (Scripted.start [inr "refused"])
                 ∨ fst call ≠ APITest.Name t).
Proof.
  apply (Execute_dependency_gate (executorOf [exampleUse; exampleCreate])
           (Scripted.start [inr "refused"])).
  - apply distinctNames_executorOf. vm_compute. repeat constructor; set_solver.
  - apply acyclic_create_use.
Defined.

(** The run of the witness: [create] fails for want of a connection, and
    [use], which depends on it, is skipped. *)
Example Execute_skips_after_failure :
  ∃ report e' env',
    Execute (executorOf [exampleUse; exampleCreate])
      (Scripted.start [inr "refused"]) = (Some (report, e'), env')
    ∧ map (λ r, (TestResult.Name r, TestResult.Passed r, TestResult.Skipped r))
        (TestReport.Results report)
      = [("create", false, false); ("use", false, true)]
    ∧ map fst (sent env') = ["create"].
Proof. eexists _, _, _. split; [vm_compute; reflexivity|]. by split. Qed.

Section StoredResults.
Context `{Runtime}.

  (** X2. A test of a configuration with distinct names that declares a
      dependency no configured test has the name of, and for which the
      store holds no result, is skipped: its result is the skipped
      result with the reason that the dependency was not found or not
      executed, and the HTTP client is not called for it. *)
Theorem Execute_unknown_dependency (e : Executor.t) (env : Env) (t : APITest.t) :
    distinctNames (TestConfig.APIs (Executor.config e)) →
    t ∈ TestConfig.APIs (Executor.config e) →
    APITest.DependsOn t ≠ "" →
    APITest.DependsOn t ∉ GetTestNames e →
    getResult e (APITest.DependsOn t) = None →
    ∃ report e' env',
      Execute e env = (Some (report, e'), env')
      ∧ skippedResult t (notExecutedReason (APITest.DependsOn t))
        ∈ TestReport.Results report
      ∧ ∀ call, call ∈ sent env' → call ∈ sent env ∨ fst call ≠ APITest.Name t.
Proof.
    intros Hnd Ht Hdep Hunknown Hnone.
    destruct (Execute_gate e env Hnd)
      as (order & report & e' & w & calls & Horder & Hperm & Hrun & Hlen & _
          & Hother & Hcalls & Hall).
    assert (Hnd' : NoDup (map APITest.Name order)).
    { unfold distinctNames in Hnd. by rewrite Hperm. }
    rewrite <- Hperm in Ht. apply list_elem_of_lookup in Ht as [i Hi].
    destruct (lookup_lt_is_Some_2 (TestReport.Results report) i) as [r Hr].
    { rewrite Hlen. by eapply lookup_lt_Some. }
    destruct (Hall i t r Hi Hr) as (_ & _ & _ & _ & _ & Hgate).
    destruct (Hgate Hdep) as [Hs Hreason].
    { intros Hin. apply Hunknown. unfold GetTestNames. rewrite <- Hperm.
      apply list_elem_of_fmap in Hin as (x & -> & Hx).
      apply list_elem_of_fmap_2. by eapply subseteq_drop. }
    rewrite (Hother _ Hunknown), Hnone in Hs, Hreason. simpl in Hs.
    specialize (Hreason eq_refl). subst r.
    exists report, e', (mkEnv _ w (sent env ++ calls)). split_and!; [done| |].
    - by eapply list_elem_of_lookup_2.
    - simpl. intros call [Hc|Hc]%elem_of_app; [by left|right].
      destruct (Hcalls call Hc) as (k & t' & r' & Hk & Hrk & -> & Hs').
      intros Heq. assert (k = i) as ->.
      { eapply NoDup_lookup; [exact Hnd'| |]; rewrite list_lookup_fmap.
        - by rewrite Hk; simpl; rewrite Heq.
        - by rewrite Hi. }
      rewrite Hr in Hrk. injection Hrk as <-. done.
Qed.

  (** X3. After sequential execution of tests with distinct names the
      Result Store holds, under the name of every configured test, the
      result the report has for it; the results stored under other
      names are as they were, and so is the configuration. *)
Theorem Execute_stores_results (e : Executor.t) (env : Env) :
    distinctNames (TestConfig.APIs (Executor.config e)) →
    ∃ report e' env',
      Execute e env = (Some (report, e'), env')
      ∧ Executor.config e' = Executor.config e
      ∧ (∀ r, r ∈ TestReport.Results report →
              getResult e' (TestResult.Name r) = Some r)
      ∧ (∀ t, t ∈ TestConfig.APIs (Executor.config e) →
              ∃ r, r ∈ TestReport.Results report
                   ∧ getResult e' (APITest.Name t) = Some r)
      ∧ (∀ n, n ∉ GetTestNames e → getResult e' n = getResult e n).
Proof.
    intros Hnd.
    destruct (Execute_gate e env Hnd)
      as (order & report & e' & w & calls & Horder & Hperm & Hrun & Hlen & Hcfg
          & Hother & _ & Hall).
    exists report, e', (mkEnv _ w (sent env ++ calls)). split_and!; try done.
    - intros r [i Hr]%list_elem_of_lookup.
      destruct (lookup_lt_is_Some_2 order i) as [t Hi].
      { rewrite <- Hlen. by eapply lookup_lt_Some. }
      destruct (Hall i t r Hi Hr) as (-> & Hstored & _). done.
    - intros t Ht. rewrite <- Hperm in Ht. apply list_elem_of_lookup in Ht as [i Hi].
      destruct (lookup_lt_is_Some_2 (TestReport.Results report) i) as [r Hr].
      { rewrite Hlen. by eapply lookup_lt_Some. }
      destruct (Hall i t r Hi Hr) as (_ & Hstored & _).
      exists r. split; [|done]. by eapply list_elem_of_lookup_2.
Qed.
End StoredResults.

Lemma Execute_unknown_dependency_witness :
  ∃ report e' env',
    Execute (executorOf [exampleUse]) (Scripted.start []) = (Some (report, e'), env')
    ∧ skippedResult exampleUse (notExecutedReason "create")
      ∈ TestReport.Results report
    ∧ ∀ call, call ∈ sent env' →
        call ∈ sent (Scripted.start []) ∨ fst call ≠ "use".
Proof.
  apply (Execute_unknown_dependency (executorOf [exampleUse]) (Scripted.start [])
           exampleUse).
  - apply distinctNames_executorOf. vm_compute. repeat constructor; set_solver.
  - simpl. set_solver.
  - done.
  - vm_compute. set_solver.
  - reflexivity.
Defined.

Lemma Execute_stores_results_witness :
  ∃ report e' env',
    Execute (executorOf [exampleCreate; exampleUse])
      (Scripted.start [exampleCreated; exampleCreated]) = (Some (report, e'), env')
    ∧ Executor.config e' = Executor.config (executorOf [exampleCreate; exampleUse])
    ∧ (∀ r, r ∈ TestReport.Results report →
            getResult e' (TestResult.Name r) = Some r)
    ∧ (∀ t, t ∈ [exampleCreate; exampleUse] →
            ∃ r, r ∈ TestReport.Results report
                 ∧ getResult e' (APITest.Name t) = Some r)
    ∧ (∀ n, n ∉ GetTestNames (executorOf [exampleCreate; exampleUse]) →
            getResult e' n = getResult (executorOf [exampleCreate; exampleUse]) n).
Proof.
  apply (Execute_stores_results (executorOf [exampleCreate; exampleUse])
           (Scripted.start [exampleCreated; exampleCreated])).
  apply distinctNames_executorOf. vm_compute. repeat constructor; set_solver.
Defined.

(** * The attempt loop of [executeAPITest] *)

Section Attempts.
Context `{Runtime}.

Lemma attempts_count apiTest : ∀ remaining attempt result lastErr env,
    (0 ≤ attempt)%Z →
    resultCoherent apiTest result → TestResult.Passed result = false →
    (TestResult.Error result = None) →
    ∃ result' w n,
      attempts apiTest remaining attempt result lastErr env
      = (result', mkEnv _ w (sent env
                             ++ replicate n (APITest.Name apiTest,
                                             APITest.Request apiTest)))
      ∧ n ≤ remaining
      ∧ (TestResult.Passed result' = false → n = remaining)
      ∧ (TestResult.Passed result' = true → 1 ≤ n ∧ TestResult.Error result' = None)
      ∧ TestResult.RetryCount result'
        = (TestResult.RetryCount result
           + Z.of_nat (if Z.ltb 0 attempt then n else pred n))%Z
      ∧ resultCoherent apiTest result'.
Proof.
    induction remaining as [|remaining IH];
      intros attempt result lastErr env Hatt Hco Hp Herr; cbn [attempts].
    { unfold ret. exists (exhausted result lastErr), (world env), 0.
      simpl. rewrite app_nil_r. destruct env. split_and!; try done.
      - destruct (Z.ltb 0 attempt), lastErr; simpl; lia.
      - unfold exhausted, resultCoherent in *. destruct lastErr; simpl; by rewrite ?Hp in *. }
    unfold bind at 1. unfold attemptBody, bind, clientDo, ret.
    set (counted := if Z.ltb 0 attempt
                    then TestResult.setRetryCount (TestResult.RetryCount result + 1) result
                    else result).
    assert (Hcounted : resultCoherent apiTest counted
                       ∧ TestResult.Passed counted = false
                       ∧ TestResult.Error counted = None
                       ∧ TestResult.RetryCount counted
                         = (TestResult.RetryCount result
                            + (if Z.ltb 0 attempt then 1 else 0))%Z).
    { unfold counted. destruct (Z.ltb 0 attempt); simpl; split_and!; try done; lia. }
    destruct Hcounted as (Hco1 & Hp1 & Herr1 & Hrc1). clearbody counted.
    destruct (httpDo (APITest.Request apiTest) (world env)) as [[resp|err] w1].
    - destruct (ValidationResult.Passed (Validate (APITest.Response apiTest) resp))
        eqn:Hval.
      + eexists _, w1, 1. split; [reflexivity|]. simpl.
        split_and!; try done; try lia.
        all: try (destruct (Z.ltb 0 attempt); lia).
        all: try (unfold resultCoherent; simpl; by rewrite Hval).
      + match goal with
        | |- context [attempts _ _ _ ?r ?l ?env1] =>
          destruct (IH (attempt + 1)%Z r l env1)
            as (result' & w & n & -> & Hn & Hfail & Hpass & Hrc & Hco');
            [lia| |done|done|]
        end.
        { unfold resultCoherent. simpl. by rewrite Hval. }
        exists result', w, (S n). simpl in *. rewrite <- app_assoc.
        split_and!; try done; try lia.
        * intros Hf. by rewrite (Hfail Hf).
        * intros Ht. destruct (Hpass Ht). split; [lia|done].
        * rewrite Hrc, Hrc1.
          replace (Z.ltb 0 (attempt + 1)) with true
            by (symmetry; apply Z.ltb_lt; lia).
          destruct (Z.ltb 0 attempt); lia.
    - match goal with
      | |- context [attempts _ _ _ ?r ?l ?env1] =>
        destruct (IH (attempt + 1)%Z r l env1)
          as (result' & w & n & -> & Hn & Hfail & Hpass & Hrc & Hco');
          [lia|done|done|done|]
      end.
      exists result', w, (S n). simpl in *. rewrite <- app_assoc.
      split_and!; try done; try lia.
      + intros Hf. by rewrite (Hfail Hf).
      + intros Ht. destruct (Hpass Ht). split; [lia|done].
      + rewrite Hrc, Hrc1.
        replace (Z.ltb 0 (attempt + 1)) with true
          by (symmetry; apply Z.ltb_lt; lia).
        destruct (Z.ltb 0 attempt); lia.
Qed.
End Attempts.

Section AttemptsOfATest.
Context `{Runtime}.

Lemma executeAPITest_count (apiTest : APITest.t) (env : Env) :
    ∃ result w n,
      executeAPITest apiTest env
      = (result, mkEnv _ w (sent env
                            ++ replicate n (APITest.Name apiTest,
                                            APITest.Request apiTest)))
      ∧ n ≤ Z.to_nat (attemptLimit apiTest)
      ∧ (TestResult.Passed result = false → n = Z.to_nat (attemptLimit apiTest))
      ∧ (TestResult.Passed result = true → 1 ≤ n ∧ TestResult.Error result = None)
      ∧ TestResult.RetryCount result = Z.of_nat (pred n)
      ∧ resultCoherent apiTest result.
Proof.
    unfold executeAPITest.
    destruct (attempts_count apiTest (Z.to_nat (attemptLimit apiTest)) 0
                (newResult apiTest) None env)
      as (result & w & n & -> & Hn & Hfail & Hpass & Hrc & Hco); try done.
    exists result, w, n. by split_and!.
Qed.

  (** X4. [executeAPITest] hands the request of the test to the HTTP
      client, unchanged, [n] times in a row and calls it for nothing
      else; [n] is at most the attempt limit, it is the attempt limit
      when the test does not pass, and at least 1 when it does; and
      [RetryCount] is the number of calls after the first. *)
Theorem executeAPITest_requests (apiTest : APITest.t) (env : Env) :
    ∃ n, sent (snd (executeAPITest apiTest env))
         = sent env ++ replicate n (APITest.Name apiTest, APITest.Request apiTest)
      ∧ n ≤ Z.to_nat (attemptLimit apiTest)
      ∧ (TestResult.Passed (fst (executeAPITest apiTest env)) = false →
         n = Z.to_nat (attemptLimit apiTest))
      ∧ (TestResult.Passed (fst (executeAPITest apiTest env)) = true → 1 ≤ n)
      ∧ TestResult.RetryCount (fst (executeAPITest apiTest env))
        = Z.of_nat (pred n).
Proof.
    destruct (executeAPITest_count apiTest env)
      as (result & w & n & -> & Hn & Hfail & Hpass & Hrc & _).
    exists n. simpl. split_and!; try done. intros Hp. by destruct (Hpass Hp).
Qed.

  (** X5. In the result of [executeAPITest] the verdict, the validation,
      the response and the status code agree: the validation is the
      validation of the response kept, the status code is that of the
      response, or 0 when there is none, and the test is passed exactly
      when that validation is.  A passed result has a response and no
      error; the result is never marked skipped, and it has the name and
      the request of the test. *)
Theorem executeAPITest_coherent (apiTest : APITest.t) (env : Env) :
    resultCoherent apiTest (fst (executeAPITest apiTest env))
    ∧ (TestResult.Passed (fst (executeAPITest apiTest env)) = true →
       TestResult.Error (fst (executeAPITest apiTest env)) = None
       ∧ ∃ resp,
           TestResult.Response (fst (executeAPITest apiTest env)) = Some resp
           ∧ ValidationResult.Passed (Validate (APITest.Response apiTest) resp)
             = true)
    ∧ TestResult.Skipped (fst (executeAPITest apiTest env)) = false
    ∧ TestResult.Name (fst (executeAPITest apiTest env)) = APITest.Name apiTest
    ∧ TestResult.Request (fst (executeAPITest apiTest env))
      = APITest.Request apiTest.
Proof.
    destruct (executeAPITest_spec apiTest env)
      as (result' & w' & calls & Heq & Hname & Hskip & Hreq & _).
    destruct (executeAPITest_count apiTest env)
      as (result & w & n & Heq' & _ & _ & Hpass & _ & Hco).
    rewrite Heq' in *. injection Heq as <- _ _. simpl.
    split_and!; try done.
    intros Hp. destruct (Hpass Hp) as [_ Herr]. split; [done|].
    destruct Hco as (Hval & _ & Hpassed). rewrite Hp, Hval in Hpassed.
    destruct (TestResult.Response result) as [resp|]; [|done].
    exists resp. split; [done|]. simpl in Hpassed. done.
Qed.
End AttemptsOfATest.

(** A transport error on the first attempt and a response that fails
    validation on the second: the result keeps the response and the
    validation of the second attempt, and the error of the first. *)
Example executeAPITest_stale_error :
  let t := withRetries 1 (simpleTest "t" "" 0 "/t" VNil) in
  let r := fst (executeAPITest t
                  (Scripted.start [inr "timeout"; Scripted.json 500 ∅])) in
  TestResult.Passed r = false ∧ TestResult.StatusCode r = 500%Z
  ∧ TestResult.Error r = Some "timeout" ∧ TestResult.RetryCount r = 1%Z.
Proof. vm_compute. done. Qed.

(** * Running a single test by name *)

Section ByName.
Context `{Runtime}.

Lemma executeByNameIn_spec (apis : list APITest.t) (name : string) (env : Env) :
    ((name ∉ map APITest.Name apis) ∧ executeByNameIn apis name env = (None, env))
    ∨ (∃ pre t post,
         apis = pre ++ t :: post
         ∧ (name ∉ map APITest.Name pre) ∧ APITest.Name t = name
         ∧ executeByNameIn apis name env
           = (Some (fst (executeAPITest t env)), snd (executeAPITest t env))).
Proof.
    induction apis as [|t apis IH]; cbn [executeByNameIn].
    { left. split; [set_solver|done]. }
    destruct (String.eqb_spec (APITest.Name t) name) as [Heq|Hne].
    - right. exists [], t, apis. split_and!; [done|set_solver|done|].
      unfold bind, ret. by destruct (executeAPITest t env).
    - destruct IH as [[Hnin ->]|(pre & t' & post & -> & Hpre & Hname & ->)].
      + left. split; [|done]. cbn [map]. set_solver.
      + right. exists (t :: pre), t', post. split_and!; try done.
        cbn [map]. set_solver.
Qed.

  (** X6. [ExecuteByName] returns the error exactly when no configured
      test has the name; it then leaves the world as it is and calls
      nothing.  Otherwise it returns what [executeAPITest] returns for
      the first configured test of that name, taken as it is declared:
      the result has the name, it is not skipped, and every call of the
      HTTP client carries the request of the declaration. *)
Theorem ExecuteByName_spec (e : Executor.t) (name : string) (env : Env) :
    (fst (ExecuteByName e name env) = None ↔ name ∉ GetTestNames e)
    ∧ (fst (ExecuteByName e name env) = None →
       snd (ExecuteByName e name env) = env)
    ∧ (∀ result, fst (ExecuteByName e name env) = Some result →
         ∃ pre t post n,
           TestConfig.APIs (Executor.config e) = pre ++ t :: post
           ∧ (name ∉ map APITest.Name pre) ∧ APITest.Name t = name
           ∧ ExecuteByName e name env
             = (Some (fst (executeAPITest t env)), snd (executeAPITest t env))
           ∧ TestResult.Name result = name
           ∧ TestResult.Skipped result = false
           ∧ sent (snd (ExecuteByName e name env))
             = sent env ++ replicate n (name, APITest.Request t)).
Proof.
    unfold ExecuteByName, GetTestNames.
    destruct (executeByNameIn_spec (TestConfig.APIs (Executor.config e)) name env)
      as [[Hnin ->]|(pre & t & post & Hsplit & Hpre & Hname & ->)]; simpl.
    - split_and!; [done|done|]. by intros result [=].
    - split_and!.
      + split; [done|]. intros Hnin. destruct Hnin. rewrite Hsplit, map_app.
        cbn [map]. set_solver.
      + done.
      + intros result [= <-].
        destruct (executeAPITest_count t env)
          as (result & w & n & Heq & _).
        destruct (executeAPITest_spec t env)
          as (result' & w' & calls & Heq' & Hn & Hs & _).
        exists pre, t, post, n. rewrite Heq' in *. injection Heq as -> _ Hcalls.
        simpl. subst name. by split_and!.
Qed.
End ByName.

(** * Schema coercion and the client's check of the body *)

Section CoercionAndCheck.
Context `{Runtime}.

  (** X7. Schema coercion is idempotent: a value that has been
      converted to a declared type is left as it is by a second
      conversion to that type. *)
Theorem convertToSchemaType_idempotent (value : Value) (expectedType : string) :
    convertToSchemaType (convertToSchemaType value expectedType) expectedType
    = convertToSchemaType value expectedType.
Proof.
    unfold convertToSchemaType.
    destruct value; simpl; try done.
    all: repeat (case_match; simpl; try done).
Qed.

Lemma validateFieldType_convert (field : string) (value : Value)
      (expectedType : string) :
    client.validateFieldType field value expectedType = None →
    client.validateFieldType field (convertToSchemaType value expectedType)
      expectedType = None.
Proof.
    unfold client.validateFieldType, convertToSchemaType.
    destruct value; simpl; try done.
    all: repeat (case_match; simpl in *; try done).
Qed.

Lemma validateFieldType_rejects_unchanged (field : string) (value : Value)
      (expectedType : string) :
    client.validateFieldType field (convertToSchemaType value expectedType)
      expectedType ≠ None →
    convertToSchemaType value expectedType = value.
Proof.
    unfold client.validateFieldType, convertToSchemaType.
    destruct value; simpl; try done.
    all: repeat (case_match; simpl in *; try done).
Qed.

  (** X8. Coercion and the client's type check of a field agree.  A
      value the check accepts for a declared type is still accepted
      after its conversion to that type; and when the check rejects a
      converted value, the conversion had left the value as it was. *)
Theorem validateFieldType_after_coercion (field : string) (value : Value)
      (expectedType : string) :
    (client.validateFieldType field value expectedType = None →
     client.validateFieldType field (convertToSchemaType value expectedType)
       expectedType = None)
    ∧ (client.validateFieldType field (convertToSchemaType value expectedType)
         expectedType ≠ None →
       convertToSchemaType value expectedType = value).
Proof.
    split; [apply validateFieldType_convert|apply validateFieldType_rejects_unchanged].
Qed.

  (** A map that the check accepts is left as it is by the conversion,
      and the check does not tell one map from another. *)
Lemma validateFieldType_map (field : string) (m m' : gmap string Value)
      (expectedType : string) :
    client.validateFieldType field (VMap m) expectedType = None →
    convertToSchemaType (VMap m) expectedType = VMap m
    ∧ client.validateFieldType field (VMap m') expectedType = None.
Proof.
    unfold client.validateFieldType, convertToSchemaType. simpl.
    repeat (case_match; simpl in *; try done).
Qed.
End CoercionAndCheck.

(** ** Nested fields *)

Lemma Split_not_nil (s : string) (sep : ascii) : strings.Split s sep ≠ [].
Proof.
  induction s as [|c s IH]; simpl; [done|].
  destruct (Ascii.eqb c sep); [done|]. by destruct (strings.Split s sep).
Qed.

Section NestedFields.
Context `{Runtime}.

Lemma setNestedParts_cons data part rest expectedType :
    rest ≠ [] →
    setNestedParts data (part :: rest) expectedType
    = match data !! part with
      | Some (VMap nextMap) =>
        <[part := VMap (setNestedParts nextMap rest expectedType)]> data
      | _ => data
      end.
Proof. by destruct rest. Qed.

Lemma getNestedParts_not_map value path :
    path ≠ [] → (∀ m, value ≠ VMap m) → client.getNestedParts value path = None.
Proof.
    destruct path as [|p ps]; intros Hp Hv; [done|]. simpl.
    destruct value; try done. by destruct (Hv m).
Qed.

Lemma setNestedParts_get : ∀ parts data expectedType,
    parts ≠ [] →
    match client.getNestedParts (VMap data) parts with
    | Some value =>
      client.getNestedParts (VMap (setNestedParts data parts expectedType)) parts
      = Some (convertToSchemaType value expectedType)
    | None => setNestedParts data parts expectedType = data
    end.
Proof.
    intros path. induction path as [|part rest IH];
      intros data expectedType Hne; [done|].
    destruct (decide (rest = [])) as [->|Hrest].
    { simpl. destruct (data !! part) as [value|] eqn:Hv; [|done].
      by rewrite lookup_insert_eq. }
    rewrite setNestedParts_cons by done. cbn [client.getNestedParts].
    destruct (data !! part) as [value|] eqn:Hv; [|done].
    destruct value as [| | | | | | | |nextMap];
      try (by rewrite getNestedParts_not_map).
    specialize (IH nextMap expectedType Hrest).
    destruct (client.getNestedParts (VMap nextMap) rest) as [v|].
    - by rewrite lookup_insert_eq.
    - rewrite IH. by apply insert_id.
Qed.

Lemma setNestedParts_dom : ∀ parts data expectedType,
    dom (setNestedParts data parts expectedType) = dom data.
Proof.
    intros path. induction path as [|part rest IH];
      intros data expectedType; [done|].
    assert (Hin : ∀ v, is_Some (data !! part) → dom (<[part := v]> data) = dom data).
    { intros v Hs. rewrite dom_insert_L. apply elem_of_dom in Hs. set_solver. }
    destruct (decide (rest = [])) as [->|Hrest].
    { simpl. destruct (data !! part) eqn:Hv; [|done]. by apply Hin. }
    rewrite setNestedParts_cons by done.
    destruct (data !! part) as [[]|] eqn:Hv; try done. by apply Hin.
Qed.

  (** X9. [setNestedValue] and the client's [getNestedValue] follow a
      dotted path in the same way.  Where the client finds a value at
      the path, it finds the converted value after [setNestedValue];
      where it finds none, [setNestedValue] changes nothing.  In both
      cases the map keeps its keys. *)
Theorem setNestedValue_getNestedValue (data : gmap string Value)
      (fieldPath expectedType : string) :
    match client.getNestedValue data fieldPath with
    | Some value =>
      client.getNestedValue (setNestedValue data fieldPath expectedType) fieldPath
      = Some (convertToSchemaType value expectedType)
    | None => setNestedValue data fieldPath expectedType = data
    end
    ∧ dom (setNestedValue data fieldPath expectedType) = dom data.
Proof.
    split; [|apply setNestedParts_dom].
    apply setNestedParts_get, Split_not_nil.
Qed.
End NestedFields.

(** ** The check of a body, and coercion before it *)

Lemma Join_cons (p : string) (ps : list string) (sep : string) :
  ps ≠ [] → strings.Join (p :: ps) sep = p +:+ sep +:+ strings.Join ps sep.
Proof. by destruct ps. Qed.

Lemma Join_Split (s : string) (sep : ascii) :
  strings.Join (strings.Split s sep) (String sep "") = s.
Proof.
  induction s as [|c s IH]; [done|]. cbn [strings.Split].
  pose proof (Split_not_nil s sep) as Hne.
  destruct (Ascii.eqb_spec c sep) as [->|Hc].
  - rewrite Join_cons by done. rewrite IH. by rewrite append_nil_l.
  - destruct (strings.Split s sep) as [|p ps] eqn:Hs; [done|].
    destruct (decide (ps = [])) as [->|Hps].
    + simpl in *. by rewrite IH.
    + rewrite Join_cons in * by done. rewrite append_cons. by rewrite IH.
Qed.

Lemma Split_inj (s s' : string) (sep : ascii) :
  strings.Split s sep = strings.Split s' sep → s = s'.
Proof.
  intros Heq. rewrite <- (Join_Split s sep), <- (Join_Split s' sep). by rewrite Heq.
Qed.

Section BodyCheck.
Context `{Runtime}.

Lemma validateFields_ok (bodyMap : gmap string Value) (schema : gmap string string) :
    client.validateFields bodyMap schema = None
    ↔ map_Forall (λ field expectedType,
                    client.validateField bodyMap field expectedType = None) schema.
Proof.
    unfold client.validateFields.
    apply (map_fold_weak_ind (λ r s,
             r = None ↔ map_Forall (λ field expectedType,
                          client.validateField bodyMap field expectedType = None) s)).
    { split; [intros _; apply map_Forall_empty|done]. }
    intros field expectedType s r Hfresh IH.
    rewrite map_Forall_insert by done. destruct r as [err|].
    - split; [done|]. intros [_ Hs]. by apply IH in Hs.
    - split; [intros Hf; split; [done|by apply IH]|by intros [? _]].
Qed.

  (** X10. The client accepts a request body for a schema exactly when
      the body is a map, or nil with an empty schema, and for every
      entry of the schema the body has a value at the path and the type
      check accepts it; the order in which the entries are visited does
      not matter. *)
Theorem validateBodySchema_ok (body : Value) (schema : gmap string string) :
    client.validateBodySchema body schema = None
    ↔ ∃ bodyMap,
        (body = VMap bodyMap ∨ (body = VNil ∧ bodyMap = ∅))
        ∧ ∀ field expectedType, schema !! field = Some expectedType →
            ∃ value, client.getNestedValue bodyMap field = Some value
                     ∧ client.validateFieldType field value expectedType = None.
Proof.
    assert (Hfields : ∀ bodyMap,
      client.validateFields bodyMap schema = None
      ↔ ∀ field expectedType, schema !! field = Some expectedType →
          ∃ value, client.getNestedValue bodyMap field = Some value
                   ∧ client.validateFieldType field value expectedType = None).
    { intros bodyMap. rewrite validateFields_ok. unfold map_Forall.
      apply forall_proper; intros field. apply forall_proper; intros expectedType.
      apply forall_proper; intros _. unfold client.validateField.
      destruct (client.getNestedValue bodyMap field) as [value|]; [|naive_solver].
      split; [by exists value|]. by intros (? & [= <-] & ?). }
    destruct body; simpl.
    1: rewrite Hfields; naive_solver.
    8: rewrite Hfields; naive_solver.
    all: split; [by repeat case_match|]; by intros (? & [?|[? _]] & _).
Qed.
End BodyCheck.

(** * The concurrent run: the semaphore *)

Lemma filter_insert_length {A} (P : A → Prop) `{∀ x, Decision (P x)}
    (l : list A) (i : nat) (x y : A) :
  l !! i = Some x →
  length (filter P (<[i := y]> l)) + (if decide (P x) then 1 else 0)
  = length (filter P l) + (if decide (P y) then 1 else 0).
Proof.
  intros Hi. rewrite <- (take_drop_middle l i x Hi) at 2.
  rewrite insert_take_drop by (by eapply lookup_lt_Some).
  rewrite !filter_app, !length_app, !filter_cons.
  destruct (decide (P x)), (decide (P y)); simpl; lia.
Qed.

Section Semaphore.
Context `{Runtime}.

Lemma inFlight_step (maxConcurrency : Z) (i : nat) (c c' : Concurrent) :
    concurrentStepOf maxConcurrency i c = Some c' →
    (Z.of_nat (inFlight c) ≤ maxConcurrency)%Z →
    (Z.of_nat (inFlight c') ≤ maxConcurrency)%Z.
Proof.
    unfold concurrentStepOf, inFlight.
    destruct (goroutines c !! i) as [[apiTest g]|] eqn:Hi; [|done].
    destruct g as [|remaining attempt result lastErr|result|]; [| | |done].
    - destruct (Z.ltb_spec
                  (Z.of_nat (length (filter (λ g, holdsSemaphore g = true)
                                            (goroutines c)))) maxConcurrency)
        as [Hlt|]; [|done].
      intros [= <-] _. simpl.
      pose proof (filter_insert_length (λ g, holdsSemaphore g = true)
                    (goroutines c) i (apiTest, Waiting)
                    (apiTest, Attempting (Z.to_nat (attemptLimit apiTest)) 0
                                (newResult apiTest) None) Hi) as Hlen.
      rewrite decide_False, decide_True in Hlen by done. lia.
    - destruct remaining as [|remaining].
      + intros [= <-] Hle. simpl.
        pose proof (filter_insert_length (λ g, holdsSemaphore g = true)
                      (goroutines c) i (apiTest, Attempting 0 attempt result lastErr)
                      (apiTest, Returned (exhausted result lastErr)) Hi) as Hlen.
        rewrite !decide_True in Hlen by done. lia.
      + destruct (attemptBody apiTest attempt result lastErr (cenv c))
          as [[[returned result'] lastErr'] env'].
        intros [= <-] Hle. simpl.
        pose proof (filter_insert_length (λ g, holdsSemaphore g = true)
                      (goroutines c) i
                      (apiTest, Attempting (S remaining) attempt result lastErr)
                      (apiTest, if returned then Returned result'
                                else Attempting remaining (attempt + 1) result' lastErr')
                      Hi) as Hlen.
        rewrite !decide_True in Hlen by (by destruct returned). lia.
    - intros [= <-] Hle. simpl.
      pose proof (filter_insert_length (λ g, holdsSemaphore g = true)
                    (goroutines c) i (apiTest, Returned result) (apiTest, Done) Hi)
        as Hlen.
      rewrite decide_True, decide_False in Hlen by done. lia.
Qed.

Lemma inFlight_start (e : Executor.t) (maxConcurrency : Z) (env : Env) c0 :
    concurrentStart e maxConcurrency env = Some c0 →
    inFlight c0 = 0 ∧ (0 ≤ maxConcurrency)%Z.
Proof.
    unfold concurrentStart, inFlight.
    destruct (Z.ltb_spec maxConcurrency 0); [done|]. intros [= <-]. simpl.
    split; [|done].
    induction (TestConfig.APIs (Executor.config e)) as [|t l IH]; [done|].
    cbn [map]. rewrite filter_cons, decide_False by done. exact IH.
Qed.

  (** X13. The semaphore bounds the concurrency: in every state a run of
      [ExecuteConcurrent(maxConcurrency)] can reach, at most
      [maxConcurrency] goroutines hold a slot, that is, are inside
      [executeAPITest] or between it and the end of their function. *)
Theorem ExecuteConcurrent_bounded (e : Executor.t) (maxConcurrency : Z)
      (env : Env) (c0 c : Concurrent) :
    concurrentStart e maxConcurrency env = Some c0 →
    rtc (concurrentStep maxConcurrency) c0 c →
    (Z.of_nat (inFlight c) ≤ maxConcurrency)%Z.
Proof.
    intros Hstart Hrtc. apply inFlight_start in Hstart as [Hzero Hpos].
    assert (Hc0 : (Z.of_nat (inFlight c0) ≤ maxConcurrency)%Z) by lia.
    clear Hzero. induction Hrtc as [|c1 c2 c3 [i Hstep] _ IH]; [done|].
    apply IH. by eapply inFlight_step.
Qed.
End Semaphore.

Lemma ExecuteConcurrent_bounded_witness :
  ∃ c0 c,
    concurrentStart (executorOf [exampleCreate; exampleUse]) 2
      (Scripted.start [exampleCreated; exampleCreated]) = Some c0
    ∧ concurrentRun 2 [0; 1; 1] c0 = Some c
    ∧ inFlight c = 2
    ∧ (Z.of_nat (inFlight c) ≤ 2)%Z.
Proof.
  eexists _, _. split; [reflexivity|]. split; [vm_compute; reflexivity|].
  split; [vm_compute; reflexivity|].
  eapply (ExecuteConcurrent_bounded (executorOf [exampleCreate; exampleUse]) 2
            (Scripted.start [exampleCreated; exampleCreated])).
  - reflexivity.
  - apply (concurrentRun_rtc 2 [0; 1; 1]). vm_compute. reflexivity.
Defined.

(** * The concurrent run: when it returns *)

Section Progress.
Context `{Runtime}.

  (** The goroutines of the tests [pre] are done and those of the tests
      [post] have not started. *)
Lemma inFlight_idle (pre post : list APITest.t) :
    filter (λ g, holdsSemaphore g = true)
      (map (λ t, (t, Done)) pre ++ map (λ t, (t, Waiting)) post) = [].
Proof.
    rewrite filter_app.
    assert (Hidle : ∀ g (l : list APITest.t), holdsSemaphore (g, Done) = false →
              True) by done.
    induction pre as [|t pre IH]; simpl.
    - induction post as [|t post IH]; [done|]. cbn [map].
      by rewrite filter_cons, decide_False.
    - by rewrite filter_cons, decide_False.
Qed.

  (** The attempt loop of a goroutine comes to its end. *)
Lemma attempting_returns (maxConcurrency : Z) (i : nat) (apiTest : APITest.t) :
    ∀ remaining attempt result lastErr c,
      goroutines c !! i = Some (apiTest, Attempting remaining attempt result lastErr) →
      ∃ c' result',
        rtc (concurrentStep maxConcurrency) c c'
        ∧ goroutines c' = <[i := (apiTest, Returned result')]> (goroutines c).
Proof.
    induction remaining as [|remaining IH]; intros attempt result lastErr c Hi.
    - eexists _, _. split.
      + apply rtc_once. exists i. unfold concurrentStepOf. rewrite Hi. reflexivity.
      + reflexivity.
    - destruct (attemptBody apiTest attempt result lastErr (cenv c))
        as [[[returned result1] lastErr1] env1] eqn:Hbody.
      set (c1 := mkConcurrent
                   (<[i := (apiTest,
                            if returned then Returned result1
                            else Attempting remaining (attempt + 1) result1 lastErr1)]>
                      (goroutines c))
                   (creport c) (cexecutor c) env1).
      assert (Hstep : concurrentStep maxConcurrency c c1).
      { exists i. unfold concurrentStepOf. rewrite Hi, Hbody. reflexivity. }
      destruct returned.
      + exists c1, result1. split; [by apply rtc_once|done].
      + destruct (IH (attempt + 1)%Z result1 lastErr1 c1) as (c' & result' & Hrtc & Hgs).
        { simpl. apply list_lookup_insert_eq. by eapply lookup_lt_Some. }
        exists c', result'. split; [by eapply rtc_l|].
        rewrite Hgs. simpl. by rewrite list_insert_insert_eq.
Qed.

Lemma sequential_schedule (maxConcurrency : Z) :
    (1 ≤ maxConcurrency)%Z →
    ∀ post pre c,
      goroutines c = map (λ t, (t, Done)) pre ++ map (λ t, (t, Waiting)) post →
      ∃ c', rtc (concurrentStep maxConcurrency) c c' ∧ allDone c'.
Proof.
    intros Hmc. induction post as [|t post IH]; intros pre c Hgs.
    { exists c. split; [done|]. unfold allDone. rewrite Hgs, app_nil_r.
      by apply Forall_fmap, Forall_true. }
    set (i := length pre).
    assert (Hi : goroutines c !! i = Some (t, Waiting)).
    { rewrite Hgs, lookup_app_r; rewrite length_map; [|done].
      by rewrite Nat.sub_diag. }
    set (c1 := setGoroutine i t
                 (Attempting (Z.to_nat (attemptLimit t)) 0 (newResult t) None) c).
    assert (Hstep1 : concurrentStep maxConcurrency c c1).
    { exists i. unfold concurrentStepOf. rewrite Hi.
      rewrite Hgs at 1. rewrite inFlight_idle. cbn [length].
      change (Z.of_nat 0) with 0%Z.
      destruct (Z.ltb_spec 0 maxConcurrency); [done|lia]. }
    destruct (attempting_returns maxConcurrency i t
                (Z.to_nat (attemptLimit t)) 0 (newResult t) None c1)
      as (c2 & result & Hrtc2 & Hgs2).
    { simpl. apply list_lookup_insert_eq. by eapply lookup_lt_Some. }
    set (c3 := mkConcurrent
                 (<[i := (t, Done)]> (goroutines c2))
                 (if TestResult.Passed result
                  then TestReport.record result 1 0 0 (creport c2)
                  else TestReport.record result 0 1 0 (creport c2))
                 (cexecutor c2) (cenv c2)).
    assert (Hstep3 : concurrentStep maxConcurrency c2 c3).
    { assert (Hi2 : goroutines c2 !! i = Some (t, Returned result)).
      { rewrite Hgs2. simpl. apply list_lookup_insert_eq.
        rewrite length_insert. by eapply lookup_lt_Some. }
      exists i. unfold concurrentStepOf. by rewrite Hi2. }
    destruct (IH (pre ++ [t]) c3) as (c' & Hrtc & Hdone).
    { simpl. rewrite Hgs2. simpl. rewrite !list_insert_insert_eq, Hgs.
      rewrite map_app. simpl. rewrite <- app_assoc. simpl.
      replace i with (length (map (λ t0 : APITest.t, (t0, Done)) pre) + 0)
        by (rewrite length_map; unfold i; lia).
      by rewrite insert_app_r. }
    exists c'. split; [|done].
    eapply rtc_l; [exact Hstep1|]. etrans; [exact Hrtc2|]. by eapply rtc_l.
Qed.

  (** With no slot in the semaphore no goroutine ever gets going. *)
Lemma no_slot_no_step (c c' : Concurrent) :
    Forall (λ g, snd g = Waiting) (goroutines c) →
    ¬ concurrentStep 0 c c'.
Proof.
    intros Hall [i Hstep]. unfold concurrentStepOf in Hstep.
    destruct (goroutines c !! i) as [[t g]|] eqn:Hi; [|done].
    rewrite Forall_forall in Hall.
    assert (g = Waiting) as ->.
    { apply (Hall (t, g)). by eapply list_elem_of_lookup_2. }
    destruct (Z.ltb_spec (Z.of_nat (length (filter (λ g, holdsSemaphore g = true)
                                                    (goroutines c)))) 0);
      [lia|done].
Qed.

  (** X14. Whether [ExecuteConcurrent(maxConcurrency)] can return.  With
      at least one worker it can, whatever the tests are: there is a
      run in which every goroutine finishes.  With [maxConcurrency] 0 no
      goroutine ever acquires the semaphore, and with a negative one the
      channel cannot be made: the function returns only when there is
      no test and the number is 0. *)
Theorem ExecuteConcurrent_returns (e : Executor.t) (maxConcurrency : Z)
      (env : Env) :
    (∃ c, ExecuteConcurrent e maxConcurrency env c)
    ↔ (1 ≤ maxConcurrency)%Z
      ∨ (maxConcurrency = 0%Z ∧ TestConfig.APIs (Executor.config e) = []).
Proof.
    unfold ExecuteConcurrent, concurrentStart. split.
    - intros (c & c0 & Hstart & Hrtc & Hdone).
      destruct (Z.ltb_spec maxConcurrency 0) as [|Hpos]; [done|].
      injection Hstart as <-.
      destruct (decide (maxConcurrency = 0%Z)) as [->|]; [|left; lia].
      right. split; [done|].
      assert (Hwaiting : Forall (λ g, snd g = Waiting)
                (map (λ apiTest, (apiTest, Waiting))
                     (TestConfig.APIs (Executor.config e)))).
      { by apply Forall_fmap, Forall_true. }
      inversion Hrtc as [|c0 c1 c2 Hstep _]; subst.
      2:{ by apply no_slot_no_step in Hstep. }
      unfold allDone in Hdone. simpl in Hdone.
      destruct (TestConfig.APIs (Executor.config e)) as [|t l]; [done|].
      by inversion Hdone.
    - intros [Hmc|[-> Hnil]].
      + destruct (Z.ltb_spec maxConcurrency 0) as [|_]; [lia|].
        destruct (sequential_schedule maxConcurrency Hmc
                    (TestConfig.APIs (Executor.config e)) []
                    (mkConcurrent
                       (map (λ apiTest, (apiTest, Waiting))
                            (TestConfig.APIs (Executor.config e)))
                       (newReport e) e env)) as (c & Hrtc & Hdone); [done|].
        exists c. eexists. by split_and!.
      + simpl. eexists. eexists. split_and!; [done|apply rtc_refl|].
        unfold allDone. simpl. rewrite Hnil. by constructor.
Qed.
End Progress.

(** * Random values *)

Lemma length_string_of_list_ascii (l : list ascii) :
  String.length (string_of_list_ascii l) = length l.
Proof. induction l as [|c l IH]; [done|]. simpl. by rewrite IH. Qed.

Section Random.
Context `{Runtime}.

  (** Numbers drawn below a positive bound are below it, however the
      entropy source behaves. *)
Lemma repeatIO_randInt (max : Z) : ∀ n w,
    (0 < max)%Z →
    length (fst (repeatIO n (randInt max) w)) = n
    ∧ Forall (λ r, (0 ≤ r < max)%Z) (fst (repeatIO n (randInt max) w)).
Proof.
    induction n as [|n IH]; intros w Hmax; [done|].
    assert (Heq : repeatIO (S n) (randInt max) w
                  = ((fst (randReader w) mod max)%Z
                       :: fst (repeatIO n (randInt max) (snd (randReader w))),
                     snd (repeatIO n (randInt max) (snd (randReader w))))).
    { cbn [repeatIO]. unfold bind at 1. unfold randInt at 1. unfold bind at 1.
      destruct (randReader w) as [r w1]. unfold ret at 1. unfold bind at 1.
      simpl. by destruct (repeatIO n (randInt max) w1). }
    rewrite Heq. simpl. destruct (IH (snd (randReader w)) Hmax) as [-> Hall].
    split; [done|]. constructor; [|done]. by apply Z.mod_pos_bound.
Qed.

Lemma pick_elem_of (charset : string) (n : Z) :
    (0 ≤ n < Z.of_nat (String.length charset))%Z →
    pick charset n ∈ list_ascii_of_string charset.
Proof.
    intros Hn. unfold pick. apply list_elem_of_In, nth_In.
    rewrite <- length_string_of_list_ascii, string_of_list_ascii_of_string. lia.
Qed.

  (** X15. [randomString(length)] returns [length] characters, each a
      letter of the Latin alphabet or a digit, whatever the entropy
      source delivers. *)
Theorem randomString_format (length : Z) (w : World) :
    (0 ≤ length)%Z →
    String.length (fst (randomString length w)) = Z.to_nat length
    ∧ Forall (λ c, isAlnum c = true)
             (list_ascii_of_string (fst (randomString length w))).
Proof.
    intros _. unfold randomString, bind, ret.
    pose proof (repeatIO_randInt 62 (Z.to_nat length) w) as [Hlen Hall]; [lia|].
    destruct (repeatIO (Z.to_nat length) (randInt 62) w) as [ns w1]. simpl in *.
    rewrite length_string_of_list_ascii, length_map. split; [done|].
    rewrite list_ascii_of_string_of_list_ascii. apply Forall_fmap.
    eapply Forall_impl; [exact Hall|]. intros r Hr. simpl in *.
    assert (Hin : pick "abcdefghijklmnopqrstuvwxyzABCDEFGHIJKLMNOPQRSTUVWXYZ0123456789" r
                  ∈ list_ascii_of_string
                      "abcdefghijklmnopqrstuvwxyzABCDEFGHIJKLMNOPQRSTUVWXYZ0123456789").
    { apply pick_elem_of. simpl. lia. }
    revert Hin. generalize (pick "abcdefghijklmnopqrstuvwxyzABCDEFGHIJKLMNOPQRSTUVWXYZ0123456789" r).
    intros c Hc. simpl in Hc.
    repeat (apply elem_of_cons in Hc as [->|Hc]; [done|]).
    by apply elem_of_nil in Hc.
Qed.

Lemma randomNumber_shape (length : Z) (w : World) :
    (0 < length)%Z →
    String.length (fst (randomNumber length w)) = Z.to_nat length
    ∧ Forall (λ c, isDigit c = true)
             (list_ascii_of_string (fst (randomNumber length w)))
    ∧ ∃ c rest, fst (randomNumber length w) = String c rest ∧ c ≠ "0"%char.
Proof.
    intros Hpos. destruct (randomNumber length w) as [s w'] eqn:Heq. simpl.
    unfold randomNumber in Heq. unfold bind at 1 in Heq.
    pose proof (repeatIO_randInt 10 (Z.to_nat length) w) as [Hlen Hall]; [lia|].
    destruct (repeatIO (Z.to_nat length) (randInt 10) w) as [ns w1]. simpl in Hlen, Hall.
    assert (Hdigit : ∀ r, (0 ≤ r < 10)%Z → isDigit (pick "0123456789" r) = true).
    { intros r Hr.
      assert (Hin : pick "0123456789" r ∈ list_ascii_of_string "0123456789").
      { apply pick_elem_of. simpl. lia. }
      revert Hin. generalize (pick "0123456789" r). intros c Hc. simpl in Hc.
      repeat (apply elem_of_cons in Hc as [->|Hc]; [done|]).
      by apply elem_of_nil in Hc. }
    assert (Hnonzero : ∀ r, (0 ≤ r < 9)%Z → pick "0123456789" (r + 1) ≠ "0"%char).
    { intros r Hr. unfold pick.
      assert (Z.to_nat (r + 1) ∈ [1; 2; 3; 4; 5; 6; 7; 8; 9]) as Hin.
      { assert (1 ≤ Z.to_nat (r + 1) ≤ 9) as Hb by lia.
        revert Hb. generalize (Z.to_nat (r + 1)). intros k Hk.
        do 10 (destruct k as [|k]; [set_solver by lia|]). lia. }
      repeat (apply elem_of_cons in Hin as [->|Hin]; [done|]).
      by apply elem_of_nil in Hin. }
    destruct ns as [|n ns]; [simpl in Hlen; lia|].
    apply Forall_cons in Hall as [Hn Hns]. cbn [map] in Heq.
    assert (Hrest : Forall (λ c, isDigit c = true) (map (pick "0123456789") ns)).
    { apply Forall_fmap. eapply Forall_impl; [exact Hns|]. intros r Hr. by apply Hdigit. }
    assert (Hshape : ∀ c, isDigit c = true → c ≠ "0"%char →
      String.length (string_of_list_ascii (c :: map (pick "0123456789") ns))
      = Z.to_nat length
      ∧ Forall (λ c, isDigit c = true)
          (list_ascii_of_string
             (string_of_list_ascii (c :: map (pick "0123456789") ns)))
      ∧ ∃ c' rest, string_of_list_ascii (c :: map (pick "0123456789") ns)
                   = String c' rest ∧ c' ≠ "0"%char).
    { intros c Hc Hnz.
      rewrite length_string_of_list_ascii, list_ascii_of_string_of_list_ascii.
      simpl. rewrite length_map. split_and!.
      - simpl in Hlen. lia.
      - by constructor.
      - by eexists _, _. }
    destruct (Ascii.eqb_spec (pick "0123456789" n) "0") as [Hzero|Hnz].
    - unfold bind, randInt, bind, ret in Heq. destruct (randReader w1) as [r w2].
      injection Heq as <- _.
      assert (Hr : (0 ≤ r mod 9 < 9)%Z) by (apply Z.mod_pos_bound; lia).
      apply Hshape; [apply Hdigit; lia|by apply Hnonzero].
    - unfold ret in Heq. injection Heq as <- _. apply Hshape; [by apply Hdigit|done].
Qed.

  (** X16. [randomNumber(length)], for a positive [length], returns
      [length] decimal digits of which the first is not 0. *)
Theorem randomNumber_format (length : Z) (w : World) :
    (0 < length)%Z →
    String.length (fst (randomNumber length w)) = Z.to_nat length
    ∧ Forall (λ c, isDigit c = true)
             (list_ascii_of_string (fst (randomNumber length w)))
    ∧ ∃ c rest, fst (randomNumber length w) = String c rest ∧ c ≠ "0"%char.
Proof. apply randomNumber_shape. Qed.

  (** X18. [randomPhone] returns eleven decimal digits, the first of
      them 1: one of the prefixes of three digits and eight digits
      after it. *)
Theorem randomPhone_format (w : World) :
    String.length (fst (randomPhone w)) = 11
    ∧ Forall (λ c, isDigit c = true) (list_ascii_of_string (fst (randomPhone w)))
    ∧ ∃ rest, fst (randomPhone w) = String "1" rest.
Proof.
    destruct (randomPhone w) as [s w'] eqn:Heq. simpl.
    unfold randomPhone in Heq. unfold bind at 1 in Heq.
    unfold randInt at 1 in Heq. unfold bind at 1 in Heq.
    destruct (randReader w) as [r w1]. unfold ret at 1 in Heq.
    unfold bind at 1 in Heq.
    pose proof (randomNumber_shape 8 w1) as (Hlen & Hdigits & _); [lia|].
    destruct (randomNumber 8 w1) as [digits w2]. simpl in Hlen, Hdigits.
    unfold ret in Heq. apply (f_equal fst) in Heq. cbn [fst] in Heq. subst s.
    assert (Hr : (0 ≤ r mod 29 < 29)%Z) by (apply Z.mod_pos_bound; lia).
    unfold pickString.
    assert (Z.to_nat (r mod 29) < 29) as Hk by lia.
    revert Hk. generalize (Z.to_nat (r mod 29)). intros k Hk.
    do 29 (destruct k as [|k];
           [cbn [nth]; repeat (rewrite append_cons || rewrite append_nil_l);
            cbn [String.length list_ascii_of_string]; rewrite Hlen;
            split_and!; [done|by repeat constructor|by eexists]|]).
    lia.
Qed.
End Random.

Lemma randomString_format_witness :
  String.length (fst (randomString 8 (Scripted.mkWorld [] 0))) = 8
  ∧ Forall (λ c, isAlnum c = true)
           (list_ascii_of_string (fst (randomString 8 (Scripted.mkWorld [] 0)))).
Proof.
  apply (randomString_format (H := Scripted.runtime) 8 (Scripted.mkWorld [] 0)). lia.
Defined.

Lemma randomNumber_format_witness :
  String.length (fst (randomNumber 6 (Scripted.mkWorld [] 0))) = 6
  ∧ Forall (λ c, isDigit c = true)
           (list_ascii_of_string (fst (randomNumber 6 (Scripted.mkWorld [] 0))))
  ∧ ∃ c rest, fst (randomNumber 6 (Scripted.mkWorld [] 0)) = String c rest
              ∧ c ≠ "0"%char.
Proof.
  apply (randomNumber_format (H := Scripted.runtime) 6 (Scripted.mkWorld [] 0)). lia.
Defined.

(** In the scripted world the entropy source counts up from 0: the
    string is the head of the alphabet, and the number has its leading
    zero redrawn. *)
Example random_values_scripted :
  fst (randomString 8 (Scripted.mkWorld [] 0)) = "abcdefgh"
  ∧ fst (randomNumber 6 (Scripted.mkWorld [] 0)) = "712345"
  ∧ fst (randomUUID (Scripted.mkWorld [] 0))
    = "00010203-0405-4607-8809-0a0b0c0d0e0f".
Proof. vm_compute. done. Qed.

(** ** UUIDs *)

Lemma hex_digit_high (b : ascii) : isHex (hex.digit (Nat.div (byteCode b) 16)) = true.
Proof. by destruct b as [[] [] [] [] [] [] [] []]. Qed.

Lemma hex_digit_low (b : ascii) : isHex (hex.digit (Nat.modulo (byteCode b) 16)) = true.
Proof. by destruct b as [[] [] [] [] [] [] [] []]. Qed.

Lemma uuid_version (b : ascii) :
  hex.digit (Nat.div (byteCode (setBits b 15 64)) 16) = "4"%char.
Proof. by destruct b as [[] [] [] [] [] [] [] []]. Qed.

Lemma uuid_variant (b : ascii) :
  let c := hex.digit (Nat.div (byteCode (setBits b 63 128)) 16) in
  Ascii.eqb c "8" || Ascii.eqb c "9" || Ascii.eqb c "a" || Ascii.eqb c "b" = true.
Proof. by destruct b as [[] [] [] [] [] [] [] []]. Qed.

Lemma EncodeToString_cons (b : ascii) (r : list ascii) :
  hex.EncodeToString (b :: r)
  = String (hex.digit (Nat.div (byteCode b) 16))
      (String (hex.digit (Nat.modulo (byteCode b) 16)) (hex.EncodeToString r)).
Proof. reflexivity. Qed.

Lemma EncodeToString_nil : hex.EncodeToString [] = "".
Proof. reflexivity. Qed.

Section UUID.
Context `{Runtime}.

  (** X17. [randomUUID] returns the textual form of a version-4 UUID:
      36 characters in the layout 8-4-4-4-12 of lower-case hexadecimal
      digits, with the version digit 4 and a variant digit among 8, 9,
      a, b, whatever the sixteen bytes drawn are. *)
Theorem randomUUID_format (w : World) :
    isUUIDv4 (fst (randomUUID w)) = true.
Proof.
    destruct (randomUUID w) as [s w'] eqn:Heq. simpl.
    unfold randomUUID in Heq. unfold bind at 1 in Heq.
    pose proof (repeatIO_randInt 256 16 w) as [Hlen _]; [lia|].
    destruct (repeatIO 16 (randInt 256) w) as [rs w1]. simpl in Hlen.
    do 16 (destruct rs as [|? rs]; [done|]).
    destruct rs; [|done]. clear Hlen.
    unfold ret in Heq. apply (f_equal fst) in Heq. cbn [fst] in Heq. subst s.
    cbn [map alter list_alter take drop Nat.sub].
    repeat rewrite EncodeToString_cons. rewrite !EncodeToString_nil.
    repeat (rewrite append_cons || rewrite append_nil_l).
    rewrite uuid_version.
    pose proof (uuid_variant (ascii_of_nat (Z.to_nat z7))) as Hv.
    cbv zeta in Hv. revert Hv.
    generalize (hex.digit (Nat.div (byteCode (setBits (ascii_of_nat (Z.to_nat z7))
                                                63 128)) 16)).
    intros v Hv.
    repeat match goal with
           | |- context [hex.digit ?n] =>
             let Hd := fresh "Hd" in
             assert (isHex (hex.digit n) = true) as Hd
               by (apply hex_digit_high || apply hex_digit_low);
             revert Hd; generalize (hex.digit n); intros ? Hd
           end.
    unfold isUUIDv4.
    cbn [String.length Nat.eqb list_ascii_of_string seq combine forallb andb orb].
    repeat match goal with
           | Hd : isHex _ = true |- _ => rewrite Hd; clear Hd
           end.
    rewrite Hv. reflexivity.
Qed.
End UUID.

(** * Templating a request that has no placeholder *)

(** ** Induction on values *)

Lemma Value_size_slice (x : Value) (l : list Value) :
  x ∈ l → Value_size x < Value_size (VSlice l).
Proof.
  simpl. induction l as [|y l IH]; [by intros ?%elem_of_nil|].
  intros [->|Hx]%elem_of_cons; simpl; [lia|]. specialize (IH Hx). lia.
Qed.

Lemma Value_size_map (m : gmap string Value) (k : string) (x : Value) :
  m !! k = Some x → Value_size x < Value_size (VMap m).
Proof.
  simpl. revert k x.
  apply (map_fold_weak_ind (λ r m, ∀ k x, m !! k = Some x → Value_size x < S r)).
  { intros k x. by rewrite lookup_empty. }
  intros i y m' r Hfresh IH k x. destruct (decide (i = k)) as [->|Hne].
  - rewrite lookup_insert_eq. intros [= ->]. lia.
  - rewrite lookup_insert_ne by done. intros Hk. specialize (IH k x Hk). lia.
Qed.

Lemma Value_ind' (P : Value → Prop) :
  P VNil → (∀ b, P (VBool b)) → (∀ n, P (VInt n)) → (∀ n, P (VInt64 n)) →
  (∀ f, P (VFloat32 f)) → (∀ f, P (VFloat64 f)) → (∀ s, P (VString s)) →
  (∀ l, Forall P l → P (VSlice l)) →
  (∀ m, map_Forall (λ _, P) m → P (VMap m)) →
  ∀ v, P v.
Proof.
  intros Hnil Hbool Hint Hint64 Hf32 Hf64 Hstring Hslice Hmap v.
  remember (Value_size v) as n eqn:Hn. revert v Hn.
  induction (lt_wf n) as [n _ IH]. intros v ->. destruct v; auto.
  - apply Hslice. apply Forall_forall. intros x Hx.
    eapply IH; [|reflexivity]. by apply Value_size_slice.
  - apply Hmap. intros k x Hk.
    eapply IH; [|reflexivity]. by eapply Value_size_map.
Qed.

Lemma braceFree_map (m : gmap string Value) :
  braceFree (VMap m) = true → map_Forall (λ _ x, braceFree x = true) m.
Proof.
  simpl.
  apply (map_fold_weak_ind (λ r m, r = true →
           map_Forall (λ _ x, braceFree x = true) m)).
  { intros _. apply map_Forall_empty. }
  intros i x m' r Hfresh IH [Hx Hr]%andb_true_iff.
  apply map_Forall_insert_2; [done|by apply IH].
Qed.

(** ** Strings without a brace *)

Lemma occurs_rev_app (c : ascii) (s1 s2 : string) :
  occurs c (String.rev_app s1 s2) = occurs c s1 || occurs c s2.
Proof.
  revert s2. induction s1 as [|a s1 IH]; intros s2; [done|]. simpl.
  rewrite IH. simpl. destruct (Ascii.eqb a c), (occurs c s1), (occurs c s2); done.
Qed.

Lemma occurs_rev (c : ascii) (s : string) : occurs c (String.rev s) = occurs c s.
Proof. unfold String.rev. rewrite occurs_rev_app. simpl. by rewrite orb_false_r. Qed.

Lemma occurs_trimSpaceLeft (c : ascii) (backwards : bool) (s : string) :
  occurs c (strings.trimSpaceLeft backwards s) = true → occurs c s = true.
Proof.
  remember (String.length s) as n eqn:Hn. revert s Hn.
  induction (lt_wf n) as [n _ IH]. intros s ->.
  destruct s as [|c1 r1]; [done|]. cbn [strings.trimSpaceLeft].
  destruct (strings.isSpace1 (byteCode c1)).
  { intros Hr. cbn [occurs]. rewrite (IH _ (Nat.lt_succ_diag_r _) r1 eq_refl Hr).
    by rewrite orb_true_r. }
  destruct r1 as [|c2 r2]; [done|].
  destruct (if backwards then _ else _).
  { intros Hr. cbn [occurs]. rewrite (IH (String.length r2)) with (s := r2); try done.
    - by rewrite !orb_true_r.
    - simpl. lia. }
  destruct r2 as [|c3 r3]; [done|].
  destruct (if backwards then _ else _); [|done].
  intros Hr. cbn [occurs]. rewrite (IH (String.length r3)) with (s := r3); try done.
  - by rewrite !orb_true_r.
  - simpl. lia.
Qed.

Lemma occurs_TrimSpace (c : ascii) (s : string) :
  occurs c (strings.TrimSpace s) = true → occurs c s = true.
Proof.
  unfold strings.TrimSpace. rewrite occurs_rev.
  intros Hs%occurs_trimSpaceLeft. rewrite occurs_rev in Hs.
  by apply occurs_trimSpaceLeft in Hs.
Qed.

Lemma scan_no_brace (s : string) :
  occurs "{" s = false → ∀ k g, varPattern.Match g ∉ varPattern.scan s k.
Proof.
  induction s as [|c s IH]; intros Hocc k g; cbn [varPattern.scan].
  { apply not_elem_of_nil. }
  cbn [occurs] in Hocc. apply orb_false_elim in Hocc as [Hc Hs].
  destruct k as [|k]; [|by apply IH].
  assert (varPattern.matchAt (String c s) = None) as ->.
  { unfold varPattern.matchAt. destruct s; [done|]. by rewrite Hc. }
  apply not_elem_of_cons. split; [done|]. by apply IH.
Qed.

Section NoPlaceholder.
Context `{Runtime}.

Lemma replaceInString_no_brace e (s : string) w :
    occurs "{" s = false → replaceInString e s w = (s, w).
Proof.
    intros Hocc. apply replaceInString_unresolved.
    intros g Hg. by apply scan_no_brace in Hg.
Qed.

Lemma replaceInInterface_no_brace e (s : string) w :
    occurs "{" s = false → replaceInInterface e (VString s) w = (VString s, w).
Proof.
    intros Hocc. apply replaceInInterface_unresolved.
    - intros g Hg. by apply scan_no_brace in Hg.
    - intros g (Hs & _). assert (occurs "{" s = true); [|congruence].
      apply occurs_TrimSpace. by rewrite Hs.
Qed.

Lemma replaceInInterface_VSlice e (l : list Value) :
    replaceInInterface e (VSlice l)
    = bind (mapIO (replaceInInterface e) l) (λ result, ret (VSlice result)).
Proof. reflexivity. Qed.

Lemma replaceInInterface_braceFree e : ∀ v,
    braceFree v = true → ∀ w, replaceInInterface e v w = (v, w).
Proof.
    apply (Value_ind' (λ v, braceFree v = true →
                            ∀ w, replaceInInterface e v w = (v, w))); try done.
    - intros s Hs w. apply replaceInInterface_no_brace.
      simpl in Hs. by apply negb_true_iff in Hs.
    - intros l IH Hl w. rewrite replaceInInterface_VSlice. unfold bind at 1.
      assert (mapIO (replaceInInterface e) l w = (l, w)) as ->; [|done].
      simpl in Hl. clear -IH Hl. revert w.
      induction IH as [|x l Hx _ IHl]; intros w; [done|].
      simpl in Hl. apply andb_true_iff in Hl as [Hx' Hl'].
      cbn [mapIO]. unfold bind at 1. rewrite (Hx Hx' w).
      unfold bind at 1. by rewrite (IHl Hl' w).
    - intros m IH Hm w. rewrite replaceInInterface_VMap. unfold bind at 1.
      apply braceFree_map in Hm.
      assert (Hfold : ∀ w,
        map_fold (λ k x acc,
          bind acc (λ result,
            bind (replaceInInterface e x) (λ x', ret (<[k := x']> result))))
          (ret ∅) m w = (m, w)); [|by rewrite Hfold].
      revert IH Hm.
      apply (map_fold_weak_ind (λ (r : IO (gmap string Value)) m',
               map_Forall (λ _ v, braceFree v = true →
                                  ∀ w, replaceInInterface e v w = (v, w)) m' →
               map_Forall (λ _ x, braceFree x = true) m' →
               ∀ w, r w = (m', w))); [done|].
      intros k x m' r Hfresh IHr HP HB w0.
      apply map_Forall_insert in HP as [HPx HP]; [|done].
      apply map_Forall_insert in HB as [HBx HB]; [|done].
      unfold bind at 1. rewrite (IHr HP HB w0).
      unfold bind at 1. by rewrite (HPx HBx w0).
Qed.

Lemma headers_no_brace e (headers : gmap string string) :
    map_Forall (λ _ v, occurs "{" v = false) headers →
    ∀ w, map_fold (λ k v acc,
           bind acc (λ processedHeaders : gmap string string,
             bind (replaceInString e v) (λ v',
               ret (<[k := v']> processedHeaders))))
           (ret (∅ : gmap string string)) headers w = (headers, w).
Proof.
    apply (map_fold_weak_ind (λ (r : IO (gmap string string)) m',
             map_Forall (λ _ v, occurs "{" v = false) m' →
             ∀ w, r w = (m', w))); [done|].
    intros k v m' r Hfresh IHr HB w.
    apply map_Forall_insert in HB as [Hv HB]; [|done].
    unfold bind at 1. rewrite (IHr HB w).
    unfold bind at 1. by rewrite (replaceInString_no_brace e v w Hv).
Qed.

  (** X19. Templating leaves a request without placeholders alone.  When
      no string of the path, the header values, the query parameters and
      the body has an opening brace, [replaceVariables] returns the test
      with the same path, headers and query parameters, and with the
      body as it is, or converted to the body schema if there is one;
      and it draws nothing from the entropy source or the clock. *)
Theorem replaceVariables_without_placeholders (e : Executor.t)
      (apiTest : APITest.t) (w : World) :
    let req := APITest.Request apiTest in
    occurs "{" (RequestConfig.Path req) = false →
    map_Forall (λ _ v, occurs "{" v = false) (RequestConfig.Headers req) →
    braceFree (VMap (RequestConfig.Query req)) = true →
    braceFree (RequestConfig.Body req) = true →
    replaceVariables e apiTest w
    = (APITest.mk (APITest.Name apiTest) (APITest.Description apiTest)
         (APITest.Version apiTest) (APITest.Versions apiTest)
         (APITest.Weight apiTest) (APITest.DependsOn apiTest)
         (RequestConfig.mk (RequestConfig.Method req) (RequestConfig.Path req)
            (RequestConfig.Headers req) (RequestConfig.Query req)
            (if isNil (RequestConfig.Body req) then RequestConfig.Body req
             else if Nat.ltb 0 (size (RequestConfig.BodySchema req))
             then convertBodyToSchemaTypes (RequestConfig.Body req)
                    (RequestConfig.BodySchema req)
             else RequestConfig.Body req)
            (RequestConfig.BodySchema req))
         (APITest.Response apiTest) (APITest.RetryPolicy apiTest), w).
Proof.
    intros req Hpath Hheaders Hquery Hbody. unfold replaceVariables. fold req.
    unfold bind at 1. rewrite (replaceInString_no_brace e _ w Hpath).
    unfold bind at 1. rewrite (replaceInInterface_braceFree e _ Hquery w).
    unfold bind at 1.
    assert (Hb : (if isNil (RequestConfig.Body req)
                  then ret (RequestConfig.Body req)
                  else bind (replaceInInterface e (RequestConfig.Body req))
                         (λ body,
                            if Nat.ltb 0 (size (RequestConfig.BodySchema req))
                            then ret (convertBodyToSchemaTypes body
                                        (RequestConfig.BodySchema req))
                            else ret body)) w
                 = (if isNil (RequestConfig.Body req) then RequestConfig.Body req
                    else if Nat.ltb 0 (size (RequestConfig.BodySchema req))
                    then convertBodyToSchemaTypes (RequestConfig.Body req)
                           (RequestConfig.BodySchema req)
                    else RequestConfig.Body req, w)).
    { destruct (isNil (RequestConfig.Body req)); [done|].
      unfold bind. rewrite (replaceInInterface_braceFree e _ Hbody w).
      by destruct (Nat.ltb 0 (size (RequestConfig.BodySchema req))). }
    rewrite Hb. unfold bind at 1. by rewrite (headers_no_brace e _ Hheaders w).
Qed.
End NoPlaceholder.

Lemma replaceVariables_without_placeholders_witness :
  replaceVariables (executorOf [exampleCreate]) exampleCreate (Scripted.mkWorld [] 0)
  = (exampleCreate, Scripted.mkWorld [] 0).
Proof.
  apply (replaceVariables_without_placeholders (H := Scripted.runtime)
           (executorOf [exampleCreate]) exampleCreate (Scripted.mkWorld [] 0)).
  - reflexivity.
  - apply map_Forall_empty.
  - reflexivity.
  - reflexivity.
Defined.

(** * Field paths *)

Lemma range_ascii (c : ascii) (r : string) :
  Nat.ltb (byteCode c) 128 = true →
  utf8.range (String c r) 0
  = utf8.mkRune (Some c) (String c "")
      (match r with EmptyString => true | _ => false end)
    :: utf8.range r 0.
Proof.
  intros Hc. cbn [utf8.range]. unfold utf8.decodeWidth. rewrite Hc.
  cbn [Nat.eqb utf8.take Nat.pred]. by destruct r.
Qed.

Section FieldPaths.
Context `{Runtime}.

Lemma parseSwitch_plain acc cur bracket content c enc last :
    plainChar c = true →
    parseSwitch (mkParse acc cur bracket content) (utf8.mkRune (Some c) enc last)
    = if bracket then mkParse acc cur bracket (content +:+ enc)
      else mkParse acc (cur +:+ enc) bracket content.
Proof.
    unfold plainChar. intros Hc. unfold parseSwitch. cbn [utf8.ascii_ch utf8.encoded].
    destruct c as [[] [] [] [] [] [] [] []]; try done.
Qed.

Lemma append_not_nil (a b : string) : b ≠ "" → a +:+ b ≠ "".
Proof.
    intros Hb Heq. apply (f_equal String.length) in Heq.
    rewrite length_append in Heq. destruct b; [done|]. simpl in Heq. lia.
Qed.

  (** The characters of a name, with more of the path after them. *)
Lemma fold_name (n : string) : ∀ rest acc cur,
    forallb plainChar (list_ascii_of_string n) = true → rest ≠ "" →
    fold_left parseStep (utf8.range (n +:+ rest) 0) (mkParse acc cur false "")
    = fold_left parseStep (utf8.range rest 0) (mkParse acc (cur +:+ n) false "").
Proof.
    induction n as [|c n IH]; intros rest acc cur Hn Hrest.
    { by rewrite append_nil_l, append_nil_r. }
    cbn [list_ascii_of_string forallb] in Hn. apply andb_true_iff in Hn as [Hc Hn].
    rewrite append_cons, range_ascii
      by (unfold plainChar in Hc; by repeat (apply andb_true_iff in Hc as [Hc _])).
    cbn [fold_left]. unfold parseStep at 2. rewrite parseSwitch_plain by done.
    cbn [utf8.atLastByte currentPart].
    assert (n +:+ rest ≠ "") as Hne by (by apply append_not_nil).
    destruct (n +:+ rest) as [|c' r'] eqn:Hnr; [done|]. cbn [andb].
    rewrite <- Hnr, IH by done. by rewrite append_assoc, append_cons, append_nil_l.
Qed.

  (** The characters of the last name of a path. *)
Lemma fold_last_name (n : string) : ∀ acc cur,
    forallb plainChar (list_ascii_of_string n) = true → n ≠ "" →
    parts (fold_left parseStep (utf8.range n 0) (mkParse acc cur false ""))
    = acc ++ [mkPart (cur +:+ n) false 0].
Proof.
    induction n as [|c n IH]; intros acc cur Hn Hne; [done|].
    cbn [list_ascii_of_string forallb] in Hn. apply andb_true_iff in Hn as [Hc Hn].
    rewrite range_ascii
      by (unfold plainChar in Hc; by repeat (apply andb_true_iff in Hc as [Hc _])).
    cbn [fold_left]. unfold parseStep at 2. rewrite parseSwitch_plain by done.
    cbn [utf8.atLastByte currentPart].
    destruct n as [|c' n'].
    - cbn [andb utf8.range fold_left].
      assert (String.eqb (cur +:+ String c "") "" = false) as ->.
      { apply String.eqb_neq. by apply append_not_nil. }
      done.
    - cbn [andb]. rewrite IH by done.
      by rewrite append_assoc, append_cons, append_nil_l.
Qed.

  (** A dot after a name closes the part. *)
Lemma fold_dot (rest : string) acc cur :
    cur ≠ "" → rest ≠ "" →
    fold_left parseStep (utf8.range (String "." rest) 0) (mkParse acc cur false "")
    = fold_left parseStep (utf8.range rest 0)
        (mkParse (acc ++ [mkPart cur false 0]) "" false "").
Proof.
    intros Hcur Hrest. rewrite range_ascii by done. cbn [fold_left].
    unfold parseStep at 2. unfold parseSwitch. cbn [utf8.ascii_ch].
    apply String.eqb_neq in Hcur. rewrite Hcur. cbn [negb utf8.atLastByte].
    by destruct rest.
Qed.

Lemma plainName_spec (n : string) :
    plainName n = true → n ≠ "" ∧ forallb plainChar (list_ascii_of_string n) = true.
Proof.
    unfold plainName. intros [Hne Hall]%andb_true_iff. split; [|done].
    apply negb_true_iff in Hne. by apply String.eqb_neq.
Qed.

Lemma parse_names : ∀ names acc,
    names ≠ [] → Forall (λ n, plainName n = true) names →
    parts (fold_left parseStep (utf8.range (strings.Join names ".") 0)
             (mkParse acc "" false ""))
    = acc ++ map (λ n, mkPart n false 0) names.
Proof.
    induction names as [|n names IH]; intros acc Hne Hall; [done|].
    apply Forall_cons in Hall as [[Hn Hchars]%plainName_spec Hall].
    destruct (decide (names = [])) as [->|Hnames].
    - cbn [strings.Join map]. rewrite fold_last_name by done.
      by rewrite append_nil_l.
    - rewrite Join_cons by done.
      assert (strings.Join names "." ≠ "") as Hjoin.
      { destruct names as [|n2 names]; [done|].
        apply Forall_cons in Hall as [[Hn2 _]%plainName_spec _].
        destruct names; [done|]. rewrite Join_cons by done.
        intros Heq. apply (f_equal String.length) in Heq.
        rewrite length_append in Heq. destruct n2; [done|]. simpl in Heq. lia. }
      rewrite fold_name; [|done|by apply append_not_nil].
      rewrite append_nil_l.
      replace ("." +:+ strings.Join names ".")
        with (String "." (strings.Join names ".")) by done.
      rewrite fold_dot by done.
      rewrite IH by done. cbn [map]. by rewrite <- app_assoc.
Qed.

Lemma parseFieldPath_names (path : string) :
    Forall (λ n, plainName n = true) (strings.Split path ".") →
    parseFieldPath path
    = map (λ n, mkPart n false 0) (strings.Split path ".").
Proof.
    intros Hall. unfold parseFieldPath.
    destruct (String.eqb_spec path "") as [->|Hne].
    { simpl in Hall. by apply Forall_cons in Hall as [? _]. }
    rewrite <- (Join_Split path ".") at 1.
    rewrite parse_names; [done|apply Split_not_nil|done].
Qed.

  (** X20. A dotted path of plain names (ASCII characters other than
      the dot and the brackets, at least one in every name) is parsed
      into one field part per name, in order. *)
Theorem parseFieldPath_dotted (path : string) :
    Forall (λ n, plainName n = true) (strings.Split path ".") →
    parseFieldPath path
    = map (λ n, mkPart n false 0) (strings.Split path ".").
Proof. apply parseFieldPath_names. Qed.
End FieldPaths.

Lemma parseFieldPath_dotted_witness :
  parseFieldPath "data.user.id"
  = [mkPart "data" false 0; mkPart "user" false 0; mkPart "id" false 0].
Proof.
  apply (parseFieldPath_dotted "data.user.id"). by repeat constructor.
Defined.

(** The last part is closed at the last byte of the path: a name that
    ends in a character of several bytes is lost. *)
Example parseFieldPath_multibyte_tail :
  parseFieldPath "data.名" = [mkPart "data" false 0]
  ∧ parseFieldPath "名.id" = [mkPart "名" false 0; mkPart "id" false 0].
Proof. by vm_compute. Qed.

Section FieldValues.
Context `{Runtime}.

Lemma extractParts_fields : ∀ names v,
    extractParts v (map (λ n, mkPart n false 0) names)
    = default VNil (client.getNestedParts v names).
Proof.
    induction names as [|n names IH]; intros v; [done|].
    cbn [map extractParts client.getNestedParts].
    unfold extractStep. cbn [isArray name]. unfold fieldOf.
    destruct v as [| | | | | | | |m]; try done.
    destruct (m !! n) as [x|]; [apply IH|done].
Qed.

  (** X21. On a dotted path of plain names the engine's
      [extractFieldValue] and the client's [getNestedValue] read a map
      alike: the engine returns the value the client finds, and nil
      where the client finds none. *)
Theorem extractFieldValue_dotted (data : gmap string Value) (path : string) :
    Forall (λ n, plainName n = true) (strings.Split path ".") →
    extractFieldValue (VMap data) path
    = default VNil (client.getNestedValue data path).
Proof.
    intros Hall. unfold extractFieldValue, client.getNestedValue.
    rewrite parseFieldPath_names by done. apply extractParts_fields.
Qed.
End FieldValues.

Lemma extractFieldValue_dotted_witness :
  extractFieldValue
    (VMap {["data" := VMap {["id" := VString "123"]}]}) "data.id"
  = default VNil
      (client.getNestedValue {["data" := VMap {["id" := VString "123"]}]} "data.id").
Proof.
  apply extractFieldValue_dotted. by repeat constructor.
Defined.

Section IndexedPaths.
Context `{Runtime}.

  (** The characters between the brackets. *)
Lemma fold_bracket (d : string) : ∀ rest acc cur content,
    forallb plainChar (list_ascii_of_string d) = true → rest ≠ "" →
    fold_left parseStep (utf8.range (d +:+ rest) 0) (mkParse acc cur true content)
    = fold_left parseStep (utf8.range rest 0) (mkParse acc cur true (content +:+ d)).
Proof.
    induction d as [|c d IH]; intros rest acc cur content Hd Hrest.
    { by rewrite append_nil_l, append_nil_r. }
    cbn [list_ascii_of_string forallb] in Hd. apply andb_true_iff in Hd as [Hc Hd].
    rewrite append_cons, range_ascii
      by (unfold plainChar in Hc; by repeat (apply andb_true_iff in Hc as [Hc _])).
    cbn [fold_left]. unfold parseStep at 2. rewrite parseSwitch_plain by done.
    cbn [utf8.atLastByte currentPart].
    assert (d +:+ rest ≠ "") as Hne by (by apply append_not_nil).
    destruct (d +:+ rest) as [|c' r'] eqn:Hdr; [done|]. cbn [andb].
    rewrite <- Hdr, IH by done. by rewrite append_assoc, append_cons, append_nil_l.
Qed.

Lemma parseStep_open acc cur content enc :
    parseStep (mkParse acc cur false content) (utf8.mkRune (Some "["%char) enc false)
    = mkParse acc cur true content.
Proof. done. Qed.

Lemma parseStep_close acc cur content enc :
    parts (parseStep (mkParse acc cur true content)
             (utf8.mkRune (Some "]"%char) enc true))
    = match strconv.Atoi content with
      | Some i =>
        if Z.leb 0 i then acc ++ [mkPart cur true i]
        else if negb (String.eqb cur "") then acc ++ [mkPart cur false 0] else acc
      | None => if negb (String.eqb cur "") then acc ++ [mkPart cur false 0] else acc
      end.
Proof.
    unfold parseStep, parseSwitch. cbn [utf8.ascii_ch utf8.atLastByte andb].
    destruct (strconv.Atoi content) as [i|]; [destruct (Z.leb 0 i)|];
      cbn [currentPart parts]; try done; by destruct (String.eqb cur "").
Qed.

Lemma parseFieldPath_indexed (fieldName d : string) :
    plainName fieldName = true →
    forallb plainChar (list_ascii_of_string d) = true →
    parseFieldPath (fieldName +:+ "[" +:+ d +:+ "]")
    = [match strconv.Atoi d with
       | Some i => if Z.leb 0 i then mkPart fieldName true i
                   else mkPart fieldName false 0
       | None => mkPart fieldName false 0
       end].
Proof.
    intros [Hne Hchars]%plainName_spec Hd. unfold parseFieldPath.
    assert (String.eqb (fieldName +:+ "[" +:+ d +:+ "]") "" = false) as ->.
    { apply String.eqb_neq. apply append_not_nil.
      replace ("[" +:+ d +:+ "]") with (String "[" (d +:+ "]")) by done. done. }
    replace ("[" +:+ d +:+ "]") with (String "[" (d +:+ "]")) by done.
    rewrite fold_name by done. rewrite append_nil_l.
    rewrite range_ascii by done. cbn [fold_left].
    assert (d +:+ "]" ≠ "") as Hdne by (by apply append_not_nil).
    destruct (d +:+ "]") as [|c' r'] eqn:Hdr; [done|].
    rewrite parseStep_open.
    rewrite <- Hdr, fold_bracket by done. rewrite append_nil_l.
    rewrite range_ascii by done. cbn [fold_left utf8.range].
    rewrite parseStep_close. apply String.eqb_neq in Hne.
    destruct (strconv.Atoi d) as [i|]; [destruct (Z.leb 0 i)|];
      cbn [currentPart parts andb negb]; rewrite ?Hne; done.
Qed.

  (** X22. A path of the form [name[d]] into a map.  When [d] is a
      decimal number that is not negative, the result is the element of
      that index of the array stored under [name], and nil when the
      index is out of range or the value is no array.  When [d] is
      negative or no number, the brackets are ignored and the result is
      the value stored under [name] itself. *)
Theorem extractFieldValue_indexed (data : gmap string Value)
      (fieldName d : string) :
    plainName fieldName = true →
    forallb plainChar (list_ascii_of_string d) = true →
    extractFieldValue (VMap data) (fieldName +:+ "[" +:+ d +:+ "]")
    = match strconv.Atoi d with
      | Some i =>
        if Z.leb 0 i then
          match data !! fieldName with
          | Some (VSlice arr) => default VNil (arr !! Z.to_nat i)
          | _ => VNil
          end
        else default VNil (data !! fieldName)
      | None => default VNil (data !! fieldName)
      end.
Proof.
    intros Hname Hd. unfold extractFieldValue.
    rewrite parseFieldPath_indexed by done.
    apply plainName_spec in Hname as [Hne _]. apply String.eqb_neq in Hne.
    destruct (strconv.Atoi d) as [i|]; [destruct (Z.leb_spec 0 i) as [Hi|Hi]|].
    - cbn [extractParts]. unfold extractStep. cbn [isArray name index].
      rewrite Hne. cbn [negb fieldOf].
      destruct (data !! fieldName) as [value|]; [|done].
      unfold elementOf.
      destruct value as [| | | | | | |elems|]; cbn [jsonToSlice];
        try done.
      { rewrite andb_false_intro2; [done|]. apply Z.ltb_ge. cbn [length]. lia. }
      destruct (Z.ltb_spec i (Z.of_nat (length elems))) as [Hlt|Hge].
      + rewrite (proj2 (Z.leb_le 0 i) Hi). cbn [andb].
        by destruct (elems !! Z.to_nat i).
      + rewrite andb_false_r. rewrite lookup_ge_None_2 by lia. done.
    - cbn [extractParts]. unfold extractStep. cbn [isArray name fieldOf].
      by destruct (data !! fieldName).
    - cbn [extractParts]. unfold extractStep. cbn [isArray name fieldOf].
      by destruct (data !! fieldName).
Qed.
End IndexedPaths.

Lemma extractFieldValue_indexed_witness :
  extractFieldValue (VMap {["items" := VSlice [VString "a"; VString "b"]]}) "items[1]"
  = VString "b"
  ∧ extractFieldValue (VMap {["items" := VSlice [VString "a"; VString "b"]]}) "items[2]"
    = VNil
  ∧ extractFieldValue (VMap {["items" := VSlice [VString "a"; VString "b"]]}) "items[-1]"
    = VSlice [VString "a"; VString "b"].
Proof.
  split_and!.
  - by rewrite (extractFieldValue_indexed _ "items" "1").
  - by rewrite (extractFieldValue_indexed _ "items" "2").
  - by rewrite (extractFieldValue_indexed _ "items" "-1").
Defined.

(** * The field of a response that an expectation names *)

Lemma getJSONParts_nil path : validator.getJSONParts VNil path = VNil.
Proof. by destruct path. Qed.

Lemma getJSONParts_getNestedParts : ∀ path v,
  validator.getJSONParts v path = default VNil (client.getNestedParts v path).
Proof.
  induction path as [|p path IH]; intros v; [done|].
  cbn [validator.getJSONParts client.getNestedParts].
  destruct v as [| | | | | | | |m]; try done.
  destruct (m !! p) as [x|]; cbn [default]; [apply IH|apply getJSONParts_nil].
Qed.

(** X23. The validator's [getJSONField] returns the value that the
    client's [getNestedValue] finds at the path, and nil where it finds
    none: a field that is missing, or that lies under what is no map,
    reads as a field that is null. *)
Theorem getJSONField_getNestedValue (data : gmap string Value) (path : string) :
  validator.getJSONField data path
  = default VNil (client.getNestedValue data path).
Proof. apply getJSONParts_getNestedParts. Qed.

(** X24. On a dotted path of plain names, the value that a placeholder
    [{{test.response.path}}] takes from a response body is the value
    that an expectation on the body field [path] is compared with. *)
Theorem extractFieldValue_getJSONField (data : gmap string Value) (path : string) :
  Forall (λ n, plainName n = true) (strings.Split path ".") →
  extractFieldValue (VMap data) path = validator.getJSONField data path.
Proof.
  intros Hall. unfold extractFieldValue, validator.getJSONField.
  rewrite parseFieldPath_names by done.
  by rewrite extractParts_fields, getJSONParts_getNestedParts.
Qed.

Lemma extractFieldValue_getJSONField_witness :
  extractFieldValue (VMap {["data" := VMap {["id" := VString "123"]}]}) "data.id"
  = validator.getJSONField {["data" := VMap {["id" := VString "123"]}]} "data.id".
Proof.
  apply extractFieldValue_getJSONField.
  by repeat constructor.
Defined.

(** With an index the two part: the engine reads the element of the
    array, the validator looks for a key with the brackets in it. *)
Example indexed_path_differs :
  extractFieldValue (VMap {["items" := VSlice [VString "a"]]}) "items[0]"
  = VString "a"
  ∧ validator.getJSONField {["items" := VSlice [VString "a"]]} "items[0]" = VNil.
Proof. by vm_compute. Qed.

(** * The loader: the tests of a version *)

Lemma isVersionMatch_spec (api : APITest.t) (targetVersion : string) :
  Loader.isVersionMatch api targetVersion = true
  ↔ unversioned api
    ∨ (APITest.Version api ≠ "" ∧ APITest.Version api = targetVersion)
    ∨ targetVersion ∈ APITest.Versions api.
Proof.
  unfold Loader.isVersionMatch, unversioned.
  destruct (String.eqb_spec (APITest.Version api) "") as [Hv|Hv];
    cbn [andb negb].
  - destruct (APITest.Versions api) as [|v vs] eqn:Hvs; cbn [length Nat.eqb].
    { split; [by left|done]. }
    rewrite existsb_exists. split.
    + intros (x & Hx%list_elem_of_In & ->%String.eqb_eq). by right; right.
    + intros [[_ ?]|[[? _]|Hin]]; [done..|].
      exists targetVersion. split; [by apply list_elem_of_In|apply String.eqb_refl].
  - destruct (String.eqb_spec (APITest.Version api) targetVersion) as [Ht|Ht].
    { split; [by right; left|done]. }
    rewrite existsb_exists. split.
    + intros (x & Hx%list_elem_of_In & ->%String.eqb_eq). by right; right.
    + intros [[? _]|[[_ ?]|Hin]]; [done..|].
      exists targetVersion. split; [by apply list_elem_of_In|apply String.eqb_refl].
Qed.

Lemma filter_sublist {A} (f : A → bool) (l : list A) : sublist (List.filter f l) l.
Proof.
  induction l as [|x l IH]; cbn [List.filter]; [constructor|].
  destruct (f x); by constructor.
Qed.

Lemma filter_elem_of {A} (f : A → bool) (l : list A) (x : A) :
  x ∈ List.filter f l ↔ x ∈ l ∧ f x = true.
Proof. rewrite !list_elem_of_In. apply filter_In. Qed.

Lemma filter_filter_same {A} (f : A → bool) (l : list A) :
  List.filter f (List.filter f l) = List.filter f l.
Proof.
  induction l as [|x l IH]; [done|]. cbn [List.filter].
  destruct (f x) eqn:Hx; [|done]. cbn [List.filter]. by rewrite Hx, IH.
Qed.

(** X25. [LoadWithVersion] passes on the error of [Load].  Of a
    configuration that is loaded it keeps, in their order, exactly the
    tests that name no version at all, or whose [version] is the target
    version, or whose [versions] hold it; the target version is the
    version asked for, or the one of the file when none is asked for,
    and it becomes the version of the configuration.  The other
    settings are kept, and a configuration that is filtered is not
    changed by being filtered for the same version again. *)
Theorem LoadWithVersion_filter (loaded : TestConfig.t + error) (version : string) :
  match loaded with
  | inr err => Loader.LoadWithVersion loaded version = inr err
  | inl config =>
    ∃ filtered,
      Loader.LoadWithVersion loaded version = inl filtered
      ∧ TestConfig.Version filtered
        = (if decide (version = "") then TestConfig.Version config else version)
      ∧ sublist (TestConfig.APIs filtered) (TestConfig.APIs config)
      ∧ (∀ api, api ∈ TestConfig.APIs filtered
           ↔ api ∈ TestConfig.APIs config
             ∧ (unversioned api
                ∨ (APITest.Version api ≠ ""
                   ∧ APITest.Version api = TestConfig.Version filtered)
                ∨ TestConfig.Version filtered ∈ APITest.Versions api))
      ∧ (TestConfig.BaseURL filtered, TestConfig.Certificate filtered,
         TestConfig.Timeout filtered, TestConfig.Headers filtered)
        = (TestConfig.BaseURL config, TestConfig.Certificate config,
           TestConfig.Timeout config, TestConfig.Headers config)
      ∧ Loader.LoadWithVersion (inl filtered) version = inl filtered
  end.
Proof.
  destruct loaded as [config|err]; [|done].
  eexists. split; [reflexivity|]. cbn [TestConfig.Version TestConfig.APIs
    TestConfig.BaseURL TestConfig.Certificate TestConfig.Timeout TestConfig.Headers].
  split_and!.
  - destruct (String.eqb_spec version "") as [->|Hv]; cbn [negb].
    + by rewrite decide_True.
    + by rewrite decide_False.
  - apply filter_sublist.
  - intros api. by rewrite filter_elem_of, isVersionMatch_spec.
  - done.
  - unfold Loader.LoadWithVersion. cbn [TestConfig.Version TestConfig.APIs
      TestConfig.BaseURL TestConfig.Certificate TestConfig.Timeout TestConfig.Headers].
    destruct (String.eqb_spec version "") as [->|Hv]; cbn [negb];
      by rewrite filter_filter_same.
Qed.

(** The tests that [run] hands to the executor are those of
    [LoadWithVersion], and their version is that of the report. *)
Lemma runConfig_APIs (config : TestConfig.t)
    (baseURL certFile keyFile caFile version : string) :
  let target :=
    if decide (version = "") then TestConfig.Version config else version in
  ∃ cfg,
    runConfig (inl config) baseURL certFile keyFile caFile version = inl cfg
    ∧ TestConfig.Version cfg = target
    ∧ TestConfig.APIs cfg
      = List.filter (λ api, Loader.isVersionMatch api target) (TestConfig.APIs config).
Proof.
  intros target. subst target. eexists. split; [reflexivity|]. unfold MergeConfig.
  cbn [TestConfig.Version TestConfig.APIs].
  destruct (String.eqb_spec version "") as [->|Hv]; cbn [negb].
  - by rewrite decide_True.
  - by rewrite decide_False.
Qed.

Lemma filter_distinctNames (f : APITest.t → bool) (apis : list APITest.t) :
  distinctNames apis → distinctNames (List.filter f apis).
Proof.
  unfold distinctNames. induction apis as [|a apis IH]; [done|].
  cbn [map List.filter]. intros [Hnotin Hnd]%NoDup_cons.
  destruct (f a); [|by apply IH]. cbn [map]. apply NoDup_cons. split; [|by apply IH].
  intros (x & Hname & [Hx _]%filter_elem_of)%list_elem_of_fmap.
  apply Hnotin. rewrite Hname. by apply list_elem_of_fmap_2.
Qed.

Section Orphans.
Context `{Runtime}.

Lemma dependency_without_test (e : Executor.t) (env : Env) (t : APITest.t) :
    distinctNames (TestConfig.APIs (Executor.config e)) →
    t ∈ TestConfig.APIs (Executor.config e) →
    APITest.DependsOn t ≠ "" →
    APITest.DependsOn t ∉ GetTestNames e →
    getResult e (APITest.DependsOn t) = None →
    ∃ report e' env',
      Execute e env = (Some (report, e'), env')
      ∧ skippedResult t (notExecutedReason (APITest.DependsOn t))
        ∈ TestReport.Results report
      ∧ ∀ call, call ∈ sent env' → call ∈ sent env ∨ fst call ≠ APITest.Name t.
Proof.
    intros Hnd Ht Hdep Hunknown Hnone.
    destruct (Execute_gate e env Hnd)
      as (order & report & e' & w & calls & Horder & Hperm & Hrun & Hlen & _
          & Hother & Hcalls & Hall).
    assert (Hnd' : NoDup (map APITest.Name order)).
    { unfold distinctNames in Hnd. by rewrite Hperm. }
    rewrite <- Hperm in Ht. apply list_elem_of_lookup in Ht as [i Hi].
    destruct (lookup_lt_is_Some_2 (TestReport.Results report) i) as [r Hr].
    { rewrite Hlen. by eapply lookup_lt_Some. }
    destruct (Hall i t r Hi Hr) as (_ & _ & _ & _ & _ & Hgate).
    destruct (Hgate Hdep) as [Hs Hreason].
    { intros Hin. apply Hunknown. unfold GetTestNames. rewrite <- Hperm.
      apply list_elem_of_fmap in Hin as (x & -> & Hx).
      apply list_elem_of_fmap_2. by eapply subseteq_drop. }
    rewrite (Hother _ Hunknown), Hnone in Hs, Hreason. simpl in Hs.
    specialize (Hreason eq_refl). subst r.
    exists report, e', (mkEnv _ w (sent env ++ calls)). split_and!; [done| |].
    - by eapply list_elem_of_lookup_2.
    - simpl. intros call [Hc|Hc]%elem_of_app; [by left|right].
      destruct (Hcalls call Hc) as (k & t' & r' & Hk & Hrk & -> & Hs').
      intros Heq. assert (k = i) as ->.
      { eapply NoDup_lookup; [exact Hnd'| |]; rewrite list_lookup_fmap.
        - by rewrite Hk; simpl; rewrite Heq.
        - by rewrite Hi. }
      rewrite Hr in Hrk. injection Hrk as <-. done.
Qed.

  (** X26. The version filter can take the dependency of a test away.
      When [run] loads a configuration with distinct names for a target
      version, a test that matches the version and depends on a test
      that does not is never sent: [Execute] records it as skipped, with
      the reason that its dependency was not found or not executed. *)
Theorem version_filter_orphans_dependency (config : TestConfig.t)
      (baseURL certFile keyFile caFile version : string)
      (t : APITest.t) (env : Env) :
    let target :=
      if decide (version = "") then TestConfig.Version config else version in
    distinctNames (TestConfig.APIs config) →
    t ∈ TestConfig.APIs config →
    Loader.isVersionMatch t target = true →
    APITest.DependsOn t ≠ "" →
    (∀ d, d ∈ TestConfig.APIs config → APITest.Name d = APITest.DependsOn t →
          Loader.isVersionMatch d target = false) →
    ∃ cfg report e' env',
      runConfig (inl config) baseURL certFile keyFile caFile version = inl cfg
      ∧ Execute (NewExecutor cfg) env = (Some (report, e'), env')
      ∧ skippedResult t (notExecutedReason (APITest.DependsOn t))
        ∈ TestReport.Results report
      ∧ ∀ call, call ∈ sent env' → call ∈ sent env ∨ fst call ≠ APITest.Name t.
Proof.
    intros target Hnd Ht Hmatch Hdep Hgone.
    destruct (runConfig_APIs config baseURL certFile keyFile caFile version)
      as (cfg & Hcfg & Hversion & Hapis).
    fold target in Hapis.
    destruct (dependency_without_test (NewExecutor cfg) env t)
      as (report & e' & env' & Hrun & Hskipped & Hcalls).
    - cbn [NewExecutor Executor.config]. rewrite Hapis. by apply filter_distinctNames.
    - cbn [NewExecutor Executor.config]. rewrite Hapis. by apply filter_elem_of.
    - done.
    - unfold GetTestNames. cbn [NewExecutor Executor.config]. rewrite Hapis.
      intros (d & Hname & [Hd Hm]%filter_elem_of)%list_elem_of_fmap.
      by rewrite (Hgone d Hd) in Hm.
    - done.
    - by exists cfg, report, e', env'.
Qed.
End Orphans.

Lemma version_filter_orphans_dependency_witness :
  ∃ cfg report e' env',
    runConfig (inl exampleVersions) "" "" "" "" "" = inl cfg
    ∧ Execute (NewExecutor cfg) (Scripted.start []) = (Some (report, e'), env')
    ∧ skippedResult exampleUse (notExecutedReason "create")
      ∈ TestReport.Results report
    ∧ ∀ call, call ∈ sent env' →
        call ∈ sent (Scripted.start []) ∨ fst call ≠ "use".
Proof.
  apply (version_filter_orphans_dependency (H := Scripted.runtime)
           exampleVersions "" "" "" "" "" exampleUse (Scripted.start [])).
  - vm_compute. repeat constructor; set_solver.
  - simpl. set_solver.
  - reflexivity.
  - done.
  - intros d Hd Hname. simpl in Hd.
    apply elem_of_cons in Hd as [->|Hd]; [reflexivity|].
    apply list_elem_of_singleton in Hd as ->. done.
Defined.

(** The same configuration loaded for v2 keeps both tests. *)
Example LoadWithVersion_v2 :
  Loader.LoadWithVersion (inl exampleVersions) "v2"
  = inl (TestConfig.mk "http://localhost" "v2" (CertConfig.mk "" "" "") 0 ∅
           [forVersion "v2" exampleCreate; exampleUse])
  ∧ Loader.LoadWithVersion (inl exampleVersions) ""
    = inl (TestConfig.mk "http://localhost" "v1" (CertConfig.mk "" "" "") 0 ∅
             [exampleUse]).
Proof. by vm_compute. Qed.

(** * The URL of a request *)

Lemma rev_app_append : ∀ s1 s2, String.rev_app s1 s2 = String.rev s1 +:+ s2.
Proof.
  unfold String.rev. induction s1 as [|c s1 IH]; intros s2; [done|].
  cbn [String.rev_app]. rewrite IH, (IH (String c "")).
  by rewrite append_assoc.
Qed.

Lemma rev_cons (c : ascii) (s : string) :
  String.rev (String c s) = String.rev s +:+ String c "".
Proof. unfold String.rev at 1. cbn [String.rev_app]. apply rev_app_append. Qed.

Lemma rev_append : ∀ a b, String.rev (a +:+ b) = String.rev b +:+ String.rev a.
Proof.
  induction a as [|c a IH]; intros b.
  - by rewrite append_nil_l, append_nil_r.
  - rewrite append_cons, !rev_cons, IH. by rewrite append_assoc.
Qed.

Lemma rev_rev : ∀ s, String.rev (String.rev s) = s.
Proof.
  induction s as [|c s IH]; [done|]. by rewrite rev_cons, rev_append, IH.
Qed.

Lemma slashes_S (n : nat) : slashes (S n) = String "/" (slashes n).
Proof. done. Qed.

Lemma slashes_snoc (n : nat) : slashes n +:+ "/" = slashes (S n).
Proof. induction n as [|n IH]; [done|]. by rewrite slashes_S, append_cons, IH. Qed.

Lemma rev_slashes (n : nat) : String.rev (slashes n) = slashes n.
Proof.
  induction n as [|n IH]; [done|].
  by rewrite slashes_S, rev_cons, IH, slashes_snoc.
Qed.

Lemma TrimLeft_slashes (m : nat) (p : string) :
  (∀ p', p ≠ String "/" p') →
  strings.TrimLeft (slashes m +:+ p) "/" = p.
Proof.
  intros Hp. induction m as [|m IH].
  - rewrite append_nil_l. destruct p as [|c p]; [done|].
    cbn [strings.TrimLeft]. unfold strings.inCutset. cbn [list_ascii_of_string existsb].
    destruct (Ascii.eqb_spec c "/") as [->|Hc]; [by destruct (Hp p)|done].
  - by rewrite slashes_S, append_cons.
Qed.

Lemma TrimRight_slashes (n : nat) (b : string) :
  (∀ b', b ≠ b' +:+ "/") →
  strings.TrimRight (b +:+ slashes n) "/" = b.
Proof.
  intros Hb. unfold strings.TrimRight.
  rewrite rev_append, rev_slashes, TrimLeft_slashes; [apply rev_rev|].
  intros r Hr. apply (Hb (String.rev r)).
  by rewrite <- (rev_rev b), Hr, rev_cons.
Qed.

(** X27. Without query parameters [buildURL] joins the base URL and the
    path with exactly one slash, however many slashes the base URL ends
    with and the path starts with. *)
Theorem buildURL_one_slash (withQuery : string → gmap string Value → string + error)
    (b p : string) (n m : nat) :
  (∀ b', b ≠ b' +:+ "/") →
  (∀ p', p ≠ "/" +:+ p') →
  HTTPClient.buildURL withQuery (b +:+ slashes n) (slashes m +:+ p) ∅
  = inl (b +:+ "/" +:+ p).
Proof.
  intros Hb Hp. unfold HTTPClient.buildURL.
  rewrite TrimRight_slashes, TrimLeft_slashes by done.
  by rewrite map_size_empty.
Qed.

Lemma buildURL_one_slash_witness :
  HTTPClient.buildURL (λ _ _, inr (Errorf "query")) "http://localhost//" "/items" ∅
  = inl "http://localhost/items".
Proof.
  apply (buildURL_one_slash _ "http://localhost" "items" 2 1).
  - intros b' Hb. apply (f_equal String.rev) in Hb.
    rewrite rev_append in Hb. by vm_compute in Hb.
  - by intros p'.
Defined.

(** * The text of the HTML report *)

Lemma ReplaceAll_app (old : ascii) (new : string) : ∀ a b,
  Reporter.ReplaceAll (a +:+ b) old new
  = Reporter.ReplaceAll a old new +:+ Reporter.ReplaceAll b old new.
Proof.
  induction a as [|c a IH]; intros b; [by rewrite !append_nil_l|].
  rewrite append_cons. cbn [Reporter.ReplaceAll].
  destruct (Ascii.eqb c old); by rewrite IH, ?append_assoc, ?append_cons.
Qed.

Lemma escapeHTML_app (a b : string) :
  Reporter.escapeHTML (a +:+ b) = Reporter.escapeHTML a +:+ Reporter.escapeHTML b.
Proof. unfold Reporter.escapeHTML. by rewrite !ReplaceAll_app. Qed.

Lemma escapeHTML_byte (c : ascii) :
  Reporter.escapeHTML (String c "") = Reporter.escapeByte c.
Proof. by destruct c as [[] [] [] [] [] [] [] []]. Qed.

Lemma escapeHTML_cons (c : ascii) (s : string) :
  Reporter.escapeHTML (String c s) = Reporter.escapeByte c +:+ Reporter.escapeHTML s.
Proof.
  change (String c s) with (String c "" +:+ s).
  by rewrite escapeHTML_app, escapeHTML_byte.
Qed.

Lemma occurs_append (c : ascii) : ∀ a b,
  occurs c (a +:+ b) = occurs c a || occurs c b.
Proof.
  induction a as [|x a IH]; intros b; [by rewrite append_nil_l|].
  rewrite append_cons. cbn [occurs]. by rewrite IH, orb_assoc.
Qed.

Lemma escapeByte_clean (c : ascii) :
  occurs "<" (Reporter.escapeByte c) = false
  ∧ occurs ">" (Reporter.escapeByte c) = false
  ∧ occurs Reporter.doubleQuote (Reporter.escapeByte c) = false
  ∧ occurs "'" (Reporter.escapeByte c) = false.
Proof. by destruct c as [[] [] [] [] [] [] [] []]. Qed.

(** X28. [escapeHTML] replaces every byte for itself: the ampersand,
    the angle brackets and the two quotes by their entities, once, and
    no other byte; the ampersands of the entities it writes are not
    escaped again.  The text it returns has no angle bracket and no
    quote. *)
Theorem escapeHTML_bytes (s : string) :
  Reporter.escapeHTML s
  = String.concat "" (map Reporter.escapeByte (list_ascii_of_string s))
  ∧ occurs "<" (Reporter.escapeHTML s) = false
  ∧ occurs ">" (Reporter.escapeHTML s) = false
  ∧ occurs Reporter.doubleQuote (Reporter.escapeHTML s) = false
  ∧ occurs "'" (Reporter.escapeHTML s) = false.
Proof.
  induction s as [|c s (IH & IH1 & IH2 & IH3 & IH4)]; [done|].
  rewrite escapeHTML_cons, !occurs_append, IH1, IH2, IH3, IH4.
  destruct (escapeByte_clean c) as (-> & -> & -> & ->).
  split; [|done]. cbn [list_ascii_of_string map]. rewrite IH.
  generalize (map Reporter.escapeByte (list_ascii_of_string s)) as l.
  intros l. cbn [String.concat]. destruct l as [|x l]; [|done].
  by rewrite append_nil_r.
Qed.

Example escapeHTML_script :
  Reporter.escapeHTML "<a href='x'>R&D</a>"
  = "&lt;a href=&#39;x&#39;&gt;R&amp;D&lt;/a&gt;".
Proof. by vm_compute. Qed.

(** * The length of a random string and of a random number *)

Lemma Split_append (sep : ascii) (b : string) : ∀ a,
  strings.Split (a +:+ String sep b) sep = strings.Split a sep ++ strings.Split b sep.
Proof.
  induction a as [|c a IH].
  - rewrite append_nil_l. cbn [strings.Split]. by rewrite Ascii.eqb_refl.
  - rewrite append_cons. cbn [strings.Split]. rewrite IH.
    destruct (Ascii.eqb c sep); [done|].
    pose proof (Split_not_nil a sep). by destruct (strings.Split a sep).
Qed.

Lemma Split_without (sep : ascii) : ∀ s,
  occurs sep s = false → strings.Split s sep = [s].
Proof.
  induction s as [|c s IH]; [done|]. cbn [occurs strings.Split].
  intros [Hc Hs]%orb_false_iff. by rewrite Hc, IH.
Qed.

Section RandomLength.
Context `{Runtime}.

Lemma randomString_shape (length : Z) (w : World) :
    String.length (fst (randomString length w)) = Z.to_nat length
    ∧ Forall (λ c, isAlnum c = true)
             (list_ascii_of_string (fst (randomString length w))).
Proof.
    unfold randomString, bind, ret.
    pose proof (repeatIO_randInt 62 (Z.to_nat length) w) as [Hlen Hall]; [lia|].
    destruct (repeatIO (Z.to_nat length) (randInt 62) w) as [ns w1]. simpl in *.
    rewrite length_string_of_list_ascii, length_map. split; [done|].
    rewrite list_ascii_of_string_of_list_ascii. apply Forall_fmap.
    eapply Forall_impl; [exact Hall|]. intros r Hr. simpl in *.
    assert (Hin : pick "abcdefghijklmnopqrstuvwxyzABCDEFGHIJKLMNOPQRSTUVWXYZ0123456789" r
                  ∈ list_ascii_of_string
                      "abcdefghijklmnopqrstuvwxyzABCDEFGHIJKLMNOPQRSTUVWXYZ0123456789").
    { apply pick_elem_of. simpl. lia. }
    revert Hin.
    generalize (pick "abcdefghijklmnopqrstuvwxyzABCDEFGHIJKLMNOPQRSTUVWXYZ0123456789" r).
    intros c Hc. simpl in Hc.
    repeat (apply elem_of_cons in Hc as [->|Hc]; [done|]).
    by apply elem_of_nil in Hc.
Qed.

Lemma lengthParam_spec (default : Z) (param : string) :
    (0 < default)%Z →
    lengthParam default param
    = match strconv.Atoi param with
      | Some l => if Z.ltb 0 l then l else default
      | None => default
      end
    ∧ (0 < lengthParam default param)%Z.
Proof.
    intros Hd. unfold lengthParam.
    destruct (String.eqb_spec param "") as [->|Hne]; [done|].
    destruct (strconv.Atoi param) as [l|]; [|done].
    by destruct (Z.ltb_spec 0 l).
Qed.

Lemma generateRandomValue_string (param : string) :
    occurs "." param = false →
    generateRandomValue ("$random.string." +:+ param)
    = randomString (lengthParam 8 param).
Proof.
    intros Hp. unfold generateRandomValue.
    change ("$random.string." +:+ param) with ("$random.string" +:+ String "." param).
    by rewrite Split_append, (Split_without "." param).
Qed.

Lemma generateRandomValue_number (param : string) :
    occurs "." param = false →
    generateRandomValue ("$random.number." +:+ param)
    = randomNumber (lengthParam 6 param).
Proof.
    intros Hp. unfold generateRandomValue.
    change ("$random.number." +:+ param) with ("$random.number" +:+ String "." param).
    by rewrite Split_append, (Split_without "." param).
Qed.

  (** X29. The length parameter of a random string and of a random
      number.  [$random.string.N] gives [N] letters and digits and
      [$random.number.N] gives [N] decimal digits that do not start
      with 0, when [N] is a decimal number above 0; a parameter that is
      empty, no number, 0 or negative is not reported: the default
      length, 8 for a string and 6 for a number, is used. *)
Theorem generateRandomValue_length (param : string) (w : World) :
    occurs "." param = false →
    let lengthOr (default : Z) :=
      match strconv.Atoi param with
      | Some l => if Z.ltb 0 l then l else default
      | None => default
      end in
    (String.length (fst (generateRandomValue ("$random.string." +:+ param) w))
     = Z.to_nat (lengthOr 8%Z)
     ∧ Forall (λ c, isAlnum c = true)
         (list_ascii_of_string
            (fst (generateRandomValue ("$random.string." +:+ param) w))))
    ∧ (String.length (fst (generateRandomValue ("$random.number." +:+ param) w))
       = Z.to_nat (lengthOr 6%Z)
       ∧ Forall (λ c, isDigit c = true)
           (list_ascii_of_string
              (fst (generateRandomValue ("$random.number." +:+ param) w)))
       ∧ ∃ c rest,
           fst (generateRandomValue ("$random.number." +:+ param) w) = String c rest
           ∧ c ≠ "0"%char).
Proof.
    intros Hp lengthOr. subst lengthOr. cbv beta.
    rewrite generateRandomValue_string, generateRandomValue_number by done.
    destruct (lengthParam_spec 8 param) as [<- _]; [lia|].
    destruct (lengthParam_spec 6 param) as [<- Hpos]; [lia|].
    split; [apply randomString_shape|by apply randomNumber_shape].
Qed.
End RandomLength.

Lemma generateRandomValue_length_witness :
  String.length
    (fst (generateRandomValue "$random.string.12" (Scripted.mkWorld [] 0))) = 12
  ∧ String.length
      (fst (generateRandomValue "$random.number.-3" (Scripted.mkWorld [] 0))) = 6.
Proof.
  split.
  - apply (generateRandomValue_length (H := Scripted.runtime) "12"
             (Scripted.mkWorld [] 0)). reflexivity.
  - apply (generateRandomValue_length (H := Scripted.runtime) "-3"
             (Scripted.mkWorld [] 0)). reflexivity.
Defined.

(** * Schema coercion with the maps in place *)

Section Heap.
Import InPlace(cell, Ref, Val, cellAt, closed, read, value, slot, unshared,
                 getNestedParts, getNestedValue, validateField, validateFields,
                 validateBodySchema, loc, object, heap).

Lemma closed_cellAt (h : heap) (l : loc) (k : string) (l' : loc) :
    closed h → cellAt h l k = Some (Ref l') → is_Some (h !! l').
Proof.
    unfold closed, cellAt. intros Hc Hcell.
    destruct (h !! l) as [o|] eqn:Ho; [|done].
    exact (Hc l o Ho k (Ref l') Hcell).
Qed.

Lemma cellAt_insert (h : heap) (x : loc) (o : object) (k : string) (c : cell)
      (x' : loc) (k' : string) :
    cellAt (<[x := <[k := c]> o]> h) x' k'
    = if decide (x' = x)
      then if decide (k' = k) then Some c else o !! k'
      else cellAt h x' k'.
Proof.
    unfold cellAt. destruct (decide (x' = x)) as [->|Hx].
    - rewrite lookup_insert_eq. destruct (decide (k' = k)) as [->|Hk].
      + apply lookup_insert_eq.
      + by apply lookup_insert_ne.
    - by rewrite lookup_insert_ne.
Qed.

Lemma slot_cons (h : heap) (current : loc) (part next : string) (rest : list string) :
    slot h current (part :: next :: rest)
    = match cellAt h current part with
      | Some (Ref nextMap) => slot h nextMap (next :: rest)
      | _ => None
      end.
Proof. done. Qed.

  (** Where the references of one heap are references of another, the
      paths of the one lead where they lead in the other. *)
Lemma slot_sub (g h : heap) :
    (∀ x k y, cellAt g x k = Some (Ref y) → cellAt h x k = Some (Ref y)) →
    ∀ path current s, slot g current path = Some s → slot h current path = Some s.
Proof.
    intros Hsub path. induction path as [|p path IH]; intros current s; [done|].
    destruct path as [|q r]; [done|]. rewrite !slot_cons.
    destruct (cellAt g current p) as [[y|v]|] eqn:Hcell; try done.
    rewrite (Hsub _ _ _ Hcell). apply IH.
Qed.

Lemma slot_ext (g h : heap) :
    (∀ x k y, cellAt g x k = Some (Ref y) ↔ cellAt h x k = Some (Ref y)) →
    ∀ path current, slot g current path = slot h current path.
Proof.
    intros Hext path current.
    destruct (slot g current path) as [s|] eqn:Hg.
    - symmetry. eapply slot_sub; [|exact Hg]. intros x k y. apply Hext.
    - destruct (slot h current path) as [s|] eqn:Hh; [|done].
      rewrite <- Hg. eapply slot_sub; [|exact Hh]. intros x k y. apply Hext.
Qed.

  (** The map of a slot is the map the path starts from, or a map that
      a map holds. *)
Lemma slot_dom (h : heap) :
    closed h →
    ∀ path current x k, is_Some (h !! current) →
      slot h current path = Some (x, k) → is_Some (h !! x).
Proof.
    intros Hc path. induction path as [|p path IH]; intros current x k Hcur; [done|].
    destruct path as [|q r]; [by intros [= <- <-]|]. rewrite slot_cons.
    destruct (cellAt h current p) as [[y|v]|] eqn:Hcell; try done.
    apply IH. by eapply closed_cellAt.
Qed.

Section Copy.
Context (h : heap) (l result : loc) (bodyMap : object).
Hypothesis Hclosed : closed h.
Hypothesis Hbody : h !! l = Some bodyMap.
Hypothesis Hfresh : h !! result = None.

Lemma cellAt_copy_other (x : loc) (k : string) :
      is_Some (h !! x) → cellAt (<[result := bodyMap]> h) x k = cellAt h x k.
Proof.
      intros [o Ho]. unfold cellAt. rewrite lookup_insert_ne; [done|].
      intros <-. congruence.
Qed.

Lemma cellAt_copy_result (k : string) :
      cellAt (<[result := bodyMap]> h) result k = bodyMap !! k.
Proof. unfold cellAt. by rewrite lookup_insert_eq. Qed.

Lemma slot_copy_other : ∀ path x,
      is_Some (h !! x) → slot (<[result := bodyMap]> h) x path = slot h x path.
Proof.
      induction path as [|p path IH]; intros x Hx; [done|].
      destruct path as [|q r]; [done|]. rewrite !slot_cons.
      rewrite cellAt_copy_other by done.
      destruct (cellAt h x p) as [[y|v]|] eqn:Hcell; try done.
      apply IH. by eapply closed_cellAt.
Qed.

    (** From the copy a path leads where it leads from the body, but
        for the key of the copy itself. *)
Lemma slot_copy_result (path : list string) :
      slot (<[result := bodyMap]> h) result path
      = match path with
        | [k] => Some (result, k)
        | _ => slot h l path
        end.
Proof.
      destruct path as [|p [|q r]]; [done|done|]. rewrite !slot_cons.
      rewrite cellAt_copy_result. unfold cellAt at 1. rewrite Hbody.
      destruct (bodyMap !! p) as [[y|v]|] eqn:Hcell; try done.
      apply slot_copy_other. eapply (closed_cellAt h l p); [done|].
      unfold cellAt. by rewrite Hbody.
Qed.

Lemma slot_not_result (path : list string) (k : string) :
      slot h l path ≠ Some (result, k).
Proof.
      intros Hs. apply slot_dom in Hs as [o Ho]; [congruence|done|by eexists].
Qed.

Lemma unshared_copy (schema : gmap string string) :
      unshared h l schema → unshared (<[result := bodyMap]> h) result schema.
Proof.
      intros Hun f f' s Hf Hf'. rewrite !slot_copy_result.
      destruct (strings.Split f ".") as [|p [|q r]] eqn:Hsplit;
        destruct (strings.Split f' ".") as [|p' [|q' r']] eqn:Hsplit'; try done.
      - intros [= <-] [= ->]. apply (Hun f f' (l, p)); try done.
        + by rewrite Hsplit.
        + by rewrite Hsplit'.
      - intros [= <-] Hs. by apply slot_not_result in Hs.
      - intros Hs [= <-]. by apply slot_not_result in Hs.
      - intros Hs Hs'. apply (Hun f f' s); try done.
        + by rewrite Hsplit.
        + by rewrite Hsplit'.
Qed.
End Copy.

Section Coercion.
Context `{Runtime}.

    (** [InPlace.setNestedValue] writes the converted value where the path
        leads, if something is there, and does nothing else. *)
Lemma setNestedParts_slot : ∀ path (h : heap) current expectedType,
      InPlace.setNestedParts h current path expectedType
      = match slot h current path with
        | Some (x, k) =>
          match h !! x with
          | Some o =>
            match o !! k with
            | Some c => <[x := <[k := InPlace.convertToSchemaType h c expectedType]> o]> h
            | None => h
            end
          | None => h
          end
        | None => h
        end.
Proof.
      induction path as [|p path IH]; intros h current expectedType; [done|].
      destruct path as [|q r]; [done|]. rewrite slot_cons.
      change (InPlace.setNestedParts h current (p :: q :: r) expectedType)
        with (match h !! current with
              | Some o =>
                match o !! p with
                | Some (Ref nextMap) => InPlace.setNestedParts h nextMap (q :: r) expectedType
                | _ => h
                end
              | None => h
              end).
      unfold cellAt. destruct (h !! current) as [o|]; [|done].
      destruct (o !! p) as [[y|v]|]; try done.
Qed.

Lemma getNestedParts_slot (h : heap) : ∀ path current,
      path ≠ [] →
      getNestedParts h (Ref current) path
      = match slot h current path with
        | Some (x, k) => cellAt h x k
        | None => None
        end.
Proof.
      induction path as [|p path IH]; intros current Hne; [done|].
      destruct path as [|q r].
      - cbn [getNestedParts slot]. by destruct (cellAt h current p).
      - rewrite slot_cons.
        change (getNestedParts h (Ref current) (p :: q :: r))
          with (match cellAt h current p with
                | Some c => getNestedParts h c (q :: r)
                | None => None
                end).
        destruct (cellAt h current p) as [[y|v]|]; try done. by apply IH.
Qed.

Lemma value_Ref (h : heap) (l : loc) : ∃ m, value h (Ref l) = VMap m.
Proof. unfold value. cbn [read]. by eexists. Qed.

    (** The check of a type does not tell one map from another. *)
Lemma validateFieldType_value (g h : heap) (field : string) (c : cell)
        (expectedType : string) :
      client.validateFieldType field (value h c) expectedType = None →
      client.validateFieldType field (value g c) expectedType = None.
Proof.
      destruct c as [l|v]; [|done].
      destruct (value_Ref h l) as [m ->], (value_Ref g l) as [m' ->].
      intros Hm. by apply (validateFieldType_map field m m').
Qed.

    (** A map that the check accepts is left where it is. *)
Lemma convertToSchemaType_Ref (h : heap) (field : string) (l : loc)
        (expectedType : string) :
      client.validateFieldType field (value h (Ref l)) expectedType = None →
      InPlace.convertToSchemaType h (Ref l) expectedType = Ref l.
Proof.
      unfold InPlace.convertToSchemaType. destruct (value_Ref h l) as [m ->].
      intros Hm. by rewrite (proj1 (validateFieldType_map field m m _ Hm)).
Qed.


Lemma validateFields_None (h : heap) (bodyMap : loc) (schema : gmap string string) :
      validateFields h bodyMap schema = None
      ↔ ∀ field expectedType, schema !! field = Some expectedType →
          validateField h bodyMap field expectedType = None.
Proof.
      unfold validateFields.
      apply (map_fold_weak_ind (λ r s,
               r = None ↔ map_Forall (λ field expectedType,
                            validateField h bodyMap field expectedType = None) s)).
      { split; [intros _; apply map_Forall_empty|done]. }
      intros field expectedType s r Hfresh IH.
      rewrite map_Forall_insert by done. destruct r as [err|].
      - split; [done|]. intros [_ Hs]. by apply IH in Hs.
      - split; [intros Hf; split; [done|by apply IH]|by intros [? _]].
Qed.

    (** What the check of an entry comes to: the path leads to a key,
        something is under it, and the type check accepts it. *)
Lemma validateField_None (h : heap) (bodyMap : loc) (field expectedType : string) :
      validateField h bodyMap field expectedType = None
      ↔ ∃ x k c, slot h bodyMap (strings.Split field ".") = Some (x, k)
                 ∧ cellAt h x k = Some c
                 ∧ client.validateFieldType field (value h c) expectedType = None.
Proof.
      unfold validateField, getNestedValue.
      rewrite getNestedParts_slot by apply Split_not_nil.
      destruct (slot h bodyMap (strings.Split field ".")) as [[x k]|];
        [|split; [done|by intros (? & ? & ? & ? & _)]].
      destruct (cellAt h x k) as [c|] eqn:Hcell;
        [|split; [done|intros (? & ? & ? & [= <- <-] & ? & _); congruence]].
      split; [by exists x, k, c|].
      intros (? & ? & c' & [= <- <-] & Hc' & ?). congruence.
Qed.


Lemma unshared_subseteq (h0 : heap) (data : loc) (m m' : gmap string string) :
      m ⊆ m' → unshared h0 data m' → unshared h0 data m.
Proof.
      intros Hsub Hun f f' s [t Hf] [t' Hf']. apply Hun.
      - exists t. by eapply lookup_weaken.
      - exists t'. by eapply lookup_weaken.
Qed.

    (** The loop over a schema whose paths lead to different keys, from
        a heap in which the check accepts every entry: the references
        stay, and a value under a key is the value that was there, or
        its conversion for the type of the one path that leads to the
        key. *)
Lemma coercion_cells (h0 : heap) (data : loc) (schema : gmap string string) :
      unshared h0 data schema →
      (∀ f t, schema !! f = Some t → validateField h0 data f t = None) →
      let h' := map_fold (λ fieldPath expectedType g,
                            InPlace.setNestedValue g data fieldPath expectedType)
                         h0 schema in
      (∀ x k y, cellAt h' x k = Some (Ref y) ↔ cellAt h0 x k = Some (Ref y))
      ∧ (∀ x k v, cellAt h0 x k = Some (Val v) →
           ∃ v', cellAt h' x k = Some (Val v')
                 ∧ ((∀ f, is_Some (schema !! f) →
                          slot h0 data (strings.Split f ".") ≠ Some (x, k)) →
                    v' = v)
                 ∧ (∀ f t, schema !! f = Some t →
                           slot h0 data (strings.Split f ".") = Some (x, k) →
                           v' = convertToSchemaType v t)).
Proof.
      cbv zeta.
      apply (map_fold_weak_ind (λ (g : heap) (m : gmap string string),
        unshared h0 data m →
        (∀ f t, m !! f = Some t → validateField h0 data f t = None) →
        (∀ x k y, cellAt g x k = Some (Ref y) ↔ cellAt h0 x k = Some (Ref y))
        ∧ (∀ x k v, cellAt h0 x k = Some (Val v) →
             ∃ v', cellAt g x k = Some (Val v')
                   ∧ ((∀ f, is_Some (m !! f) →
                            slot h0 data (strings.Split f ".") ≠ Some (x, k)) →
                      v' = v)
                   ∧ (∀ f t, m !! f = Some t →
                             slot h0 data (strings.Split f ".") = Some (x, k) →
                             v' = convertToSchemaType v t)))).
      { intros _ _. split; [done|]. intros x k v Hv. exists v.
        split_and!; [done|done|]. intros f t Hf. by rewrite lookup_empty in Hf. }
      intros i t m g Hi IH Hun Hvalid.
      destruct IH as [IHref IHval].
      { eapply unshared_subseteq; [|exact Hun]. by apply insert_subseteq. }
      { intros f t' Hf. apply Hvalid. rewrite lookup_insert_ne; [done|]. congruence. }
      destruct (proj1 (validateField_None h0 data i t)) as (x0 & k0 & c0 & Hslot0 & Hc0 & Hok).
      { apply Hvalid. by rewrite lookup_insert_eq. }
      assert (Hslot : slot g data (strings.Split i ".") = Some (x0, k0)).
      { by rewrite (slot_ext g h0 IHref). }
      assert (Hmono : ∀ x k (P : Prop),
        ((∀ f, is_Some (m !! f) →
               slot h0 data (strings.Split f ".") ≠ Some (x, k)) → P) →
        (∀ f, is_Some (<[i := t]> m !! f) →
              slot h0 data (strings.Split f ".") ≠ Some (x, k)) → P).
      { intros x k P HP Hno. apply HP. intros f Hf. apply Hno.
        rewrite lookup_insert_is_Some. destruct (decide (i = f)); [by left|by right]. }
      assert (Hothers : ∀ f t', m !! f = Some t' →
        slot h0 data (strings.Split f ".") ≠ Some (x0, k0)).
      { intros f t' Hf Hs.
        assert (f = i) as ->; [|congruence].
        apply (Hun f i (x0, k0)); try done.
        - rewrite lookup_insert_ne by congruence. by eexists.
        - rewrite lookup_insert_eq. by eexists. }
      unfold InPlace.setNestedValue. rewrite setNestedParts_slot, Hslot.
      destruct c0 as [y|v].
      - (* a map is under the key: it stays *)
        assert (Hcell : cellAt g x0 k0 = Some (Ref y)) by (by apply IHref).
        unfold cellAt in Hcell. destruct (g !! x0) as [o|] eqn:Ho; [|done].
        rewrite Hcell.
        rewrite (convertToSchemaType_Ref g i y t)
          by (eapply validateFieldType_value; exact Hok).
        rewrite (insert_id o) by done. rewrite (insert_id g) by done.
        split; [done|]. intros x k v Hv.
        destruct (IHval x k v Hv) as (v' & Hv' & Hsame & Hconv).
        exists v'. split_and!; [done|by apply Hmono|].
        intros f t' Hf Hs.
        apply lookup_insert_Some in Hf as [[<- <-]|[_ Hf]]; [|by eapply Hconv].
        rewrite Hs in Hslot0. injection Hslot0 as -> ->. congruence.
      - (* a value is under the key: it is converted *)
        destruct (IHval x0 k0 v Hc0) as (v' & Hcell & Hsame & _).
        rewrite Hsame in Hcell by (intros f [t' Hf]; by eapply Hothers).
        clear v' Hsame.
        unfold cellAt in Hcell. destruct (g !! x0) as [o|] eqn:Ho; [|done].
        rewrite Hcell. cbn [InPlace.convertToSchemaType].
        assert (Hold : ∀ x k, ¬ (x = x0 ∧ k = k0) →
          cellAt (<[x0 := <[k0 := Val (convertToSchemaType v t)]> o]> g) x k
          = cellAt g x k).
        { intros x k Hne. rewrite cellAt_insert.
          destruct (decide (x = x0)) as [->|]; [|done].
          destruct (decide (k = k0)) as [->|]; [by destruct Hne|].
          unfold cellAt. by rewrite Ho. }
        assert (Hnew :
          cellAt (<[x0 := <[k0 := Val (convertToSchemaType v t)]> o]> g) x0 k0
          = Some (Val (convertToSchemaType v t))).
        { rewrite cellAt_insert. by rewrite !decide_True. }
        split.
        + intros x k y. destruct (decide (x = x0 ∧ k = k0)) as [[-> ->]|Hne].
          * rewrite Hnew, Hc0. split; by intros.
          * rewrite Hold by done. apply IHref.
        + intros x k v0 Hv0. destruct (decide (x = x0 ∧ k = k0)) as [[-> ->]|Hne].
          * rewrite Hc0 in Hv0. injection Hv0 as <-.
            exists (convertToSchemaType v t). split_and!; [done| |].
            -- intros Hno. destruct (Hno i); [|done].
               rewrite lookup_insert_eq. by eexists.
            -- intros f t' Hf Hs.
               apply lookup_insert_Some in Hf as [[<- <-]|[_ Hf]]; [done|].
               by destruct (Hothers f t' Hf).
          * rewrite Hold by done.
            destruct (IHval x k v0 Hv0) as (v' & Hv' & Hsame & Hconv).
            exists v'. split_and!; [done|by apply Hmono|].
            intros f t' Hf Hs.
            apply lookup_insert_Some in Hf as [[<- <-]|[_ Hf]]; [|by eapply Hconv].
            rewrite Hs in Hslot0. injection Hslot0 as -> ->. by destruct Hne.
Qed.

Lemma coercion_valid (h0 : heap) (data : loc) (schema : gmap string string) :
      unshared h0 data schema →
      (∀ f t, schema !! f = Some t → validateField h0 data f t = None) →
      ∀ f t, schema !! f = Some t →
        validateField
          (map_fold (λ fieldPath expectedType g,
                       InPlace.setNestedValue g data fieldPath expectedType)
                    h0 schema) data f t = None.
Proof.
      intros Hun Hvalid f t Hf.
      destruct (coercion_cells h0 data schema Hun Hvalid) as [Href Hval].
      destruct (proj1 (validateField_None h0 data f t) (Hvalid f t Hf))
        as (x & k & c & Hslot & Hc & Hok).
      apply validateField_None. exists x, k.
      rewrite (slot_ext _ h0 Href). destruct c as [y|v].
      - exists (Ref y). split_and!; [done|by apply Href|].
        eapply validateFieldType_value. exact Hok.
      - destruct (Hval x k v Hc) as (v' & Hv' & _ & Hconv).
        exists (Val v'). split_and!; [done|done|].
        rewrite (Hconv f t Hf Hslot). by apply validateFieldType_convert.
Qed.

    (** X11. Where no two paths of the schema lead to the same key of
        the same map, coercion never spoils a body: when the client's
        check accepts the body for the schema, it accepts the body that
        [convertBodyToSchemaTypes] returns, the maps being as the
        conversion leaves them. *)
Theorem coercion_in_place_keeps_valid (h : heap) (l : loc)
        (schema : gmap string string) :
      closed h →
      unshared h l schema →
      validateBodySchema h (Ref l) schema = None →
      validateBodySchema
        (snd (InPlace.convertBodyToSchemaTypes h (Ref l) schema))
        (fst (InPlace.convertBodyToSchemaTypes h (Ref l) schema)) schema = None.
Proof.
      intros Hclosed Hun Hvalid. unfold InPlace.convertBodyToSchemaTypes.
      destruct (h !! l) as [bodyMap|] eqn:Hbody; [|done].
      cbn [fst snd validateBodySchema] in *.
      set (result := fresh (dom h)).
      assert (Hfresh : h !! result = None).
      { apply not_elem_of_dom. apply is_fresh. }
      rewrite validateFields_None in Hvalid. apply validateFields_None.
      apply coercion_valid.
      - by apply (unshared_copy h l result bodyMap).
      - intros f t Hf.
        destruct (proj1 (validateField_None h l f t) (Hvalid f t Hf))
          as (x & k & c & Hslot & Hc & Hok).
        apply validateField_None.
        rewrite (slot_copy_result h l result bodyMap) by done.
        destruct (strings.Split f ".") as [|p [|q r]] eqn:Hsplit; [done| |].
        + injection Hslot as <- <-. exists result, p, c. split_and!; [done| |].
          * rewrite cellAt_copy_result. unfold cellAt in Hc. by rewrite Hbody in Hc.
          * eapply validateFieldType_value. exact Hok.
        + exists x, k, c. split_and!; [done| |].
          * rewrite (cellAt_copy_other h result bodyMap Hfresh); [done|].
            eapply slot_dom; [done| |exact Hslot]. by eexists.
          * eapply validateFieldType_value. exact Hok.
Qed.

End Coercion.
End Heap.

Ltac map_cases H :=
  repeat (apply lookup_insert_Some in H as [[<- <-]|[_ H]]);
  try (apply lookup_singleton_Some in H as [<- <-]).

Lemma closed_exampleSeparate : InPlace.closed InPlace.exampleSeparate.
Proof.
  intros l o Hl k c Hk. unfold InPlace.exampleSeparate in Hl.
  map_cases Hl; map_cases Hk; try done; by vm_compute; eexists.
Qed.


Lemma unshared_exampleSeparate :
  InPlace.unshared InPlace.exampleSeparate 0 InPlace.exampleSchema.
Proof.
  intros f f' s [t Hf] [t' Hf'] Hs Hs'. unfold InPlace.exampleSchema in Hf, Hf'.
  map_cases Hf; map_cases Hf'; try done;
    vm_compute in Hs, Hs'; congruence.
Qed.

Lemma coercion_in_place_keeps_valid_witness :
  InPlace.validateBodySchema
    (snd (InPlace.convertBodyToSchemaTypes InPlace.exampleSeparate
            (InPlace.Ref 0) InPlace.exampleSchema))
    (fst (InPlace.convertBodyToSchemaTypes InPlace.exampleSeparate
            (InPlace.Ref 0) InPlace.exampleSchema))
    InPlace.exampleSchema = None.
Proof.
  apply (coercion_in_place_keeps_valid (H := Scripted.runtime)).
  - exact closed_exampleSeparate.
  - exact unshared_exampleSeparate.
  - vm_compute. reflexivity.
Defined.


(** Two fields that hold one map, and paths of the schema that lead to
    the same key of it with two types: the check accepts the body, and
    rejects it after the conversion, which has written the integer
    where the one path leads and so where the other leads; the map is
    changed for the stored response that holds it too. *)
Example coercion_in_place_shared :
  InPlace.validateBodySchema InPlace.exampleShared (InPlace.Ref 0)
    InPlace.exampleSchema = None
  ∧ InPlace.slot InPlace.exampleShared 0 (strings.Split "a.x" ".")
    = InPlace.slot InPlace.exampleShared 0 (strings.Split "b.x" ".")
  ∧ InPlace.validateBodySchema
      (snd (InPlace.convertBodyToSchemaTypes InPlace.exampleShared
              (InPlace.Ref 0) InPlace.exampleSchema))
      (fst (InPlace.convertBodyToSchemaTypes InPlace.exampleShared
              (InPlace.Ref 0) InPlace.exampleSchema))
      InPlace.exampleSchema
    = Some (Errorf "field 'b.x' has type 'int', expected 'float'")
  ∧ InPlace.cellAt InPlace.exampleShared 1 "x"
    = Some (InPlace.Val (VFloat64 fortyTwo))
  ∧ InPlace.cellAt
      (snd (InPlace.convertBodyToSchemaTypes InPlace.exampleShared
              (InPlace.Ref 0) InPlace.exampleSchema)) 1 "x"
    = Some (InPlace.Val (VInt 42)).
Proof. split_and!; vm_compute; reflexivity. Qed.
